(** * gdrive-timestamp-updater: a shallow embedding of [main.py]

    The program sets [modifiedTime] on a Drive folder and on what lies
    beneath it.  The embedding keeps the shape of the source:

    - the remote service, [random.random()] and the passing of time are the
      environment.  The service and the random generator are oracles over an
      abstract [World]; every call to them, and every [time.sleep], is
      written to a trace of [event]s.  [time.sleep] and the calls of
      [logging] are taken to return;
    - exceptions are values ([Raise]); the two [while] loops, which Python does
      not bound, run on fuel and give [Diverge] when it is used up;
    - Python [int] is [Z]; Python [float] is IEEE binary64, taken from the
      Standard Library's [SpecFloat] ([prec = 53], [emax = 1024]);
    - JSON objects are [gmap string string], the visited set is a [gset];
    - [build_service] and [main] come after the validator: the command line,
      the process environment, the file system and the client library are
      further oracles, and [sys.exit] is the exception [SystemExit]. *)

From Stdlib Require Import ZArith QArith List String Ascii Lia Bool.
From Stdlib Require Import Floats.SpecFloat.
From stdpp Require Import gmap strings list sorting.

Local Open Scope string_scope.
Local Open Scope Z_scope.
Local Open Scope list_scope.

(** ** Data *)

Abbreviation dict := (gmap string string).

(** Constants of the module. *)
Definition FOLDER_MIME : string := "application/vnd.google-apps.folder".
Definition DEFAULT_RETRIES : Z := 5.

(** What [execute()] can raise: an [HttpError], whose [resp.status] converts
    to an [int] ([Some]) or does not ([None]), or anything else. *)
Inductive service_error :=
| SvcHttpError (status : option Z)
| SvcOther (what : string).

Inductive outcome (A : Type) :=
| Returns (a : A)
| Fails (e : service_error).
Arguments Returns {A} a.
Arguments Fails {A} e.

(** The answer of [files().list(...)]: [response.get('files', [])] and
    [response.get('nextPageToken')] read these two optional keys. *)
Record list_response := {
  files : option (list dict);
  nextPageToken : option string
}.

(** The [service] argument of the source, over an abstract world. *)
Record service (World : Type) := {
  files_update : string -> dict -> string -> World -> outcome dict * World;
  files_list : string -> option string -> World -> outcome list_response * World
}.
Arguments files_update {World} _ _ _ _ _.
Arguments files_list {World} _ _ _ _.

Inductive exn :=
| HttpError (status : option Z)
| ServiceFailure (what : string)
| RuntimeError (msg : string)
| OverflowError
| KeyError (key : string).

Definition exn_of (e : service_error) : exn :=
  match e with
  | SvcHttpError st => HttpError st
  | SvcOther what => ServiceFailure what
  end.

(** What the program does to its environment, in the order it does it.  A
    network call is written down with its answer. *)
Inductive event :=
| EvDryRunLog (file_id : string) (body : dict)
| EvUpdate (file_id : string) (body : dict) (fields : string) (attempt : Z)
    (answer : outcome dict)
| EvRandom (jitter : spec_float)
| EvSleep (seconds : spec_float)
| EvList (parent_id : string) (page_token : option string)
    (answer : outcome list_response).

Inductive result (A : Type) :=
| Ok (a : A)
| Raise (e : exn)
| Diverge.
Arguments Ok {A} a.
Arguments Raise {A} e.
Arguments Diverge {A}.

(** ** Floating point: [backoff_base * (2 ** attempt) + random.random()] *)

Definition prec : Z := 53.
Definition emax : Z := 1024.

(** [float(n)] for a Python [int]: correctly rounded, [OverflowError] ([None])
    when the rounded value does not fit a double. *)
Definition float_of_int (n : Z) : option spec_float :=
  match binary_normalize prec emax n 0 false with
  | S754_infinity _ => None
  | f => Some f
  end.

Definition backoff_base : Z := 1.

Definition sleep_for (attempt : Z) (jitter : spec_float) : option spec_float :=
  match float_of_int (backoff_base * 2 ^ attempt) with
  | None => None
  | Some x => Some (SFadd prec emax x jitter)
  end.

(** The rational a finite double stands for ([0] for the others). *)
Definition SF2Q (f : spec_float) : Q :=
  match f with
  | S754_finite s m e =>
      match e with
      | Zneg p => Qmake (cond_Zopp s (Zpos m)) (2 ^ p)
      | _ => inject_Z (cond_Zopp s (Zpos m) * 2 ^ e)
      end
  | _ => 0%Q
  end.

Definition is_finite_SF (f : spec_float) : bool :=
  match f with
  | S754_zero _ | S754_finite _ _ _ => true
  | _ => false
  end.

(** A double in [[0, 1)], which is what [random.random()] returns. *)
Definition unit_float (j : spec_float) : Prop :=
  is_finite_SF j = true /\ valid_binary prec emax j = true /\
  (0 <= SF2Q j)%Q /\ (SF2Q j < 1)%Q.

(** ** The effect monad *)

Record state (World : Type) := {
  world : World;
  trace : list event
}.
Arguments world {World} _.
Arguments trace {World} _.

Definition M (World A : Type) : Type := state World -> result A * state World.

Definition ret {World A} (a : A) : M World A := fun st => (Ok a, st).
Definition raise {World A} (e : exn) : M World A := fun st => (Raise e, st).
Definition diverge {World A} : M World A := fun st => (Diverge, st).

Definition bind {World A B} (m : M World A) (k : A -> M World B) : M World B :=
  fun st =>
    match m st with
    | (Ok a, st') => k a st'
    | (Raise e, st') => (Raise e, st')
    | (Diverge, st') => (Diverge, st')
    end.

Definition emit {World} (ev : event) : M World unit :=
  fun st => (Ok tt, {| world := world st; trace := trace st ++ [ev] |}).

(** A call to an oracle: the world moves on, the answer is handed over. *)
Definition call {World A} (f : World -> A * World) : M World A :=
  fun st => let '(a, w) := f (world st) in (Ok a, {| world := w; trace := trace st |}).

Declare Scope py_scope.
Delimit Scope py_scope with py.
Notation "x <- m ;; k" := (bind m (fun x => k))
  (at level 100, m at next level, right associativity) : py_scope.
Notation "m ;;; k" := (bind m (fun _ => k))
  (at level 100, right associativity) : py_scope.
Local Open Scope py_scope.

(** ** [retryable_update] *)

Section Mutator.
Context {World : Type}.
(** [random.random()] *)
Variable random_random : World -> spec_float * World.

Definition transient (status : option Z) : bool :=
  match status with
  | Some s => (s =? 429) || (s =? 500) || (s =? 503)
  | None => false
  end.

(** The [for attempt in range(max_retries)] loop, with [remaining]
    iterations to go, and the [raise RuntimeError] that follows it. *)
Fixpoint attempts (svc : service World) (file_id : string) (body : dict)
    (fields : string) (remaining : nat) (attempt : Z) : M World (option dict) :=
  match remaining with
  | O => raise (RuntimeError "Max retries exceeded for file update.")
  | S remaining' =>
      out <- call (files_update svc file_id body fields) ;;
      emit (EvUpdate file_id body fields attempt out) ;;;
      match out with
      | Returns resp => ret (Some resp)
      | Fails (SvcHttpError status) =>
          if transient status then
            jitter <- call random_random ;;
            emit (EvRandom jitter) ;;;
            match sleep_for attempt jitter with
            | None => raise OverflowError
            | Some seconds =>
                emit (EvSleep seconds) ;;;
                attempts svc file_id body fields remaining' (attempt + 1)
            end
          else raise (HttpError status)
      | Fails e => raise (exn_of e)
      end
  end.

Definition retryable_update (svc : service World) (file_id : string) (body : dict)
    (fields : string) (dry_run : bool) (max_retries : Z) : M World (option dict) :=
  if dry_run then
    emit (EvDryRunLog file_id body) ;;; ret None
  else
    attempts svc file_id body fields (Z.to_nat max_retries) 0.

End Mutator.

(** ** [list_children] *)

Section Lister.
Context {World : Type}.

(** Truth value of [page_token]: [None] and the empty string are false. *)
Definition truthy (page_token : option string) : bool :=
  match page_token with
  | Some t => negb (String.eqb t "")
  | None => false
  end.

(** The [while True] loop, entered with the [children] gathered so far. *)
Fixpoint list_children_loop (svc : service World) (parent_id : string)
    (fuel : nat) (children : list dict) (page_token : option string)
    : M World (list dict) :=
  match fuel with
  | O => diverge
  | S fuel' =>
      out <- call (files_list svc parent_id page_token) ;;
      emit (EvList parent_id page_token out) ;;;
      match out with
      | Fails e => raise (exn_of e)
      | Returns response =>
          let children := children ++ default [] (files response) in
          let page_token := nextPageToken response in
          if truthy page_token
          then list_children_loop svc parent_id fuel' children page_token
          else ret children
      end
  end.

Definition list_children (fuel : nat) (svc : service World) (parent_id : string)
    : M World (list dict) :=
  list_children_loop svc parent_id fuel [] None.

End Lister.

(** ** [update_folder_and_contents] *)

Section Engine.
Context {World : Type}.
Variable random_random : World -> spec_float * World.
Variable svc : service World.
Variables (new_time : string) (recursive dry_run : bool).

Definition body_of (t : string) : dict := {[ "modifiedTime" := t ]}.
Definition FIELDS : string := "id, name, modifiedTime".

(** The call [retryable_update(service, id, body=..., fields=...,
    dry_run=dry_run)] that the engine makes in three places. *)
Definition update_one (file_id : string) : M World (option dict) :=
  retryable_update random_random svc file_id (body_of new_time) FIELDS
    dry_run DEFAULT_RETRIES.

(** Body of [for c in children]; [queue] is the list being appended to. *)
Definition visit_child (queue : list string) (c : dict) : M World (list string) :=
  match c !! "id" with
  | None => raise (KeyError "id")
  | Some cid =>
      let cmime := default "" (c !! "mimeType") in
      if String.eqb cmime FOLDER_MIME then
        update_one cid ;;;
        if recursive then ret (queue ++ [cid]) else ret queue
      else
        update_one cid ;;; ret queue
  end.

Fixpoint for_children (children : list dict) (queue : list string)
    : M World (list string) :=
  match children with
  | [] => ret queue
  | c :: rest => queue' <- visit_child queue c ;; for_children rest queue'
  end.

(** One turn of [while queue], entered with [current_folder] popped. *)
Definition walk_step (lfuel : nat) (current_folder : string)
    (queue : list string) (visited : gset string)
    : M World (list string * gset string) :=
  if decide (current_folder ∈ visited) then ret (queue, visited)
  else
    let visited := visited ∪ {[ current_folder ]} in
    children <- list_children lfuel svc current_folder ;;
    match children with
    | [] => ret (queue, visited)
    | _ => queue' <- for_children children queue ;; ret (queue', visited)
    end.

(** [while queue: ...]; the visited set is handed back when the queue is
    empty so that it can be spoken of. *)
Fixpoint walk (fuel lfuel : nat) (queue : list string) (visited : gset string)
    : M World (gset string) :=
  match queue with
  | [] => ret visited
  | current_folder :: queue =>
      match fuel with
      | O => diverge
      | S fuel' =>
          qv <- walk_step lfuel current_folder queue visited ;;
          walk fuel' lfuel (fst qv) (snd qv)
      end
  end.

Definition update_folder_and_contents (fuel lfuel : nat) (folder_id : string)
    : M World (gset string) :=
  update_one folder_id ;;;
  walk fuel lfuel [folder_id] ∅.

(** *** The same loop with depths

    Bookkeeping beside the run, to speak of depths.  Every queue entry is
    paired with a depth: [0] for the root, and [d + 1] for what a turn of
    the loop on a container of depth [d] appends.  [log] is the trace of the
    run with a depth at every event: [0] at the events of the root's own
    update, and [d + 1] at every event of a turn on a container of depth
    [d], that is at its list calls and at the updates of the children these
    answered.  A turn is [walk_step] itself, on the queue without the
    depths; what it added to the trace and to the queue is read off its
    result. *)
Definition added (st st' : state World) : list event :=
  drop (length (trace st)) (trace st').

Definition tag (d : nat) (evs : list event) : list (event * nat) :=
  map (fun ev => (ev, d)) evs.

Definition at_depth (d : nat) (ids : list string) : list (string * nat) :=
  map (fun x => (x, d)) ids.

Fixpoint walk_depth (fuel lfuel : nat) (queue : list (string * nat))
    (visited : gset string) (log : list (event * nat)) (st : state World)
    : result (gset string) * list (event * nat) * state World :=
  match queue with
  | [] => (Ok visited, log, st)
  | (current_folder, d) :: queue =>
      match fuel with
      | O => (Diverge, log, st)
      | S fuel' =>
          let out := walk_step lfuel current_folder (map fst queue) visited st in
          let log := log ++ tag (S d) (added st (snd out)) in
          match fst out with
          | Ok (queue', visited) =>
              walk_depth fuel' lfuel
                (queue ++ at_depth (S d) (drop (length queue) queue'))
                visited log (snd out)
          | Raise e => (Raise e, log, snd out)
          | Diverge => (Diverge, log, snd out)
          end
      end
  end.

Definition update_folder_and_contents_depth (fuel lfuel : nat)
    (folder_id : string) (st : state World)
    : result (gset string) * list (event * nat) * state World :=
  let out := update_one folder_id st in
  let log := tag 0 (added st (snd out)) in
  match fst out with
  | Ok _ => walk_depth fuel lfuel [(folder_id, O)] ∅ log (snd out)
  | Raise e => (Raise e, log, snd out)
  | Diverge => (Diverge, log, snd out)
  end.

End Engine.

(** ** Reading a trace *)

(** The object a call of [retryable_update] is for: its dry-run log line, or
    its first network attempt. *)
Definition mutation_of (ev : event) : option string :=
  match ev with
  | EvDryRunLog file_id _ => Some file_id
  | EvUpdate file_id _ _ 0 _ => Some file_id
  | _ => None
  end.
Definition mutations (tr : list event) : list string := omap mutation_of tr.

(** The container a first-page list call opens. *)
Definition expansion_of (ev : event) : option string :=
  match ev with
  | EvList parent_id None _ => Some parent_id
  | _ => None
  end.
Definition expansions (tr : list event) : list string := omap expansion_of tr.

Definition list_call_of (ev : event) : option (string * option string) :=
  match ev with
  | EvList parent_id page_token _ => Some (parent_id, page_token)
  | _ => None
  end.
Definition list_calls (tr : list event) : list (string * option string) :=
  omap list_call_of tr.

Definition sleep_of (ev : event) : option spec_float :=
  match ev with
  | EvSleep seconds => Some seconds
  | _ => None
  end.
Definition sleeps (tr : list event) : list spec_float := omap sleep_of tr.

Definition network_update_of (ev : event) : option string :=
  match ev with
  | EvUpdate file_id _ _ _ _ => Some file_id
  | _ => None
  end.
Definition network_updates (tr : list event) : list string :=
  omap network_update_of tr.

Definition update_answer_of (ev : event) : option (outcome dict) :=
  match ev with
  | EvUpdate _ _ _ _ answer => Some answer
  | _ => None
  end.
Definition update_answers (tr : list event) : list (outcome dict) :=
  omap update_answer_of tr.

Definition draw_of (ev : event) : option spec_float :=
  match ev with
  | EvRandom jitter => Some jitter
  | _ => None
  end.
Definition draws (tr : list event) : list spec_float := omap draw_of tr.

Definition page_of (ev : event) : option (outcome list_response) :=
  match ev with
  | EvList _ _ answer => Some answer
  | _ => None
  end.
Definition pages (tr : list event) : list (outcome list_response) :=
  omap page_of tr.

(** A transient failure: an [HttpError] whose status is 429, 500 or 503. *)
Definition transient_answer (a : outcome dict) : bool :=
  match a with
  | Fails (SvcHttpError status) => transient status
  | _ => false
  end.

Definition start {World} (w : World) : state World := {| world := w; trace := [] |}.

(** ** A scripted environment

    A world one can compute with: the answers to the update calls and the
    random draws are read off two lists (when a list is used up the update
    succeeds with an empty object and the draw is [0.0]); listing is a fixed
    function of the parent and the page token. *)

Module Scripted.

Record world := {
  updates : list (outcome dict);
  randoms : list spec_float;
  listing : string -> option string -> outcome list_response
}.

Definition do_update (file_id : string) (body : dict) (fields : string) (w : world)
    : outcome dict * world :=
  match updates w with
  | [] => (Returns ∅, w)
  | a :: rest =>
      (a, {| updates := rest; randoms := randoms w; listing := listing w |})
  end.

Definition do_list (parent_id : string) (page_token : option string) (w : world)
    : outcome list_response * world :=
  (listing w parent_id page_token, w).

Definition svc : service world :=
  {| files_update := do_update; files_list := do_list |}.

Definition random (w : world) : spec_float * world :=
  match randoms w with
  | [] => (S754_zero false, w)
  | j :: rest =>
      (j, {| updates := updates w; randoms := rest; listing := listing w |})
  end.

Definition no_files : string -> option string -> outcome list_response :=
  fun _ _ => Returns {| files := Some []; nextPageToken := None |}.

(** A world that answers the update calls with [answers] and draws [js]. *)
Definition answering (answers : list (outcome dict)) (js : list spec_float) : world :=
  {| updates := answers; randoms := js; listing := no_files |}.

(** A world whose updates all succeed, over a given folder listing. *)
Definition drive (l : string -> option string -> outcome list_response) : world :=
  {| updates := []; randoms := []; listing := l |}.

Definition folder (id : string) : dict :=
  {[ "id" := id; "mimeType" := FOLDER_MIME ]}.
Definition file (id : string) : dict :=
  {[ "id" := id; "mimeType" := "text/plain" ]}.
Definition one_page (cs : list dict) : outcome list_response :=
  Returns {| files := Some cs; nextPageToken := None |}.

Definition http (status : Z) : outcome dict := Fails (SvcHttpError (Some status)).

(** [0.9999999999999999], the largest double below [1.0]. *)
Definition below_one : spec_float := S754_finite false 9007199254740991 (-53).
(** [0.5] *)
Definition half : spec_float := S754_finite false 4503599627370496 (-53).

(** The scenario of the specification: root [R] holds the folder [folderA]
    and the file [file1]; [folderA] holds [file2]. *)
Definition scenario_tree : string -> option string -> outcome list_response :=
  fun parent_id _ =>
    if String.eqb parent_id "R" then one_page [folder "folderA"; file "file1"]
    else if String.eqb parent_id "folderA" then one_page [file "file2"]
    else one_page [].

(** A folder [X] listed under two folders [A] and [B] of the root. *)
Definition diamond : string -> option string -> outcome list_response :=
  fun parent_id _ =>
    if String.eqb parent_id "R" then one_page [folder "A"; folder "B"]
    else if String.eqb parent_id "A" then one_page [folder "X"]
    else if String.eqb parent_id "B" then one_page [folder "X"]
    else one_page [].

(** A cycle: [A] is listed under the root and the root under [A]. *)
Definition cycle : string -> option string -> outcome list_response :=
  fun parent_id _ =>
    if String.eqb parent_id "R" then one_page [folder "A"]
    else if String.eqb parent_id "A" then one_page [folder "R"]
    else one_page [].

(** Three pages for [R], chained by the tokens [t1] and [t2]. *)
Definition paged : string -> option string -> outcome list_response :=
  fun parent_id page_token =>
    match page_token with
    | None => Returns {| files := Some [file "a"; file "b"]; nextPageToken := Some "t1" |}
    | Some t =>
        if String.eqb t "t1"
        then Returns {| files := Some [file "c"]; nextPageToken := Some "t2" |}
        else Returns {| files := Some [file "d"]; nextPageToken := None |}
    end.

End Scripted.

(** ** [validate_rfc3339]

    The validator calls [datetime.strptime], which is not part of this
    program: it is modelled here after CPython's [Lib/_strptime.py] and
    [datetime], for the directives the two formats use ([%Y %m %d %H %M %S
    %f]) and formats without white space.  A string is a list of code points
    below 256; among these the decimal digits of [\d] are [0] to [9].
    [None] stands for [ValueError]. *)

(** A class of one character in the regular expressions of [TimeRE]. *)
Inductive char_class :=
| AnyDigit
| Between (lo hi : ascii)
| Exactly (c : ascii).

Definition is_digit (c : ascii) : bool :=
  ((48 <=? N_of_ascii c) && (N_of_ascii c <=? 57))%N.

Definition in_class (k : char_class) (c : ascii) : bool :=
  match k with
  | AnyDigit => is_digit c
  | Between lo hi => ((N_of_ascii lo <=? N_of_ascii c) && (N_of_ascii c <=? N_of_ascii hi))%N
  | Exactly x => Ascii.eqb x c
  end.

Inductive directive := DY | Dm | Dd | DH | DM | DS | Df.

(** The alternatives of each directive, in the order the regular expression
    tries them; each is a sequence of one-character classes. *)
Definition directive_regex (d : directive) : list (list char_class) :=
  match d with
  | Dd => [[Exactly "3"; Between "0" "1"]; [Between "1" "2"; AnyDigit];
           [Exactly "0"; Between "1" "9"]; [Between "1" "9"];
           [Exactly " "; Between "1" "9"]]
  | Df => [repeat (Between "0" "9") 6; repeat (Between "0" "9") 5;
           repeat (Between "0" "9") 4; repeat (Between "0" "9") 3;
           repeat (Between "0" "9") 2; repeat (Between "0" "9") 1]
  | DH => [[Exactly "2"; Between "0" "3"]; [Between "0" "1"; AnyDigit]; [AnyDigit]]
  | Dm => [[Exactly "1"; Between "0" "2"]; [Exactly "0"; Between "1" "9"];
           [Between "1" "9"]]
  | DM => [[Between "0" "5"; AnyDigit]; [AnyDigit]]
  | DS => [[Exactly "6"; Between "0" "1"]; [Between "0" "5"; AnyDigit]; [AnyDigit]]
  | DY => [[AnyDigit; AnyDigit; AnyDigit; AnyDigit]]
  end.

Inductive format_item :=
| Literal (c : ascii)
| Directive (d : directive).

Definition directive_of (c : ascii) : option directive :=
  if Ascii.eqb c "Y" then Some DY else
  if Ascii.eqb c "m" then Some Dm else
  if Ascii.eqb c "d" then Some Dd else
  if Ascii.eqb c "H" then Some DH else
  if Ascii.eqb c "M" then Some DM else
  if Ascii.eqb c "S" then Some DS else
  if Ascii.eqb c "f" then Some Df else None.

(** [TimeRE.pattern]: the format as a sequence of literals and directives. *)
Fixpoint pattern (format : string) : option (list format_item) :=
  match format with
  | EmptyString => Some []
  | String "%" EmptyString => None
  | String "%" (String c rest) =>
      match directive_of c, pattern rest with
      | Some d, Some items => Some (Directive d :: items)
      | _, _ => None
      end
  | String c rest =>
      match pattern rest with
      | Some items => Some (Literal c :: items)
      | None => None
      end
  end.

(** One alternative against the front of a string: the text matched and
    what is left. *)
Fixpoint match_classes (ks : list char_class) (s : string) : option (string * string) :=
  match ks with
  | [] => Some (EmptyString, s)
  | k :: ks' =>
      match s with
      | String c s' =>
          if in_class k c then
            match match_classes ks' s' with
            | Some (m, rest) => Some (String c m, rest)
            | None => None
            end
          else None
      | EmptyString => None
      end
  end.

(** [re.IGNORECASE]: a literal matches in either case. *)
Definition lower (c : ascii) : ascii :=
  if ((65 <=? N_of_ascii c) && (N_of_ascii c <=? 90))%N
  then ascii_of_N (N_of_ascii c + 32) else c.
Definition same_letter (c c' : ascii) : bool := Ascii.eqb (lower c) (lower c').

(** A group is added to what the rest of the match captured. *)
Definition capture (d : directive) (text : string)
    (r : list (directive * string) * string) : list (directive * string) * string :=
  ((d, text) :: fst r, snd r).

(** All the ways the items match a front of the string, in the order a
    backtracking matcher finds them: the groups captured and what is left. *)
Fixpoint match_items (items : list format_item) (s : string)
    : list (list (directive * string) * string) :=
  match items with
  | [] => [([], s)]
  | Literal c :: items' =>
      match s with
      | String c' s' => if same_letter c c' then match_items items' s' else []
      | EmptyString => []
      end
  | Directive d :: items' =>
      flat_map
        (fun found : string * string =>
           map (capture d (fst found)) (match_items items' (snd found)))
        (omap (fun ks => match_classes ks s) (directive_regex d))
  end.

(** [int(s)] on a captured group: decimal digits, white space skipped. *)
Definition digit_value (c : ascii) : Z := Z.of_N (N_of_ascii c) - 48.
Fixpoint int_of_acc (acc : Z) (s : string) : Z :=
  match s with
  | EmptyString => acc
  | String c s' =>
      if is_digit c then int_of_acc (10 * acc + digit_value c) s'
      else int_of_acc acc s'
  end.
Definition int_of (s : string) : Z := int_of_acc 0 s.

(** [s += "0" * (6 - len(s))] *)
Definition pad_fraction (s : string) : string :=
  (s ++ string_of_list_ascii (repeat "0"%char (6 - String.length s)))%string.

Definition eq_directive (a b : directive) : bool :=
  match a, b with
  | DY, DY | Dm, Dm | Dd, Dd | DH, DH | DM, DM | DS, DS | Df, Df => true
  | _, _ => false
  end.

Fixpoint group (d : directive) (found : list (directive * string)) : option string :=
  match found with
  | [] => None
  | (d', s) :: rest => if eq_directive d d' then Some s else group d rest
  end.

Definition is_leap (year : Z) : bool :=
  (year mod 4 =? 0) && (negb (year mod 100 =? 0) || (year mod 400 =? 0)).

Definition days_in_month (year month : Z) : Z :=
  if (month =? 2) && is_leap year then 29
  else nth (Z.to_nat month) [-1; 31; 28; 31; 30; 31; 30; 31; 31; 30; 31; 30; 31] 0.

Record datetime := {
  dt_year : Z; dt_month : Z; dt_day : Z;
  dt_hour : Z; dt_minute : Z; dt_second : Z; dt_microsecond : Z
}.

(** The range checks of [datetime.date] and [datetime.datetime]. *)
Definition valid_fields (t : datetime) : bool :=
  (1 <=? dt_year t) && (dt_year t <=? 9999) &&
  (1 <=? dt_month t) && (dt_month t <=? 12) &&
  (1 <=? dt_day t) && (dt_day t <=? days_in_month (dt_year t) (dt_month t)) &&
  (0 <=? dt_hour t) && (dt_hour t <=? 23) &&
  (0 <=? dt_minute t) && (dt_minute t <=? 59) &&
  (0 <=? dt_second t) && (dt_second t <=? 59) &&
  (0 <=? dt_microsecond t) && (dt_microsecond t <=? 999999).

(** The values [_strptime] reads off the groups, with its defaults. *)
Definition fields_of (found : list (directive * string)) : datetime :=
  {| dt_year := from_option int_of 1900 (group DY found);
     dt_month := from_option int_of 1 (group Dm found);
     dt_day := from_option int_of 1 (group Dd found);
     dt_hour := from_option int_of 0 (group DH found);
     dt_minute := from_option int_of 0 (group DM found);
     dt_second := from_option int_of 0 (group DS found);
     dt_microsecond :=
       from_option (fun s => int_of (pad_fraction s)) 0 (group Df found) |}.

Definition strptime (data_string format : string) : option datetime :=
  match pattern format with
  | None => None
  | Some items =>
      match match_items items data_string with
      | [] => None
      | (found, rest) :: _ =>
          match rest with
          | EmptyString =>
              if valid_fields (fields_of found) then Some (fields_of found)
              else None
          | String _ _ => None
          end
      end
  end.

Definition FORMATS : list string :=
  ["%Y-%m-%dT%H:%M:%S.%fZ"; "%Y-%m-%dT%H:%M:%SZ"].

(** [for fmt in (...): try: strptime; return True; except ValueError:
    continue], then [return False]. *)
Fixpoint try_formats (ts : string) (formats : list string) : bool :=
  match formats with
  | [] => false
  | fmt :: rest =>
      match strptime ts fmt with
      | Some _ => true
      | None => try_formats ts rest
      end
  end.

Definition validate_rfc3339 (ts : string) : bool := try_formats ts FORMATS.

(** *** The two layouts of the specification, read literally

    [YYYY-MM-DDTHH:MM:SS.ffffffZ] and [YYYY-MM-DDTHH:MM:SSZ]: each of the
    letters [Y M D H S f] stands for one decimal digit, every other
    character for itself. *)
Definition LAYOUT_FRACTIONAL : string := "YYYY-MM-DDTHH:MM:SS.ffffffZ".
Definition LAYOUT_WHOLE : string := "YYYY-MM-DDTHH:MM:SSZ".

Definition placeholder (c : ascii) : bool :=
  existsb (Ascii.eqb c) ["Y"; "M"; "D"; "H"; "S"; "f"]%char.

Fixpoint matches_layout (layout ts : string) : bool :=
  match layout, ts with
  | EmptyString, EmptyString => true
  | String p layout', String c ts' =>
      (if placeholder p then is_digit c else Ascii.eqb p c)
      && matches_layout layout' ts'
  | _, _ => false
  end.

(** The range a two-digit field has to be in for its directive to match. *)
Definition two_digit_ok (d : directive) (n : Z) : bool :=
  match d with
  | Dm => (1 <=? n) && (n <=? 12)
  | Dd => (1 <=? n) && (n <=? 31)
  | DH => n <=? 23
  | DM => n <=? 59
  | DS => n <=? 61
  | _ => true
  end.

(** The fields of a string of either layout, read by position. *)
Definition layout_fields (ts : string) : datetime :=
  {| dt_year := int_of (substring 0 4 ts);
     dt_month := int_of (substring 5 2 ts);
     dt_day := int_of (substring 8 2 ts);
     dt_hour := int_of (substring 11 2 ts);
     dt_minute := int_of (substring 14 2 ts);
     dt_second := int_of (substring 17 2 ts);
     dt_microsecond := int_of (substring 20 6 ts) |}.

Fixpoint last_char (s : string) : option ascii :=
  match s with
  | EmptyString => None
  | String c EmptyString => Some c
  | String _ s' => last_char s'
  end.

(** ** [build_service] and [main]

    What [main] reaches outside the module is the environment: [argparse],
    [os.getenv], [os.path.isfile], the credentials loader,
    [googleapiclient.discovery.build] and [random.random] are oracles over
    the world.  [parse_args] is [argparse] at work: it hands over the
    namespace or leaves through [SystemExit] (a usage error, [--help]).
    [setup_logging] only configures [logging]. *)

(** [args], as [parse_args] declares its fields. *)
Module Namespace.
Record t := {
  credentials : option string;
  recursive : bool;
  dry_run : bool;
  verbose : bool;
  folder_id : string;
  modified_time : string
}.
End Namespace.

Module Env.
Record t (World Creds : Type) := {
  parse_args : World -> (Namespace.t + Z) * World;
  os_getenv : string -> World -> option string * World;
  os_path_isfile : string -> World -> bool * World;
  from_service_account_file :
    string -> list string -> World -> outcome Creds * World;
  build : string -> string -> Creds -> World -> outcome (service World) * World;
  random_random : World -> spec_float * World;
  (** whether the class of what a library call raises derives from
      [Exception] (a [KeyboardInterrupt] does not) *)
  derives_from_Exception : string -> bool
}.
Arguments parse_args {World Creds} _ _.
Arguments os_getenv {World Creds} _ _ _.
Arguments os_path_isfile {World Creds} _ _ _.
Arguments from_service_account_file {World Creds} _ _ _ _.
Arguments build {World Creds} _ _ _ _ _.
Arguments random_random {World Creds} _ _.
Arguments derives_from_Exception {World Creds} _ _.
End Env.

Definition SCOPES : list string := ["https://www.googleapis.com/auth/drive"].

(** The exceptions of [build_service] and [main], beside those of the
    traversal. *)
Inductive py_exn :=
| Other (e : exn)
| ValueError (msg : string)
| FileNotFoundError (msg : string)
| SystemExit (code : Z).

Inductive py_result (A : Type) :=
| POk (a : A)
| PRaise (e : py_exn)
| PDiverge.
Arguments POk {A} a.
Arguments PRaise {A} e.
Arguments PDiverge {A}.

Section Main.
Context {World Creds : Type}.
Variable env : Env.t World Creds.

(** What [except Exception] catches. *)
Definition is_Exception (e : py_exn) : bool :=
  match e with
  | Other (ServiceFailure what) => Env.derives_from_Exception env what
  | Other _ => true
  | ValueError _ | FileNotFoundError _ => true
  | SystemExit _ => false
  end.

Definition moved (st : state World) (w : World) : state World :=
  {| world := w; trace := trace st |}.

Definition build_service (credentials_path : string) (st : state World)
    : py_result (service World) * state World :=
  if String.eqb credentials_path "" then
    (PRaise (ValueError "No credentials provided. Set --credentials or GOOGLE_APPLICATION_CREDENTIALS env var."),
     st)
  else
    let '(is_file, w1) := Env.os_path_isfile env credentials_path (world st) in
    if negb is_file then
      (PRaise (FileNotFoundError ("Credentials file not found: " ++ credentials_path)),
       moved st w1)
    else
      match Env.from_service_account_file env credentials_path SCOPES w1 with
      | (Fails e, w2) => (PRaise (Other (exn_of e)), moved st w2)
      | (Returns creds, w2) =>
          match Env.build env "drive" "v3" creds w2 with
          | (Fails e, w3) => (PRaise (Other (exn_of e)), moved st w3)
          | (Returns service, w3) => (POk service, moved st w3)
          end
      end.

(** [args.credentials or os.getenv('GOOGLE_APPLICATION_CREDENTIALS')]: the
    environment is read only when the option is missing or empty. *)
Definition credentials_path_of (args : Namespace.t) (st : state World)
    : option string * state World :=
  if truthy (Namespace.credentials args) then (Namespace.credentials args, st)
  else
    let '(v, w) := Env.os_getenv env "GOOGLE_APPLICATION_CREDENTIALS" (world st) in
    (v, moved st w).

(** The second [try] of [main]: the traversal under its two handlers. *)
Definition run_traversal (service : service World) (args : Namespace.t)
    (fuel lfuel : nat) (st : state World) : py_result unit * state World :=
  match update_folder_and_contents (Env.random_random env) service
          (Namespace.modified_time args) (Namespace.recursive args)
          (Namespace.dry_run args) fuel lfuel (Namespace.folder_id args) st with
  | (Ok _, st') => (POk tt, st')
  | (Raise e, st') =>
      match e with
      | HttpError _ => (PRaise (SystemExit 1), st')
      | _ =>
          if is_Exception (Other e) then (PRaise (SystemExit 1), st')
          else (PRaise (Other e), st')
      end
  | (Diverge, st') => (PDiverge, st')
  end.

Definition main (fuel lfuel : nat) (st : state World)
    : py_result unit * state World :=
  match Env.parse_args env (world st) with
  | (inr code, w0) => (PRaise (SystemExit code), moved st w0)
  | (inl args, w0) =>
      let st0 := moved st w0 in
      if negb (validate_rfc3339 (Namespace.modified_time args)) then
        (PRaise (SystemExit 2), st0)
      else
        let '(cred_path, st1) := credentials_path_of args st0 in
        if negb (truthy cred_path) then (PRaise (SystemExit 2), st1)
        else
          match build_service (default "" cred_path) st1 with
          | (PRaise e, st2) =>
              if is_Exception e then (PRaise (SystemExit 1), st2)
              else (PRaise e, st2)
          | (PDiverge, st2) => (PDiverge, st2)
          | (POk service, st2) => run_traversal service args fuel lfuel st2
          end
  end.

End Main.

(** The same environment with another [os.getenv], to say what does not
    depend on the variables of the process. *)
Definition with_getenv {World Creds : Type} (env : Env.t World Creds)
    (getenv : string -> World -> option string * World) : Env.t World Creds :=
  {| Env.parse_args := Env.parse_args env;
     Env.os_getenv := getenv;
     Env.os_path_isfile := Env.os_path_isfile env;
     Env.from_service_account_file := Env.from_service_account_file env;
     Env.build := Env.build env;
     Env.random_random := Env.random_random env;
     Env.derives_from_Exception := Env.derives_from_Exception env |}.

(** A scripted environment for [main]: the command line is [args], the
    variable [GOOGLE_APPLICATION_CREDENTIALS] is [variable], the files that
    exist are [files], and the service is the scripted one. *)
Module ScriptedMain.

Definition env (args : Namespace.t) (variable : option string)
    (files : list string) : Env.t Scripted.world unit :=
  {| Env.parse_args := fun w => (inl args, w);
     Env.os_getenv := fun _ w => (variable, w);
     Env.os_path_isfile :=
       fun path w => (existsb (String.eqb path) files, w);
     Env.from_service_account_file := fun _ _ w => (Returns tt, w);
     Env.build := fun _ _ _ w => (Returns Scripted.svc, w);
     Env.random_random := Scripted.random;
     Env.derives_from_Exception := fun _ => true |}.

Definition args (credentials : option string) (recursive dry_run : bool)
    (folder_id modified_time : string) : Namespace.t :=
  {| Namespace.credentials := credentials;
     Namespace.recursive := recursive;
     Namespace.dry_run := dry_run;
     Namespace.verbose := false;
     Namespace.folder_id := folder_id;
     Namespace.modified_time := modified_time |}.

End ScriptedMain.

(** ** Descriptions the code is compared with *)

(** [pow2_double_ok i]: [float(2 ** i)] is the double [2^52 * 2^(i - 52)]. *)
Definition pow2_double_ok (i : nat) : bool :=
  match float_of_int (2 ^ Z.of_nat i) with
  | Some (S754_finite false m e) =>
      (Zpos m =? 2 ^ 52) && (e =? Z.of_nat i - 52)
  | _ => false
  end.

Definition RETRIES_EXHAUSTED : exn :=
  RuntimeError "Max retries exceeded for file update.".

(** The retry policy in words: what [left] attempts, the next one numbered
    [attempt], do to the trace and how they end. *)
Inductive retry_run (file_id : string) (body : dict) (fields : string)
  : nat -> Z -> list event -> result (option dict) -> Prop :=
| retry_exhausted attempt :
    retry_run file_id body fields O attempt [] (Raise RETRIES_EXHAUSTED)
| retry_success left attempt resp :
    retry_run file_id body fields (S left) attempt
      [EvUpdate file_id body fields attempt (Returns resp)] (Ok (Some resp))
| retry_fatal left attempt e :
    transient_answer (Fails e) = false ->
    retry_run file_id body fields (S left) attempt
      [EvUpdate file_id body fields attempt (Fails e)] (Raise (exn_of e))
| retry_again left attempt status jitter seconds evs r :
    transient status = true ->
    sleep_for attempt jitter = Some seconds ->
    retry_run file_id body fields left (attempt + 1) evs r ->
    retry_run file_id body fields (S left) attempt
      (EvUpdate file_id body fields attempt (Fails (SvcHttpError status))
         :: EvRandom jitter :: EvSleep seconds :: evs) r
| retry_overflow left attempt status jitter :
    transient status = true ->
    sleep_for attempt jitter = None ->
    retry_run file_id body fields (S left) attempt
      [EvUpdate file_id body fields attempt (Fails (SvcHttpError status));
       EvRandom jitter] (Raise OverflowError).

(** [left] rounds in a row of: an update that fails with a transient status,
    a random draw, and the sleep computed from it. *)
Inductive exhausted_rounds (file_id : string) (body : dict) (fields : string)
  : Z -> nat -> list event -> Prop :=
| rounds_done attempt : exhausted_rounds file_id body fields attempt O []
| rounds_more attempt left status jitter seconds evs :
    transient status = true ->
    sleep_for attempt jitter = Some seconds ->
    exhausted_rounds file_id body fields (attempt + 1) left evs ->
    exhausted_rounds file_id body fields attempt (S left)
      (EvUpdate file_id body fields attempt (Fails (SvcHttpError status))
         :: EvRandom jitter :: EvSleep seconds :: evs).

(** The files of one page, [response.get('files', [])]. *)
Definition page_files (response : list_response) : list dict :=
  default [] (files response).

(** Paging in words: with [fuel] calls allowed, the next one carrying
    [page_token], and [children] gathered so far. *)
Inductive paging (parent_id : string)
  : nat -> option string -> list dict -> list event -> result (list dict) -> Prop :=
| paging_stopped page_token children :
    paging parent_id O page_token children [] Diverge
| paging_failed fuel page_token children e :
    paging parent_id (S fuel) page_token children
      [EvList parent_id page_token (Fails e)] (Raise (exn_of e))
| paging_last fuel page_token children response :
    truthy (nextPageToken response) = false ->
    paging parent_id (S fuel) page_token children
      [EvList parent_id page_token (Returns response)]
      (Ok (children ++ page_files response))
| paging_next fuel page_token children response evs r :
    truthy (nextPageToken response) = true ->
    paging parent_id fuel (nextPageToken response)
      (children ++ page_files response) evs r ->
    paging parent_id (S fuel) page_token children
      (EvList parent_id page_token (Returns response) :: evs) r.

(** Events of the lister and events of the mutator. *)
Definition is_list_event (ev : event) : bool :=
  match ev with
  | EvList _ _ _ => true
  | _ => false
  end.

(** [c['id']] of the children that have one. *)
Definition child_ids (children : list dict) : list string :=
  omap (fun c : dict => c !! "id") children.

(** The children the engine puts on the queue. *)
Definition is_folder (c : dict) : bool :=
  String.eqb (default "" (c !! "mimeType")) FOLDER_MIME.
Definition enqueued (recursive : bool) (children : list dict) : list string :=
  if recursive then child_ids (List.filter is_folder children) else [].

(** What the breadth-first loop keeps true of the depths: the queue and the
    log are sorted by depth, and nothing is deeper than one level below the
    head of the queue. *)
Definition level_inv (queue : list (string * nat)) (log : list (event * nat))
    : Prop :=
  StronglySorted le (map snd queue) /\
  StronglySorted le (map snd log) /\
  match queue with
  | [] => True
  | (_, d) :: _ =>
      Forall (fun p => (snd p <= S d)%nat) queue /\
      Forall (fun q => (snd q <= S d)%nat) log
  end.

(** What the depths of a log mean.  A list call on [p] at depth [k] comes
    after [p] was handed to the mutator at depth [k - 1]; an object handed
    to the mutator at depth [k + 1] was answered by an earlier list call at
    that depth. *)
Definition lists_below (log : list (event * nat)) : Prop :=
  forall (i : nat) p t a (k : nat),
    log !! i = Some (EvList p t a, k) ->
    exists (j : nat) ev (k' : nat),
      (j < i)%nat /\ log !! j = Some (ev, k') /\
      mutation_of ev = Some p /\ k = S k'.

Definition handed_as_listed (log : list (event * nat)) : Prop :=
  forall (i : nat) ev (k : nat) x,
    log !! i = Some (ev, S k) -> mutation_of ev = Some x ->
    exists (j : nat) p t response,
      (j < i)%nat /\ log !! j = Some (EvList p t (Returns response), S k) /\
      x ∈ child_ids (page_files response).

(** Every queue entry was handed to the mutator at the depth it carries. *)
Definition queue_handed (queue : list (string * nat)) (log : list (event * nat))
    : Prop :=
  forall p (d : nat), (p, d) ∈ queue ->
    exists ev, (ev, d) ∈ log /\ mutation_of ev = Some p.

(** The objects handed to the mutator, and the containers a listing was
    started on, with their depths in a log. *)
Definition handed_at (log : list (event * nat)) : list (string * nat) :=
  omap (fun q : event * nat =>
          match mutation_of (fst q) with
          | Some x => Some (x, snd q)
          | None => None
          end) log.
Definition listed_at (log : list (event * nat)) : list (string * nat) :=
  omap (fun q : event * nat =>
          match expansion_of (fst q) with
          | Some p => Some (p, snd q)
          | None => None
          end) log.

(** Events that touch nothing: the dry-run log line and the list calls. *)
Definition is_quiet (ev : event) : bool :=
  match ev with
  | EvDryRunLog _ _ | EvList _ _ _ => true
  | _ => false
  end.

(** The list calls of a trace, with their answers. *)
Definition listing_events (tr : list event) : list event :=
  List.filter is_list_event tr.

(** A run that did not stop on an exception. *)
Definition not_raised {A : Type} (r : result A) : Prop :=
  match r with
  | Raise _ => False
  | _ => True
  end.

(** ** Further readings of a trace *)

(** The objects the service listed, page after page, over all list calls. *)
Definition listed_of (ev : event) : list dict :=
  match ev with
  | EvList _ _ (Returns response) => page_files response
  | _ => []
  end.
Definition listed (tr : list event) : list dict := concat (map listed_of tr).

(** The ids of the listed objects that the engine takes for folders. *)
Definition listed_folders (tr : list event) : list string :=
  child_ids (List.filter is_folder (listed tr)).

(** The error of a call that is not tried again: an update that failed with
    anything but a transient status, or a list call that failed. *)
Definition failure_of (ev : event) : option service_error :=
  match ev with
  | EvUpdate _ _ _ _ (Fails e) =>
      if transient_answer (Fails e) then None else Some e
  | EvList _ _ (Fails e) => Some e
  | _ => None
  end.

(** What an update of the run for [new_time] carries. *)
Definition sends (new_time : string) (ev : event) : Prop :=
  match ev with
  | EvUpdate _ body fields attempt _ =>
      body = body_of new_time /\ fields = FIELDS /\
      0 <= attempt < DEFAULT_RETRIES
  | EvDryRunLog _ body => body = body_of new_time
  | _ => True
  end.

(** The seconds slept, added up as rationals. *)
Definition total_sleep (tr : list event) : Q :=
  fold_right Qplus 0%Q (map SF2Q (sleeps tr)).

(** A run that ended, one way or the other. *)
Definition ended {A : Type} (r : result A) : Prop :=
  match r with
  | Diverge => False
  | _ => True
  end.

(** What a run raised, if it did. *)
Definition raised {A : Type} (r : result A) : option exn :=
  match r with
  | Raise e => Some e
  | _ => None
  end.

(** [evs] holds no failure that is not retried, or holds one, as its last
    event, and the error of that call is what the run raised. *)
Definition clean (evs : list event) : Prop :=
  Forall (fun ev => failure_of ev = None) evs.
Definition fails_last {A : Type} (evs : list event) (r : result A) : Prop :=
  clean evs \/
  exists evs' ev e,
    evs = evs' ++ [ev] /\ clean evs' /\ failure_of ev = Some e /\
    raised r = Some (exn_of e).

(** A computation that only adds to the trace, and stops at the first
    failure that is not retried. *)
Definition stops_at_failure {World A : Type} (m : M World A) : Prop :=
  forall st, exists evs,
    trace (snd (m st)) = trace st ++ evs /\ fails_last evs (fst (m st)).

(** A computation that only adds to the trace, and what it adds satisfies
    [Q]. *)
Definition adds {World A : Type} (Q : list event -> Prop) (m : M World A) : Prop :=
  forall st, exists evs, trace (snd (m st)) = trace st ++ evs /\ Q evs.

(** No more than [DEFAULT_RETRIES] update calls for each object handed to the
    mutator. *)
Definition within_budget (evs : list event) : Prop :=
  (length (network_updates evs) <= Z.to_nat DEFAULT_RETRIES * length (mutations evs))%nat.

(** With draws in [[0, 1)], no more than 36 seconds of sleep for each object
    handed to the mutator. *)
Definition within_time (evs : list event) : Prop :=
  Forall unit_float (draws evs) ->
  (total_sleep evs <= inject_Z (36 * Z.of_nat (length (mutations evs))))%Q.

(** * Properties *)

(** ** The monad *)

Lemma bind_Ok {World A B} (m : M World A) (k : A -> M World B) st a st' :
  m st = (Ok a, st') -> bind m k st = k a st'.
Proof. intros H. unfold bind. by rewrite H. Qed.

Lemma bind_Raise {World A B} (m : M World A) (k : A -> M World B) st e st' :
  m st = (Raise e, st') -> bind m k st = (Raise e, st').
Proof. intros H. unfold bind. by rewrite H. Qed.

Lemma bind_Diverge {World A B} (m : M World A) (k : A -> M World B) st st' :
  m st = (Diverge, st') -> bind m k st = (Diverge, st').
Proof. intros H. unfold bind. by rewrite H. Qed.

(** ** Binary64: [2 ** attempt] as a double *)

Lemma pow2_double_table : forallb pow2_double_ok (seq 0 1024) = true.
Proof. vm_compute. reflexivity. Qed.

Lemma float_of_pow2 (i : Z) :
  0 <= i <= 1023 ->
  float_of_int (2 ^ i) = Some (S754_finite false (Z.to_pos (2 ^ 52)) (i - 52)).
Proof.
  intros Hi.
  pose proof pow2_double_table as T.
  rewrite forallb_forall in T.
  specialize (T (Z.to_nat i)).
  assert (Hin : In (Z.to_nat i) (seq 0 1024)) by (apply in_seq; lia).
  specialize (T Hin). unfold pow2_double_ok in T.
  rewrite Z2Nat.id in T by lia.
  destruct (float_of_int (2 ^ i)) as [[| | |[] m e]|]; try discriminate.
  apply andb_true_iff in T as [Hm He].
  apply Z.eqb_eq in Hm, He. subst e.
  f_equal. f_equal. rewrite <- Hm. reflexivity.
Qed.

Lemma sleep_for_defined (attempt : Z) (jitter : spec_float) :
  0 <= attempt <= 1023 -> sleep_for attempt jitter <> None.
Proof.
  intros H. unfold sleep_for, backoff_base. rewrite Z.mul_1_l.
  rewrite float_of_pow2 by assumption. discriminate.
Qed.

(** ** [retryable_update] against the retry policy *)

Section RetryFacts.
Context {World : Type}.
Variable random_random : World -> spec_float * World.
Variable svc : service World.
Variables (file_id : string) (body : dict) (fields : string).

Lemma attempts_run (left : nat) : forall (attempt : Z) (st : state World),
  exists evs,
    trace (snd (attempts random_random svc file_id body fields left attempt st))
      = trace st ++ evs /\
    retry_run file_id body fields left attempt evs
      (fst (attempts random_random svc file_id body fields left attempt st)).
Proof.
  induction left as [|left IH]; intros attempt st.
  - exists []. cbn. rewrite app_nil_r. split; [reflexivity | constructor].
  - cbn [attempts]. unfold bind, call, emit, ret, raise. cbn.
    destruct (files_update svc file_id body fields (world st)) as [out w] eqn:Hu.
    destruct out as [resp | [status | what]]; cbn.
    + eexists. split; [reflexivity | constructor].
    + destruct (transient status) eqn:Ht; cbn.
      * destruct (random_random w) as [jitter w'] eqn:Hr. cbn.
        destruct (sleep_for attempt jitter) as [seconds|] eqn:Hs; cbn.
        -- match goal with |- context [attempts _ _ _ _ _ left (attempt + 1) ?s] =>
             destruct (IH (attempt + 1) s) as (evs & Htr & Hrun) end.
           cbn in Htr.
           eexists. split.
           ++ rewrite Htr. rewrite <- !app_assoc. cbn. reflexivity.
           ++ by eapply retry_again.
        -- eexists. split; [rewrite <- app_assoc; reflexivity |].
           by apply retry_overflow.
      * eexists. split; [reflexivity | by apply retry_fatal].
    + eexists. split; [reflexivity | by apply retry_fatal].
Qed.

End RetryFacts.

(** What follows from a [retry_run], by induction on it. *)

Lemma update_answers_cons ev evs :
  update_answers (ev :: evs) =
  match update_answer_of ev with
  | Some a => a :: update_answers evs
  | None => update_answers evs
  end.
Proof. reflexivity. Qed.

Section RetryRun.
Variables (file_id : string) (body : dict) (fields : string).





(** With transient failures only, the trace is [left] rounds of a failed
    update, a draw and a sleep. *)
Lemma retry_run_all_transient left attempt evs r :
  retry_run file_id body fields left attempt evs r ->
  0 <= attempt -> attempt + Z.of_nat left <= 1024 ->
  Forall (fun a => transient_answer a = true) (update_answers evs) ->
  r = Raise RETRIES_EXHAUSTED /\
  exhausted_rounds file_id body fields attempt left evs.
Proof.
  induction 1 as [| |left attempt e He| left attempt status jitter seconds evs r Ht Hs Hrun IH
                  | left attempt status jitter Ht Hs];
    intros H0 H1 Hall.
  - split; [done | constructor].
  - cbn in Hall. inversion Hall as [|? ? Hbad]. discriminate.
  - cbn in Hall. inversion Hall as [|? ? Hbad]. congruence.
  - cbn in Hall. inversion Hall as [|? ? _ Hall']. subst.
    destruct (IH ltac:(lia) ltac:(lia) Hall') as [-> Hrounds].
    split; [done|]. by econstructor.
  - exfalso. revert Hs. apply sleep_for_defined. lia.
Qed.

Lemma exhausted_rounds_counts attempt left evs :
  exhausted_rounds file_id body fields attempt left evs ->
  length (update_answers evs) = left /\ length (sleeps evs) = left /\
  (left <> O -> exists pre seconds, evs = pre ++ [EvSleep seconds]).
Proof.
  unfold update_answers, sleeps.
  induction 1 as [|attempt left status jitter seconds evs Ht Hs Hr IH].
  - done.
  - destruct IH as (Ha & Hsl & Hlast). cbn in *. repeat split; [lia | lia |].
    intros _. destruct left as [|left].
    + inversion Hr; subst. by exists [EvUpdate file_id body fields attempt
        (Fails (SvcHttpError status)); EvRandom jitter], seconds.
    + destruct Hlast as (pre & s & ->); [done|].
      by exists (EvUpdate file_id body fields attempt (Fails (SvcHttpError status))
                 :: EvRandom jitter :: EvSleep seconds :: pre), s.
Qed.

End RetryRun.

Lemma sleeps_cons ev evs :
  sleeps (ev :: evs) =
  match sleep_of ev with Some s => s :: sleeps evs | None => sleeps evs end.
Proof. reflexivity. Qed.

Lemma draws_cons ev evs :
  draws (ev :: evs) =
  match draw_of ev with Some j => j :: draws evs | None => draws evs end.
Proof. reflexivity. Qed.

(** The [i]-th sleep of a run follows the [i]-th update, which failed with a
    transient status, and is computed from the [i]-th draw. *)
Lemma retry_run_sleep file_id body fields left attempt evs r :
  retry_run file_id body fields left attempt evs r ->
  forall (i : nat) (seconds : spec_float),
    sleeps evs !! i = Some seconds ->
    exists status jitter,
      update_answers evs !! i = Some (Fails (SvcHttpError status)) /\
      transient status = true /\
      draws evs !! i = Some jitter /\
      sleep_for (attempt + Z.of_nat i) jitter = Some seconds.
Proof.
  induction 1 as [| | | left attempt status jitter seconds0 evs r Ht Hs Hrun IH |];
    intros i seconds Hi; try (cbn in Hi; discriminate).
  rewrite !update_answers_cons, !draws_cons. rewrite !sleeps_cons in Hi.
  cbn [update_answer_of draw_of sleep_of] in *.
  destruct i as [|i]; cbn [lookup list_lookup] in *.
  - inversion Hi; subst. exists status, jitter. rewrite Z.add_0_r. done.
  - destruct (IH i seconds Hi) as (st' & j' & Ha & Ht' & Hd & Hsl).
    exists st', j'. repeat split; try done.
    rewrite <- Hsl. f_equal. lia.
Qed.
Lemma iter_pos_nat {A} (f : A -> A) (p : positive) (x : A) :
  SpecFloat.iter_pos f p x = Nat.iter (Pos.to_nat p) f x.
Proof.
  revert x. induction p as [p IH|p IH|]; intros x; cbn [SpecFloat.iter_pos].
  - rewrite !IH. rewrite Pos2Nat.inj_xI.
    replace (S (2 * Pos.to_nat p)) with (Pos.to_nat p + Pos.to_nat p + 1)%nat by lia.
    rewrite !Nat.iter_add. reflexivity.
  - rewrite !IH. rewrite Pos2Nat.inj_xO.
    replace (2 * Pos.to_nat p)%nat with (Pos.to_nat p + Pos.to_nat p)%nat by lia.
    rewrite Nat.iter_add. reflexivity.
  - reflexivity.
Qed.

Lemma digits2_size (p : positive) : digits2_pos p = Pos.size p.
Proof. induction p; cbn; congruence. Qed.

(** After [n] halvings the record holds the quotient, the last bit shifted
    out and whether anything below it was set. *)
Lemma shr_1_iter (m : Z) (n : nat) :
  0 <= m ->
  Nat.iter n shr_1 {| shr_m := m; shr_r := false; shr_s := false |} =
  {| shr_m := m / 2 ^ Z.of_nat n;
     shr_r := match n with O => false | S k => Z.testbit m (Z.of_nat k) end;
     shr_s := match n with O => false | S k => negb (m mod 2 ^ Z.of_nat k =? 0) end |}.
Proof.
  intros Hm. induction n as [|n IH].
  - cbn. by rewrite Z.div_1_r.
  - rewrite Nat.iter_succ, IH. clear IH.
    assert (Hq : 0 <= m / 2 ^ Z.of_nat n) by (apply Z.div_pos; lia).
    assert (Hdiv : m / 2 ^ Z.of_nat (S n) = m / 2 ^ Z.of_nat n / 2).
    { rewrite Nat2Z.inj_succ, Z.pow_succ_r by lia.
      rewrite Z.mul_comm. rewrite Z.div_div by lia. reflexivity. }
    assert (Hbit : Z.testbit m (Z.of_nat n) = Z.odd (m / 2 ^ Z.of_nat n)).
    { rewrite Z.testbit_odd, Z.shiftr_div_pow2 by lia. reflexivity. }
    assert (Hst : (match n with O => false | S k => Z.testbit m (Z.of_nat k) end
                   || match n with O => false | S k => negb (m mod 2 ^ Z.of_nat k =? 0) end)%bool
                  = negb (m mod 2 ^ Z.of_nat n =? 0)).
    { destruct n as [|k]; [by rewrite Z.mod_1_r|].
      rewrite Nat2Z.inj_succ, Z.pow_succ_r by lia.
      rewrite Z.testbit_odd, Z.shiftr_div_pow2 by lia.
      set (P := 2 ^ Z.of_nat k). assert (0 < P) by (apply Z.pow_pos_nonneg; lia).
      rewrite (Z.mul_comm 2 P). rewrite Z.rem_mul_r by lia.
      pose proof (Z.mod_pos_bound m P ltac:(lia)).
      pose proof (Z.mod_pos_bound (m / P) 2 ltac:(lia)).
      rewrite <- (Z.negb_even). rewrite Zeven_mod.
      destruct (Z.eqb_spec ((m / P) mod 2) 0) as [E|E];
      destruct (Z.eqb_spec (m mod P) 0) as [E'|E'];
      destruct (Z.eqb_spec (m mod P + P * ((m / P) mod 2)) 0) as [E''|E'']; cbn; try reflexivity; try nia. }
    rewrite Hdiv, Hbit.
    destruct (m / 2 ^ Z.of_nat n) as [|[q|q|]|q] eqn:E; cbn [shr_1]; try lia.
    all: rewrite Hst. all: try reflexivity.
    + replace (Z.pos q~1 / 2) with (Z.pos q); [reflexivity|].
      apply (Z.div_unique _ _ _ 1); lia.
    + replace (Z.pos q~0 / 2) with (Z.pos q); [reflexivity|].
      apply (Z.div_unique _ _ _ 0); lia.
Qed.
Lemma size_bounds (M : positive) :
  2 ^ (Zpos (Pos.size M) - 1) <= Zpos M < 2 ^ Zpos (Pos.size M).
Proof.
  split.
  - pose proof (Pos.size_le M) as H.
    assert (Zpos (2 ^ Pos.size M) <= Zpos M~0) by exact H.
    rewrite Pos2Z.inj_pow in H0.
    replace (Zpos (Pos.size M)) with (Z.succ (Zpos (Pos.size M) - 1)) in H0 by lia.
    rewrite Z.pow_succ_r in H0 by lia. lia.
  - pose proof (Pos.size_gt M) as H.
    assert (Zpos M < Zpos (2 ^ Pos.size M)) by exact H.
    by rewrite Pos2Z.inj_pow in H0.
Qed.

Lemma size_unique (M : positive) (d : Z) :
  2 ^ (d - 1) <= Zpos M < 2 ^ d -> Zpos (Pos.size M) = d.
Proof.
  intros [Hlo Hhi]. pose proof (size_bounds M) as [Slo Shi].
  assert (0 < d).
  { destruct (Z_lt_le_dec 0 d); [done|]. 
    assert (2 ^ d <= 2 ^ 0) by (apply Z.pow_le_mono_r; lia). lia. }
  destruct (Z_lt_le_dec (Zpos (Pos.size M)) d) as [L|L].
  - assert (2 ^ Zpos (Pos.size M) <= 2 ^ (d - 1)) by (apply Z.pow_le_mono_r; lia). lia.
  - destruct (Z_lt_le_dec d (Zpos (Pos.size M))) as [L'|L']; [|lia].
    assert (2 ^ d <= 2 ^ (Zpos (Pos.size M) - 1)) by (apply Z.pow_le_mono_r; lia). lia.
Qed.

Lemma binary_round_aux_shift (M : positive) (e : Z) :
  let d := Zpos (Pos.size M) in
  53 < d -> -1074 <= d + e - 53 ->
  exists m' e',
    binary_round_aux prec emax false (Zpos M) e loc_Exact =
      (if e' <=? 971 then S754_finite false m' e' else S754_infinity false) /\
    let q := Zpos M / 2 ^ (d - 53) in
    let q' := Zpos m' * 2 ^ (e' - (e + (d - 53))) in
    (e' = e + (d - 53) \/ e' = e + (d - 53) + 1 /\ q' = q + 1) /\
    q <= q' <= q + 1 /\ (Z.testbit (Zpos M) (d - 53 - 1) = false -> q' = q).
Proof.
  intros d Hd Hmin.
  pose proof (size_bounds M) as [Mlo Mhi]. fold d in Mlo, Mhi.
  set (s := d - 53). assert (Hs : 0 < s) by (unfold s; lia).
  set (q := Zpos M / 2 ^ s).
  assert (P2s : 0 < 2 ^ s) by (apply Z.pow_pos_nonneg; lia).
  assert (Hq : 2 ^ 52 <= q < 2 ^ 53).
  { unfold q. split.
    - apply Z.div_le_lower_bound; [lia|].
      rewrite <- Z.pow_add_r by lia. replace (s + 52) with (d - 1) by (unfold s; lia). lia.
    - apply Z.div_lt_upper_bound; [lia|].
      rewrite <- Z.pow_add_r by lia. replace (s + 53) with d by (unfold s; lia). lia. }
  unfold binary_round_aux.
  assert (E1 : shr_fexp prec emax (Zpos M) e loc_Exact =
          ({| shr_m := q;
              shr_r := Z.testbit (Zpos M) (s - 1);
              shr_s := negb (Zpos M mod 2 ^ (s - 1) =? 0) |}, e + s)).
  { unfold shr_fexp, fexp, emin, prec, emax. cbn [Zdigits2 shr_record_of_loc].
    rewrite digits2_size. fold d.
    replace (Z.max (d + e - 53) (3 - 1024 - 53) - e) with s by (unfold s; lia).
    unfold shr. destruct s as [|p|p] eqn:Es; try lia.
    rewrite iter_pos_nat, shr_1_iter by lia.
    rewrite positive_nat_Z.
    destruct (Pos.to_nat p) as [|k] eqn:Ek; [lia|].
    replace (Z.of_nat k) with (Z.pos p - 1) by lia. reflexivity. }
  rewrite E1. cbn [shr_m].
  set (l := loc_of_shr_record _).
  set (q' := round_nearest_even q l).
  assert (Hq' : q <= q' <= q + 1 /\ (Z.testbit (Zpos M) (s - 1) = false -> q' = q)).
  { unfold q', l, loc_of_shr_record, round_nearest_even.
    destruct (Z.testbit (Z.pos M) (s - 1)), (negb (Z.pos M mod 2 ^ (s - 1) =? 0));
      try destruct (Z.even q); split; try lia; try discriminate; reflexivity. }
  destruct Hq' as [Hq'1 Hq'2].
  destruct (Z_lt_le_dec q' (2 ^ 53)) as [Hc|Hc].
  - (* no carry *)
    destruct q' as [|pq'|pq'] eqn:Eq'; try lia.
    assert (Hsz : Zpos (Pos.size pq') = 53) by (apply size_unique; lia).
    assert (E2 : shr_fexp prec emax (Zpos pq') (e + s) loc_Exact =
            ({| shr_m := Zpos pq'; shr_r := false; shr_s := false |}, e + s)).
    { unfold shr_fexp, fexp, emin, prec, emax. cbn [Zdigits2 shr_record_of_loc].
      rewrite digits2_size, Hsz.
      replace (Z.max (53 + (e + s) - 53) (3 - 1024 - 53) - (e + s)) with 0 by (unfold s; lia).
      reflexivity. }
    rewrite E2. cbn [shr_m].
    exists pq', (e + s). split; [reflexivity|].
    cbn zeta. rewrite Z.sub_diag, Z.mul_1_r. fold q.
    split; [by left|]. split; [lia|]. exact Hq'2.
  - (* the mantissa rounds up to 2^53 *)
    assert (Eq' : q' = 2 ^ 53) by lia.
    rewrite Eq'.
    assert (E2 : shr_fexp prec emax (2 ^ 53) (e + s) loc_Exact =
            ({| shr_m := 2 ^ 52; shr_r := false; shr_s := false |}, e + s + 1)).
    { unfold shr_fexp, fexp, emin, prec, emax.
      change (Zdigits2 (2 ^ 53)) with 54.
      replace (Z.max (54 + (e + s) - 53) (3 - 1024 - 53) - (e + s)) with 1 by (unfold s; lia).
      reflexivity. }
    rewrite E2. cbn [shr_m]. change (2 ^ 52) with (Zpos (2 ^ 52)).
    cbv iota beta.
    exists (2 ^ 52)%positive, (e + s + 1). split; [reflexivity|].
    cbn zeta. replace (e + s + 1 - (e + s)) with 1 by lia. fold q.
    change (Zpos (2 ^ 52) * 2 ^ 1) with (2 ^ 53). rewrite <- Eq'.
    split; [right; split; [reflexivity|]|].
    + destruct (Z.eq_dec q' q) as [E|E]; [lia | lia].
    + split; [lia|]. exact Hq'2.
Qed.

Lemma iter_xO_pow2 (m d : positive) :
  Zpos (Pos.iter xO m d) = Zpos m * 2 ^ Zpos d.
Proof.
  induction d as [|d IH] using Pos.peano_ind.
  - cbn. lia.
  - rewrite Pos.iter_succ, Pos2Z.inj_xO, IH, Pos2Z.inj_succ, Z.pow_succ_r by lia. lia.
Qed.

(** What [unit_float] says of a nonzero double: it is positive, its exponent
    is at most [-53] and at least [-1074], its mantissa is below [2^-e]. *)
Lemma unit_float_finite (s : bool) (m : positive) (e : Z) :
  unit_float (S754_finite s m e) ->
  s = false /\ -1074 <= e <= -53 /\ Zpos m < 2 ^ (- e).
Proof.
  intros (_ & Hv & Hnn & Hlt).
  cbn in Hv. unfold bounded, canonical_mantissa, fexp, emin, prec, emax in Hv.
  apply andb_true_iff in Hv as [Hc _]. apply Z.eqb_eq in Hc.
  rewrite digits2_size in Hc.
  pose proof (size_bounds m) as [Slo Shi].
  destruct s.
  { exfalso. cbn in Hnn. destruct e as [|p|p]; cbn -[Z.pow] in Hnn;
      unfold Qle in Hnn; cbn -[Z.pow] in Hnn; try lia.
    all: assert (0 < 2 ^ Z.pos p) by (apply Z.pow_pos_nonneg; lia); nia. }
  split; [reflexivity|].
  assert (He : e < 0 /\ Zpos m < 2 ^ (- e)).
  { destruct e as [|p|p].
    - exfalso. cbn in Hlt. unfold Qlt in Hlt. cbn in Hlt. lia.
    - exfalso. cbn -[Z.pow] in Hlt. unfold Qlt in Hlt. cbn -[Z.pow] in Hlt.
      assert (0 < 2 ^ Z.pos p) by (apply Z.pow_pos_nonneg; lia). nia.
    - split; [lia|]. unfold SF2Q in Hlt. unfold Qlt in Hlt. cbn -[Z.pow Pos.pow] in Hlt.
      rewrite Pos2Z.inj_pow in Hlt. change (- Z.neg p) with (Z.pos p). lia. }
  destruct He as [He Hm]. split; [|exact Hm].
  split; [lia|].
  destruct (Z_lt_le_dec (-53) e) as [L|L]; [|lia]. exfalso.
  (* then the mantissa has 53 digits and is at least 2^52 *)
  assert (Z.pos (Pos.size m) = 53) by lia.
  assert (2 ^ (- e) <= 2 ^ 52) by (apply Z.pow_le_mono_r; lia).
  replace (Z.pos (Pos.size m) - 1) with 52 in Slo by lia. lia.
Qed.
Lemma add_pow2 (i : Z) (m : positive) (e : Z) :
  0 <= i <= 1023 -> -1074 <= e <= -53 -> Zpos m < 2 ^ (- e) ->
  exists m' e',
    SFadd prec emax (S754_finite false (Z.to_pos (2 ^ 52)) (i - 52))
      (S754_finite false m e) = S754_finite false m' e' /\
    i - 52 <= e' /\
    let q' := Zpos m' * 2 ^ (e' - (i - 52)) in
    2 ^ 52 <= q' /\ (i <= 52 -> q' <= 2 ^ 52 + 2 ^ (52 - i)) /\ (52 < i -> q' = 2 ^ 52).
Proof.
  intros Hi He Hm.
  set (s := i - 52 - e). assert (Hs : 0 < s) by (unfold s; lia).
  assert (P2s : 0 < 2 ^ s) by (apply Z.pow_pos_nonneg; lia).
  assert (P2e : 0 < 2 ^ (- e)) by (apply Z.pow_pos_nonneg; lia).
  (* the exact sum, on the exponent of the jitter *)
  set (M := (Z.to_pos (2 ^ 52 * 2 ^ s) + m)%positive).
  assert (HM : Zpos M = 2 ^ (i - e) + Zpos m).
  { unfold M. rewrite Pos2Z.inj_add, Z2Pos.id by lia.
    rewrite <- Z.pow_add_r by lia. do 2 f_equal. unfold s. lia. }
  assert (Hsz : Zpos (Pos.size M) = i - e + 1).
  { apply size_unique. rewrite HM. replace (i - e + 1 - 1) with (i - e) by lia.
    split; [lia|]. replace (i - e + 1) with (Z.succ (i - e)) by lia.
    rewrite Z.pow_succ_r by lia.
    assert (2 ^ (- e) <= 2 ^ (i - e)) by (apply Z.pow_le_mono_r; lia). lia. }
  assert (E : SFadd prec emax (S754_finite false (Z.to_pos (2 ^ 52)) (i - 52))
                (S754_finite false m e)
              = binary_round_aux prec emax false (Zpos M) e loc_Exact).
  { unfold SFadd. rewrite Z.min_r by lia.
    assert (A1 : shl_align (Z.to_pos (2 ^ 52)) (i - 52) e
                 = (Z.to_pos (2 ^ 52 * 2 ^ s), e)).
    { unfold shl_align. destruct (e - (i - 52)) as [|p|p] eqn:Ed; try lia.
      f_equal. apply Pos2Z.inj. rewrite iter_xO_pow2, Z2Pos.id by lia.
      rewrite Z2Pos.id by lia. do 2 f_equal. unfold s. lia. }
    assert (A2 : shl_align m e e = (m, e)).
    { unfold shl_align. by rewrite Z.sub_diag. }
    rewrite A1, A2. cbn [fst cond_Zopp].
    change (Z.pos (Z.to_pos (2 ^ 52 * 2 ^ s)) + Z.pos m) with (Zpos M).
    unfold binary_normalize, binary_round.
    rewrite digits2_size, Hsz.
    unfold fexp, emin, prec, emax.
    replace (Z.max (i - e + 1 + e - 53) (3 - 1024 - 53)) with (i - 52) by lia.
    unfold shl_align. destruct (i - 52 - e) as [|p|p] eqn:Ed; try lia. reflexivity. }
  (* the bit just below the kept ones is clear once [2^i] has no half *)
  assert (Hbit : 52 < i -> Z.testbit (Zpos M) (s - 1) = false).
  { intros Hbig. apply Z.testbit_false; [lia|].
    assert (0 < 2 ^ (s - 1)) by (apply Z.pow_pos_nonneg; lia).
    rewrite HM. rewrite Z.add_comm.
    replace (i - e) with (s - 1 + (i - e - (s - 1))) by lia.
    rewrite Z.pow_add_r by (unfold s; lia).
    rewrite (Z.mul_comm (2 ^ (s - 1))).
    rewrite Z.div_add by lia.
    assert (2 ^ (- e) <= 2 ^ (s - 1)) by (apply Z.pow_le_mono_r; unfold s; lia).
    rewrite (Z.div_small (Zpos m)) by lia.
    replace (i - e - (s - 1)) with (Z.succ (i - e - (s - 1) - 1)) by lia.
    rewrite Z.pow_succ_r by (unfold s; lia).
    rewrite Z.add_0_l, (Z.mul_comm 2), Z.mod_mul by lia.
    reflexivity. }
  destruct (binary_round_aux_shift M e) as (m' & e' & Er & Hcase & Hq & Hexact).
  - rewrite Hsz. lia.
  - rewrite Hsz. lia.
  - rewrite Hsz in *.
    replace (i - e + 1 - 53) with s in * by (unfold s; lia).
    replace (e + s) with (i - 52) in * by (unfold s; lia).
    cbn zeta in *.
    assert (He' : i - 52 <= e') by lia.
    assert (Hfit : e' <= 971).
    { destruct Hcase as [->|[-> Hc]]; [lia|].
      destruct (Z_lt_le_dec 52 i) as [L|L]; [|lia].
      rewrite Hexact in Hc by auto. lia. }
    apply Z.leb_le in Hfit. rewrite Hfit in Er.
    exists m', e'. split; [by rewrite E|]. split; [exact He'|].
    set (q' := Zpos m' * 2 ^ (e' - (i - 52))) in *.
    assert (Hlow : 2 ^ 52 <= Zpos M / 2 ^ s).
    { apply Z.div_le_lower_bound; [lia|]. rewrite HM.
      rewrite <- Z.pow_add_r by lia. replace (s + 52) with (i - e) by (unfold s; lia). lia. }
    split; [lia|]. split.
    + intros Hsmall.
      assert (Zpos M / 2 ^ s < 2 ^ 52 + 2 ^ (52 - i)); [|lia].
      apply Z.div_lt_upper_bound; [lia|]. rewrite HM.
      rewrite Z.mul_add_distr_l, <- !Z.pow_add_r by lia.
      replace (s + 52) with (i - e) by (unfold s; lia).
      replace (s + (52 - i)) with (- e) by (unfold s; lia). lia.
    + intros Hbig. rewrite Hexact by auto.
      apply Z.le_antisymm; [|exact Hlow].
      assert (Zpos M / 2 ^ s < 2 ^ 52 + 1); [|lia].
      apply Z.div_lt_upper_bound; [lia|]. rewrite HM.
      rewrite Z.mul_add_distr_l, <- !Z.pow_add_r by lia.
      replace (s + 52) with (i - e) by (unfold s; lia).
      assert (2 ^ (- e) <= 2 ^ s) by (apply Z.pow_le_mono_r; unfold s; lia). lia.
Qed.
Lemma SF2Q_bounds (i : Z) (m' : positive) (e' : Z) :
  0 <= i -> i - 52 <= e' ->
  2 ^ 52 <= Zpos m' * 2 ^ (e' - (i - 52)) ->
  (i <= 52 -> Zpos m' * 2 ^ (e' - (i - 52)) <= 2 ^ 52 + 2 ^ (52 - i)) ->
  (52 < i -> Zpos m' * 2 ^ (e' - (i - 52)) = 2 ^ 52) ->
  (inject_Z (2 ^ i) <= SF2Q (S754_finite false m' e'))%Q /\
  (SF2Q (S754_finite false m' e') <= inject_Z (2 ^ i + 1))%Q.
Proof.
  intros Hi He Hlo Hhi Hex.
  assert (P2i : 0 < 2 ^ i) by (apply Z.pow_pos_nonneg; lia).
  destruct (Z_lt_le_dec 52 i) as [Hbig|Hsmall].
  - (* the sum is [2^i] itself *)
    specialize (Hex Hbig).
    assert (Hv : Zpos m' * 2 ^ e' = 2 ^ i).
    { replace e' with ((e' - (i - 52)) + (i - 52)) at 1 by lia.
      rewrite Z.pow_add_r, Z.mul_assoc, Hex by lia.
      rewrite <- Z.pow_add_r by lia. f_equal. lia. }
    destruct e' as [|p|p]; try lia.
    cbn -[Z.pow]. rewrite Hv. rewrite <- !Zle_Qle. lia.
  - specialize (Hhi Hsmall).
    assert (P2k : 0 < 2 ^ (52 - i)) by (apply Z.pow_pos_nonneg; lia).
    assert (H52 : 2 ^ 52 = 2 ^ i * 2 ^ (52 - i)).
    { rewrite <- Z.pow_add_r by lia. f_equal. lia. }
    destruct e' as [|p|p].
    + cbn -[Z.pow]. rewrite <- !Zle_Qle.
      replace (0 - (i - 52)) with (52 - i) in * by lia.
      rewrite Z.pow_0_r, Z.mul_1_r. split; nia.
    + cbn -[Z.pow]. rewrite <- !Zle_Qle.
      replace (Z.pos p - (i - 52)) with (Z.pos p + (52 - i)) in * by lia.
      rewrite Z.pow_add_r, Z.mul_assoc in Hlo, Hhi by lia.
      split; nia.
    + unfold SF2Q. cbn [cond_Zopp]. unfold Qle. cbn -[Z.pow Pos.pow].
      rewrite Pos2Z.inj_pow.
      assert (P2p : 0 < 2 ^ Z.pos p) by (apply Z.pow_pos_nonneg; lia).
      set (k := Z.neg p - (i - 52)) in *.
      assert (Hk : 0 <= k) by (unfold k; lia).
      assert (P2kk : 0 < 2 ^ k) by (apply Z.pow_pos_nonneg; lia).
      assert (H52' : 2 ^ (52 - i) = 2 ^ Z.pos p * 2 ^ k).
      { rewrite <- Z.pow_add_r by lia. f_equal. unfold k. lia. }
      change (Z.pos 2) with 2.
      split; nia.
Qed.

Lemma sleep_for_bounds (attempt : Z) (jitter : spec_float) :
  0 <= attempt <= 1023 -> unit_float jitter ->
  exists seconds,
    sleep_for attempt jitter = Some seconds /\
    is_finite_SF seconds = true /\
    (inject_Z (backoff_base * 2 ^ attempt) <= SF2Q seconds)%Q /\
    (SF2Q seconds <= inject_Z (backoff_base * 2 ^ attempt + 1))%Q.
Proof.
  intros Hi Hj. unfold sleep_for, backoff_base. rewrite Z.mul_1_l.
  rewrite float_of_pow2 by assumption.
  assert (P2i : 0 < 2 ^ attempt) by (apply Z.pow_pos_nonneg; lia).
  destruct jitter as [s| | |s m e].
  - (* the draw is zero *)
    eexists. split; [reflexivity|]. split; [reflexivity|].
    apply SF2Q_bounds; try lia.
    all: replace (attempt - 52 - (attempt - 52)) with 0 by lia.
    all: change (Z.pos (Z.to_pos (2 ^ 52)) * 2 ^ 0) with (2 ^ 52); try lia.
  - by destruct Hj as (F & _).
  - by destruct Hj as (F & _).
  - destruct (unit_float_finite _ _ _ Hj) as (-> & He & Hm).
    destruct (add_pow2 attempt m e Hi He Hm) as (m' & e' & E & He' & Hlo & Hhi & Hex).
    exists (S754_finite false m' e'). split; [by rewrite E|]. split; [reflexivity|].
    apply SF2Q_bounds; [lia | exact He' | exact Hlo | exact Hhi | exact Hex].
Qed.
(** [2 ** attempt] no longer converts to a double from [attempt = 1024] on. *)
Lemma float_of_pow2_overflow (i : Z) : 1024 <= i -> float_of_int (2 ^ i) = None.
Proof.
  intros Hi. unfold float_of_int.
  assert (P2 : 0 < 2 ^ i) by (apply Z.pow_pos_nonneg; lia).
  destruct (2 ^ i) as [|P|P] eqn:EP; try lia.
  assert (Hsz : Zpos (Pos.size P) = i + 1).
  { apply size_unique. rewrite <- EP. replace (i + 1 - 1) with i by lia.
    split; [lia|]. apply Z.pow_lt_mono_r; lia. }
  unfold binary_normalize, binary_round.
  rewrite digits2_size, Hsz.
  unfold fexp, emin. unfold prec at 1 2, emax at 1.
  replace (Z.max (i + 1 + 0 - 53) (3 - 1024 - 53)) with (i - 52) by lia.
  unfold shl_align. destruct (i - 52 - 0) as [|p|p] eqn:Ed; try lia.
  destruct (binary_round_aux_shift P 0) as (m' & e' & Er & Hcase & _).
  - rewrite Hsz. lia.
  - rewrite Hsz. lia.
  - rewrite Er. rewrite Hsz in Hcase.
    destruct (Z.leb_spec e' 971) as [L|L]; [lia|]. reflexivity.
Qed.

Lemma sleep_for_range (attempt : Z) (jitter seconds : spec_float) :
  0 <= attempt -> sleep_for attempt jitter = Some seconds -> attempt <= 1023.
Proof.
  intros H0 Hs. destruct (Z_lt_le_dec attempt 1024) as [L|L]; [lia|].
  unfold sleep_for, backoff_base in Hs. rewrite Z.mul_1_l in Hs.
  by rewrite float_of_pow2_overflow in Hs.
Qed.




(** C5, as amended.  In a call of the mutator, the [i]-th sleep (counting
    from 0) follows the [i]-th update call, which failed with a transient
    status, and lasts [backoff_base * (2 ** i) + jitter] seconds as a double,
    where [jitter] is the [i]-th draw of [random.random()]; for a draw in
    [[0, 1)] this duration lies in the closed interval from [2^i] to
    [2^i + 1]. *)
Theorem backoff_delay {World : Type} (random_random : World -> spec_float * World)
    (svc : service World) (file_id : string) (body : dict) (fields : string)
    (max_retries : Z) (st : state World) :
  let out := retryable_update random_random svc file_id body fields false
               max_retries st in
  backoff_base = 1 /\
  exists evs,
    trace (snd out) = trace st ++ evs /\
    forall (i : nat) (seconds : spec_float),
      sleeps evs !! i = Some seconds ->
      exists status jitter,
        update_answers evs !! i = Some (Fails (SvcHttpError status)) /\
        transient status = true /\
        draws evs !! i = Some jitter /\
        sleep_for (Z.of_nat i) jitter = Some seconds /\
        (unit_float jitter ->
         is_finite_SF seconds = true /\
         (inject_Z (backoff_base * 2 ^ Z.of_nat i) <= SF2Q seconds)%Q /\
         (SF2Q seconds <= inject_Z (backoff_base * 2 ^ Z.of_nat i + 1))%Q).
Proof.
  intros out. split; [reflexivity|]. subst out. unfold retryable_update.
  destruct (attempts_run random_random svc file_id body fields
              (Z.to_nat max_retries) 0 st) as (evs & Htr & Hrun).
  exists evs. split; [exact Htr|].
  intros i seconds Hi.
  destruct (retry_run_sleep _ _ _ _ _ _ _ Hrun i seconds Hi)
    as (status & jitter & Ha & Ht & Hd & Hs).
  rewrite Z.add_0_l in Hs.
  exists status, jitter.
  split; [exact Ha|]. split; [exact Ht|]. split; [exact Hd|]. split; [exact Hs|].
  intros Hj.
  pose proof (sleep_for_range (Z.of_nat i) jitter seconds ltac:(lia) Hs) as Hle.
  destruct (sleep_for_bounds (Z.of_nat i) jitter ltac:(lia) Hj)
    as (s' & Hs' & Hfin & Hlo & Hhi).
  rewrite Hs in Hs'. inversion Hs'; subst s'. done.
Qed.

(** C5 as stated fails: the update fails once with status 429 and the draw is
    [0.9999999999999999]; the sleep of attempt 0 is [1 + 0.9999999999999999],
    which is the double [2.0], not below [2^0 + 1]. *)
Lemma backoff_delay_reaches_two :
  let out := retryable_update Scripted.random Scripted.svc "f" (body_of "t") FIELDS
               false DEFAULT_RETRIES
               (start (Scripted.answering [Scripted.http 429] [Scripted.below_one])) in
  unit_float Scripted.below_one /\
  draws (trace (snd out)) = [Scripted.below_one] /\
  exists seconds,
    sleeps (trace (snd out)) = [seconds] /\
    ~ (SF2Q seconds < inject_Z (backoff_base * 2 ^ 0 + 1))%Q.
Proof.
  cbn zeta. split; [|split].
  - unfold unit_float. repeat split; vm_compute; congruence.
  - vm_compute. reflexivity.
  - eexists. split; [vm_compute; reflexivity|]. vm_compute. congruence.
Qed.

(** C10.  With [max_retries] between 0 and 1024 (the program passes 5): when
    every update call of a run fails with a transient status, the trace is
    [max_retries] rounds of a failed update, a draw and a sleep, so there are
    exactly [max_retries] sleeps, the last event is a sleep, and the call
    ends by raising [RuntimeError]. *)
Theorem exhaustion_sleeps_every_time {World : Type}
    (random_random : World -> spec_float * World)
    (svc : service World) (file_id : string) (body : dict) (fields : string)
    (max_retries : Z) (st : state World) (evs : list event) :
  0 <= max_retries <= 1024 ->
  trace (snd (retryable_update random_random svc file_id body fields false
                max_retries st)) = trace st ++ evs ->
  Forall (fun a => transient_answer a = true) (update_answers evs) ->
  fst (retryable_update random_random svc file_id body fields false
         max_retries st) = Raise RETRIES_EXHAUSTED /\
  exhausted_rounds file_id body fields 0 (Z.to_nat max_retries) evs /\
  Z.of_nat (length (update_answers evs)) = max_retries /\
  Z.of_nat (length (sleeps evs)) = max_retries /\
  (0 < max_retries -> exists pre seconds, evs = pre ++ [EvSleep seconds]).
Proof.
  intros Hmax Htr Hall. unfold retryable_update in *.
  destruct (attempts_run random_random svc file_id body fields
              (Z.to_nat max_retries) 0 st) as (evs' & Htr' & Hrun).
  rewrite Htr in Htr'. apply app_inv_head in Htr'. subst evs'.
  destruct (retry_run_all_transient _ _ _ _ _ _ _ Hrun ltac:(lia) ltac:(lia) Hall)
    as [Hr Hrounds].
  destruct (exhausted_rounds_counts _ _ _ _ _ _ Hrounds) as (Ha & Hs & Hlast).
  split; [exact Hr|]. split; [exact Hrounds|].
  split; [lia|]. split; [lia|].
  intros Hpos. apply Hlast. lia.
Qed.

Lemma exhaustion_sleeps_every_time_witness :
  fst (retryable_update Scripted.random Scripted.svc "f" (body_of "t") FIELDS false 3
         (start (Scripted.answering
                   [Scripted.http 429; Scripted.http 503; Scripted.http 500] [])))
    = Raise RETRIES_EXHAUSTED /\
  Z.of_nat (length (sleeps
    [EvUpdate "f" (body_of "t") FIELDS 0 (Scripted.http 429);
     EvRandom (S754_zero false); EvSleep (S754_finite false 4503599627370496 (-52));
     EvUpdate "f" (body_of "t") FIELDS 1 (Scripted.http 503);
     EvRandom (S754_zero false); EvSleep (S754_finite false 4503599627370496 (-51));
     EvUpdate "f" (body_of "t") FIELDS 2 (Scripted.http 500);
     EvRandom (S754_zero false); EvSleep (S754_finite false 4503599627370496 (-50))]))
    = 3.
Proof.
  pose proof (exhaustion_sleeps_every_time Scripted.random Scripted.svc
                "f" (body_of "t") FIELDS 3
                (start (Scripted.answering
                          [Scripted.http 429; Scripted.http 503; Scripted.http 500] []))
                _ ltac:(lia) eq_refl) as H.
  destruct H as (Hr & _ & _ & Hs & _).
  - repeat constructor.
  - split; [exact Hr | exact Hs].
Defined.

(** ** [list_children] *)

Lemma list_children_loop_paging {World : Type} (svc : service World)
    (parent_id : string) (fuel : nat) :
  forall (children : list dict) (page_token : option string) (st : state World),
  exists evs,
    trace (snd (list_children_loop svc parent_id fuel children page_token st))
      = trace st ++ evs /\
    paging parent_id fuel page_token children evs
      (fst (list_children_loop svc parent_id fuel children page_token st)).
Proof.
  induction fuel as [|fuel IH]; intros children page_token st.
  - exists []. cbn. rewrite app_nil_r. split; [reflexivity | constructor].
  - cbn [list_children_loop]. unfold bind, call, emit, ret, raise. cbn.
    destruct (files_list svc parent_id page_token (world st)) as [out w] eqn:Hl.
    destruct out as [response | e]; cbn.
    + destruct (truthy (nextPageToken response)) eqn:Ht.
      * match goal with |- context [list_children_loop _ _ fuel ?c ?t ?s] =>
          destruct (IH c t s) as (evs & Htr & Hp) end.
        cbn in Htr. eexists. split.
        -- rewrite Htr, <- app_assoc. reflexivity.
        -- by apply paging_next.
      * eexists. split; [reflexivity | by apply paging_last].
    + eexists. split; [reflexivity | apply paging_failed].
Qed.





(** ** Events of the mutator and of the lister *)

Lemma not_list_events (evs : list event) :
  Forall (fun ev => is_list_event ev = false) evs ->
  list_calls evs = [] /\ expansions evs = [] /\ pages evs = [].
Proof.
  induction 1 as [|ev evs Hev _ IH]; [done|].
  destruct IH as (H1 & H2 & H3).
  unfold list_calls, expansions, pages in *.
  destruct ev; try discriminate; cbn; by rewrite ?H1, ?H2, ?H3.
Qed.

Lemma list_events (evs : list event) :
  Forall (fun ev => is_list_event ev = true) evs ->
  mutations evs = [] /\ network_updates evs = [] /\ sleeps evs = [] /\
  draws evs = [] /\ update_answers evs = [].
Proof.
  induction 1 as [|ev evs Hev _ IH]; [done|].
  destruct IH as (H1 & H2 & H3 & H4 & H5).
  unfold mutations, network_updates, sleeps, draws, update_answers in *.
  destruct ev; try discriminate; cbn; by rewrite ?H1, ?H2, ?H3, ?H4, ?H5.
Qed.

Lemma retry_run_not_list file_id body fields left attempt evs r :
  retry_run file_id body fields left attempt evs r ->
  Forall (fun ev => is_list_event ev = false) evs.
Proof. induction 1; repeat constructor; assumption. Qed.

Lemma retry_run_ends file_id body fields left attempt evs r :
  retry_run file_id body fields left attempt evs r -> r <> Diverge.
Proof. induction 1; congruence. Qed.

Lemma mutations_cons ev evs :
  mutations (ev :: evs) =
  match mutation_of ev with Some x => x :: mutations evs | None => mutations evs end.
Proof. reflexivity. Qed.

Lemma retry_run_mutations_later file_id body fields left attempt evs r :
  retry_run file_id body fields left attempt evs r ->
  0 < attempt -> mutations evs = [].
Proof.
  induction 1 as [| | | left attempt status jitter seconds evs r Ht Hs Hrun IH |];
    intros Hpos; try reflexivity.
  all: rewrite ?mutations_cons; cbn [mutation_of].
  all: destruct attempt; try lia; try reflexivity.
  apply IH. lia.
Qed.

Lemma retry_run_mutations_first file_id body fields left evs r :
  retry_run file_id body fields (S left) 0 evs r -> mutations evs = [file_id].
Proof.
  inversion 1; subst; try reflexivity.
  rewrite !mutations_cons. cbn [mutation_of]. f_equal.
  eapply retry_run_mutations_later; [eassumption | lia].
Qed.

Lemma paging_list_events parent_id fuel page_token children evs r :
  paging parent_id fuel page_token children evs r ->
  Forall (fun ev => exists t a, ev = EvList parent_id t a) evs.
Proof. induction 1; repeat constructor; eauto. Qed.

Lemma paging_expansions_later parent_id fuel page_token children evs r :
  paging parent_id fuel page_token children evs r ->
  truthy page_token = true -> expansions evs = [].
Proof.
  induction 1 as [| | | fuel page_token children response evs r Ht Hp IH];
    intros Htok; destruct page_token; try discriminate; try reflexivity.
  unfold expansions in *. cbn. by apply IH.
Qed.

Lemma paging_expansions_first parent_id fuel children evs r :
  paging parent_id (S fuel) None children evs r -> expansions evs = [parent_id].
Proof.
  inversion 1; subst; try reflexivity.
  unfold expansions. cbn. f_equal.
  eapply paging_expansions_later; eassumption.
Qed.

(** ** The engine, call by call *)

Section EngineFacts.
Context {World : Type}.
Variable random_random : World -> spec_float * World.
Variable svc : service World.
Variables (new_time : string) (recursive dry_run : bool).

Lemma update_one_events (file_id : string) (st : state World) :
  exists evs,
    trace (snd (update_one random_random svc new_time dry_run file_id st))
      = trace st ++ evs /\
    mutations evs = [file_id] /\
    Forall (fun ev => is_list_event ev = false) evs /\
    fst (update_one random_random svc new_time dry_run file_id st) <> Diverge.
Proof.
  unfold update_one, retryable_update. destruct dry_run.
  - eexists. cbn. split; [reflexivity|]. repeat split; [repeat constructor | discriminate].
  - destruct (attempts_run random_random svc file_id (body_of new_time) FIELDS
                (Z.to_nat DEFAULT_RETRIES) 0 st) as (evs & Htr & Hrun).
    exists evs. split; [exact Htr|].
    split; [eapply retry_run_mutations_first; exact Hrun|].
    split; [eapply retry_run_not_list; exact Hrun|].
    eapply retry_run_ends; exact Hrun.
Qed.

Lemma list_children_events (lfuel : nat) (parent_id : string) (st : state World) :
  exists evs,
    trace (snd (list_children lfuel svc parent_id st)) = trace st ++ evs /\
    Forall (fun ev => exists t a, ev = EvList parent_id t a) evs /\
    expansions evs = match lfuel with O => [] | S _ => [parent_id] end.
Proof.
  unfold list_children.
  destruct (list_children_loop_paging svc parent_id lfuel [] None st)
    as (evs & Htr & Hp).
  exists evs. split; [exact Htr|].
  split; [eapply paging_list_events; exact Hp|].
  destruct lfuel.
  - by inversion Hp.
  - eapply paging_expansions_first; exact Hp.
Qed.

End EngineFacts.

Lemma enqueued_cons recursive (c : dict) (children : list dict) :
  enqueued recursive (c :: children) =
  enqueued recursive [c] ++ enqueued recursive children.
Proof.
  unfold enqueued, child_ids. destruct recursive; [|reflexivity].
  cbn. destruct (is_folder c); [|reflexivity].
  cbn. destruct (c !! "id"); reflexivity.
Qed.

Section WalkFacts.
Context {World : Type}.
Variable random_random : World -> spec_float * World.
Variable svc : service World.
Variables (new_time : string) (recursive dry_run : bool).

Lemma visit_child_events (queue : list string) (c : dict) (st : state World) :
  exists evs,
    trace (snd (visit_child random_random svc new_time recursive dry_run queue c st))
      = trace st ++ evs /\
    Forall (fun ev => is_list_event ev = false) evs /\
    mutations evs = child_ids [c] /\
    fst (visit_child random_random svc new_time recursive dry_run queue c st)
      <> Diverge /\
    forall queue',
      fst (visit_child random_random svc new_time recursive dry_run queue c st)
        = Ok queue' ->
      is_Some (c !! "id") /\ queue' = queue ++ enqueued recursive [c].
Proof.
  unfold visit_child, child_ids, enqueued, is_folder. cbn [omap list_omap List.filter].
  destruct (c !! "id") as [cid|] eqn:Hid.
  2:{ exists []. cbn. rewrite app_nil_r. repeat split; try done. }
  destruct (update_one_events random_random svc new_time dry_run cid st)
    as (evs & Htr & Hmut & Hnl & Hnd).
  exists evs. rewrite ?Hid.
  destruct (String.eqb (default "" (c !! "mimeType")) FOLDER_MIME) eqn:Hmime,
    recursive;
    unfold bind, ret;
    destruct (update_one random_random svc new_time dry_run cid st) as [[resp|e|] st'];
    cbn in *; try congruence.
  all: split; [exact Htr|]; split; [exact Hnl|]; split; [exact Hmut|].
  all: split; [discriminate|]; intros queue' Hq; try discriminate Hq.
  all: inversion Hq; subst; rewrite ?Hid, ?app_nil_r; split; [by eexists | reflexivity].
Qed.

Lemma for_children_events (children : list dict) :
  forall (queue : list string) (st : state World),
  exists evs,
    trace (snd (for_children random_random svc new_time recursive dry_run
                  children queue st)) = trace st ++ evs /\
    Forall (fun ev => is_list_event ev = false) evs /\
    mutations evs `prefix_of` child_ids children /\
    fst (for_children random_random svc new_time recursive dry_run children queue st)
      <> Diverge /\
    forall queue',
      fst (for_children random_random svc new_time recursive dry_run children queue st)
        = Ok queue' ->
      mutations evs = child_ids children /\
      Forall (fun c : dict => is_Some (c !! "id")) children /\
      queue' = queue ++ enqueued recursive children.
Proof.
  induction children as [|c children IH]; intros queue st.
  - exists []. cbn. rewrite app_nil_r.
    split; [done|]. split; [done|]. split; [done|]. split; [done|].
    intros queue' Hq. inversion Hq. split; [done|]. split; [done|].
    unfold enqueued. destruct recursive; cbn; by rewrite app_nil_r.
  - cbn [for_children]. unfold bind.
    destruct (visit_child_events queue c st) as (evs1 & Htr1 & Hnl1 & Hmut1 & Hnd1 & Hok1).
    destruct (visit_child random_random svc new_time recursive dry_run queue c st)
      as [[queue1|e|] st1] eqn:Hv; cbn [fst snd] in *; try congruence.
    + destruct (Hok1 queue1 eq_refl) as [Hid ->].
      destruct (IH (queue ++ enqueued recursive [c]) st1)
        as (evs2 & Htr2 & Hnl2 & Hmut2 & Hnd2 & Hok2).
      exists (evs1 ++ evs2).
      split; [by rewrite Htr2, Htr1, app_assoc|].
      split; [by apply Forall_app|].
      assert (Hcid : child_ids (c :: children) = child_ids [c] ++ child_ids children).
      { unfold child_ids. cbn. by destruct (c !! "id"). }
      unfold mutations in *. rewrite omap_app, Hmut1, Hcid.
      split; [by apply prefix_app|].
      split; [exact Hnd2|].
      intros queue' Hq. destruct (Hok2 queue' Hq) as (Hm & Hids & ->).
      split; [by rewrite Hm|]. split; [by constructor|].
      rewrite (enqueued_cons recursive c children), app_assoc. reflexivity.
    + exists evs1. split; [exact Htr1|]. split; [exact Hnl1|].
      split.
      * rewrite Hmut1. unfold child_ids. cbn.
        destruct (c !! "id"); [|apply prefix_nil].
        apply prefix_cons, prefix_nil.
      * split; [discriminate|]. intros queue' Hq. discriminate.
Qed.

(** A container already visited is dropped: no call, no event. *)
Lemma walk_step_visited (lfuel : nat) (current_folder : string)
    (queue : list string) (visited : gset string) (st : state World) :
  current_folder ∈ visited ->
  walk_step random_random svc new_time recursive dry_run lfuel current_folder
    queue visited st = (Ok (queue, visited), st).
Proof. intros Hin. unfold walk_step. by rewrite decide_True. Qed.

(** A container not yet visited is listed, then its children are gone
    through in the order of the listing. *)
Lemma walk_step_fresh (lfuel : nat) (current_folder : string)
    (queue : list string) (visited : gset string) (st : state World) :
  current_folder ∉ visited ->
  let out := walk_step random_random svc new_time recursive dry_run lfuel
               current_folder queue visited st in
  let listed := list_children lfuel svc current_folder st in
  exists evs1 evs2,
    trace (snd out) = trace st ++ evs1 ++ evs2 /\
    trace (snd listed) = trace st ++ evs1 /\
    Forall (fun ev => exists t a, ev = EvList current_folder t a) evs1 /\
    expansions evs1 = match lfuel with O => [] | S _ => [current_folder] end /\
    Forall (fun ev => is_list_event ev = false) evs2 /\
    match fst listed with
    | Ok children =>
        mutations evs2 `prefix_of` child_ids children /\
        fst out <> Diverge /\
        forall queue' visited',
          fst out = Ok (queue', visited') ->
          visited' = visited ∪ {[ current_folder ]} /\
          mutations evs2 = child_ids children /\
          Forall (fun c : dict => is_Some (c !! "id")) children /\
          queue' = queue ++ enqueued recursive children
    | Raise e => evs2 = [] /\ fst out = Raise e
    | Diverge => evs2 = [] /\ fst out = Diverge
    end.
Proof.
  intros Hfresh out listed. subst out listed. unfold walk_step.
  rewrite decide_False by assumption. unfold bind.
  destruct (list_children_events svc lfuel current_folder st) as (evs1 & Htr1 & Hl1 & Hx1).
  destruct (list_children lfuel svc current_folder st) as [[children|e|] st1] eqn:Hlist;
    cbn [fst snd] in *.
  - destruct children as [|c children].
    + exists evs1, []. unfold ret. cbn [fst snd]. rewrite app_nil_r.
      split; [done|]. split; [done|]. split; [done|]. split; [done|].
      split; [done|]. split; [apply prefix_nil|]. split; [discriminate|].
      intros queue' visited' Hq. inversion Hq; subst.
      split; [done|]. split; [done|]. split; [done|].
      unfold enqueued. destruct recursive; cbn; by rewrite app_nil_r.
    + destruct (for_children_events (c :: children) queue st1)
        as (evs2 & Htr2 & Hnl2 & Hpre2 & Hnd2 & Hok2).
      exists evs1, evs2.
      destruct (for_children random_random svc new_time recursive dry_run
                  (c :: children) queue st1) as [[queue1|e|] st2] eqn:Hfor;
        cbn [fst snd] in *; try congruence.
      * unfold ret. cbn [fst snd].
        split; [by rewrite Htr2, Htr1, app_assoc|].
        split; [done|]. split; [done|]. split; [done|]. split; [done|].
        split; [done|]. split; [discriminate|].
        intros queue' visited' Hq. inversion Hq; subst.
        destruct (Hok2 queue' eq_refl) as (Hm & Hids & Hq').
        done.
      * split; [by rewrite Htr2, Htr1, app_assoc|].
        split; [done|]. split; [done|]. split; [done|]. split; [done|].
        split; [done|]. split; [discriminate|].
        intros queue' visited' Hq. discriminate.
  - exists evs1, []. rewrite app_nil_r. done.
  - exists evs1, []. rewrite app_nil_r. done.
Qed.

End WalkFacts.

(** ** The visited set *)

#[local] Set Warnings "-clear-no-such-hyp".

Lemma expansions_app (a b : list event) :
  expansions (a ++ b) = expansions a ++ expansions b.
Proof. apply omap_app. Qed.

Lemma mutations_app (a b : list event) :
  mutations (a ++ b) = mutations a ++ mutations b.
Proof. apply omap_app. Qed.


Lemma list_events_of parent_id (evs : list event) :
  Forall (fun ev => exists t a, ev = EvList parent_id t a) evs ->
  Forall (fun ev => is_list_event ev = true) evs.
Proof. intros H. eapply Forall_impl; [exact H|]. by intros ev (t & a & ->). Qed.

Section Visited.
Context {World : Type}.
Variable random_random : World -> spec_float * World.
Variable svc : service World.
Variables (new_time : string) (recursive dry_run : bool).

(** Containers opened so far are in the visited set and were opened once:
    one turn of the loop keeps this. *)
Lemma walk_step_expansions (lfuel : nat) (current_folder : string)
    (queue : list string) (visited : gset string) (st : state World) :
  NoDup (expansions (trace st)) ->
  (forall x, x ∈ expansions (trace st) -> x ∈ visited) ->
  let out := walk_step random_random svc new_time recursive dry_run lfuel
               current_folder queue visited st in
  NoDup (expansions (trace (snd out))) /\
  forall queue' visited',
    fst out = Ok (queue', visited') ->
    visited ⊆ visited' /\ current_folder ∈ visited' /\
    forall x, x ∈ expansions (trace (snd out)) -> x ∈ visited'.
Proof.
  intros Hnd Hin out. subst out.
  destruct (decide (current_folder ∈ visited)) as [Hv|Hv].
  - rewrite walk_step_visited by assumption. cbn. split; [exact Hnd|].
    intros queue' visited' Hq. inversion Hq; subst. done.
  - destruct (walk_step_fresh random_random svc new_time recursive dry_run lfuel
                current_folder queue visited st Hv)
      as (evs1 & evs2 & Htr & _ & Hl1 & Hx1 & Hnl2 & Hres).
    destruct (not_list_events evs2 Hnl2) as (_ & Hx2 & _).
    assert (Hexp : expansions (trace (snd (walk_step random_random svc new_time
                      recursive dry_run lfuel current_folder queue visited st)))
                   = expansions (trace st) ++
                     match lfuel with O => [] | S _ => [current_folder] end).
    { rewrite Htr, !expansions_app, Hx1, Hx2, app_nil_r. reflexivity. }
    rewrite Hexp. split.
    + destruct lfuel; [by rewrite app_nil_r|].
      apply NoDup_app. split; [exact Hnd|]. split; [|apply NoDup_singleton].
      intros x Hx Hx'. apply list_elem_of_singleton in Hx'. subst x.
      apply Hv, Hin, Hx.
    + intros queue' visited' Hq.
      destruct (fst (list_children lfuel svc current_folder st)) as [children|e|].
      * destruct Hres as (_ & _ & Hok). destruct (Hok queue' visited' Hq) as (-> & _).
        split; [set_solver|]. split; [set_solver|].
        intros x Hx. apply elem_of_app in Hx as [Hx|Hx]; [apply Hin in Hx; set_solver|].
        destruct lfuel; [by apply elem_of_nil in Hx|].
        apply list_elem_of_singleton in Hx. set_solver.
      * destruct Hres as [_ Hr]. congruence.
      * destruct Hres as [_ Hr]. congruence.
Qed.

Lemma walk_expansions (fuel lfuel : nat) :
  forall (queue : list string) (visited : gset string) (st : state World),
  NoDup (expansions (trace st)) ->
  (forall x, x ∈ expansions (trace st) -> x ∈ visited) ->
  let out := walk random_random svc new_time recursive dry_run fuel lfuel
               queue visited st in
  NoDup (expansions (trace (snd out))) /\
  forall final,
    fst out = Ok final ->
    visited ⊆ final /\ forall x, x ∈ expansions (trace (snd out)) -> x ∈ final.
Proof.
  induction fuel as [|fuel IH]; intros queue visited st Hnd Hin out; subst out.
  - destruct queue as [|current_folder queue]; cbn.
    + split; [exact Hnd|]. intros final Hf. inversion Hf; subst. done.
    + split; [exact Hnd|]. discriminate.
  - destruct queue as [|current_folder queue]; cbn [walk].
    + cbn. split; [exact Hnd|]. intros final Hf. inversion Hf; subst. done.
    + unfold bind.
      destruct (walk_step_expansions lfuel current_folder queue visited st Hnd Hin)
        as (Hnd' & Hok).
      destruct (walk_step random_random svc new_time recursive dry_run lfuel
                  current_folder queue visited st) as [[[queue' visited']|e|] st'];
        cbn [fst snd] in *.
      * destruct (Hok queue' visited' eq_refl) as (Hsub & _ & Hin').
        destruct (IH queue' visited' st' Hnd' Hin') as (Hnd'' & Hfin).
        split; [exact Hnd''|].
        intros final Hf. destruct (Hfin final Hf) as [Hs Hx].
        split; [set_solver | exact Hx].
      * split; [exact Hnd'|]. discriminate.
      * split; [exact Hnd'|]. discriminate.
Qed.

End Visited.

(** C1, as amended.  In every run each container is expanded (listed from its
    first page) at most once; one turn of the loop only adds to the visited
    set and adds the container it pops; a container already in the set is
    dropped without any call; and a turn that expands a container hands each
    listed child to the mutator once, in the order of the listing. *)
Theorem expanded_at_most_once {World : Type}
    (random_random : World -> spec_float * World) (svc : service World)
    (new_time : string) (recursive dry_run : bool) :
  (forall (fuel lfuel : nat) (folder_id : string) (w : World),
     let out := update_folder_and_contents random_random svc new_time recursive
                  dry_run fuel lfuel folder_id (start w) in
     NoDup (expansions (trace (snd out))) /\
     forall final, fst out = Ok final ->
       forall x, x ∈ expansions (trace (snd out)) -> x ∈ final) /\
  (forall (lfuel : nat) (current_folder : string) (queue : list string)
          (visited : gset string) (st : state World),
     let out := walk_step random_random svc new_time recursive dry_run lfuel
                  current_folder queue visited st in
     (current_folder ∈ visited -> out = (Ok (queue, visited), st)) /\
     forall queue' visited',
       fst out = Ok (queue', visited') ->
       visited ⊆ visited' /\ current_folder ∈ visited' /\
       (current_folder ∉ visited ->
        exists children st1,
          list_children lfuel svc current_folder st = (Ok children, st1) /\
          mutations (trace (snd out)) = mutations (trace st) ++ child_ids children)).
Proof.
  split.
  - intros fuel lfuel folder_id w out. subst out.
    unfold update_folder_and_contents, bind.
    destruct (update_one_events random_random svc new_time dry_run folder_id (start w))
      as (evs & Htr & _ & Hnl & _).
    destruct (not_list_events evs Hnl) as (_ & Hx & _).
    destruct (update_one random_random svc new_time dry_run folder_id (start w))
      as [[resp|e|] st1]; cbn [fst snd] in *.
    all: assert (Hx1 : expansions (trace st1) = []) by (by rewrite Htr).
    + destruct (walk_expansions random_random svc new_time recursive dry_run
                  fuel lfuel [folder_id] ∅ st1) as (Hnd & Hfin).
      * rewrite Hx1. constructor.
      * rewrite Hx1. intros x Hin. by apply elem_of_nil in Hin.
      * split; [exact Hnd|]. intros final Hf. by apply Hfin.
    + rewrite Hx1. split; [constructor | discriminate].
    + rewrite Hx1. split; [constructor | discriminate].
  - intros lfuel current_folder queue visited st out. subst out.
    split; [apply walk_step_visited|].
    intros queue' visited' Hq.
    destruct (decide (current_folder ∈ visited)) as [Hv|Hv].
    + rewrite walk_step_visited in Hq by assumption. inversion Hq; subst. done.
    + destruct (walk_step_fresh random_random svc new_time recursive dry_run lfuel
                  current_folder queue visited st Hv)
        as (evs1 & evs2 & Htr & _ & Hl1 & _ & _ & Hres).
      destruct (list_children lfuel svc current_folder st) as [[children|e|] st1] eqn:Hl;
        cbn [fst snd] in Hres.
      * destruct Hres as (_ & _ & Hok). destruct (Hok queue' visited' Hq) as (-> & Hm & _).
        split; [set_solver|]. split; [set_solver|].
        intros _. exists children, st1. split; [reflexivity|].
        rewrite Htr, !mutations_app, Hm.
        destruct (list_events evs1 (list_events_of _ _ Hl1)) as (-> & _).
        reflexivity.
      * destruct Hres as [_ Hr]. congruence.
      * destruct Hres as [_ Hr]. congruence.
Qed.

(** C1 as stated fails: a folder [X] listed under two folders of the root is
    put on the queue twice and expanded once, but handed to the mutator
    twice. *)
Lemma listed_twice_mutated_twice :
  let out := update_folder_and_contents Scripted.random Scripted.svc
               "2025-10-20T09:20:25.000Z" true false 10 10 "R"
               (start (Scripted.drive Scripted.diamond)) in
  expansions (trace (snd out)) = ["R"; "A"; "B"; "X"] /\
  mutations (trace (snd out)) = ["R"; "A"; "B"; "X"; "X"] /\
  ~ NoDup (mutations (trace (snd out))).
Proof.
  cbn zeta.
  assert (Hm : mutations (trace (snd (update_folder_and_contents Scripted.random
                 Scripted.svc "2025-10-20T09:20:25.000Z" true false 10 10 "R"
                 (start (Scripted.drive Scripted.diamond)))))
               = ["R"; "A"; "B"; "X"; "X"]) by (vm_compute; reflexivity).
  split; [vm_compute; reflexivity|]. split; [exact Hm|].
  rewrite Hm. intros Hnd.
  repeat match goal with H : NoDup (_ :: _) |- _ => apply NoDup_cons in H as [? H] end.
  set_solver.
Qed.

(** ** Depths *)

Section Depth.
Context {World : Type}.
Variable random_random : World -> spec_float * World.
Variable svc : service World.
Variables (new_time : string) (recursive dry_run : bool).

Lemma walk_step_unfold (lfuel : nat) (current_folder : string)
    (queue : list string) (visited : gset string) (st : state World) :
  current_folder ∉ visited ->
  walk_step random_random svc new_time recursive dry_run lfuel current_folder
    queue visited st =
  match list_children lfuel svc current_folder st with
  | (Ok children, st1) =>
      match for_children random_random svc new_time recursive dry_run
              children queue st1 with
      | (Ok queue', st2) => (Ok (queue', visited ∪ {[ current_folder ]}), st2)
      | (Raise e, st2) => (Raise e, st2)
      | (Diverge, st2) => (Diverge, st2)
      end
  | (Raise e, st1) => (Raise e, st1)
  | (Diverge, st1) => (Diverge, st1)
  end.
Proof.
  intros Hv. unfold walk_step. rewrite decide_False by assumption.
  unfold bind.
  destruct (list_children lfuel svc current_folder st) as [[children|e|] st1];
    try reflexivity.
  destruct children as [|c children]; [reflexivity|].
  destruct (for_children random_random svc new_time recursive dry_run
              (c :: children) queue st1) as [[queue'|e|] st2]; reflexivity.
Qed.

End Depth.

Lemma at_depth_snd d ids : Forall (fun p : string * nat => snd p = d) (at_depth d ids).
Proof. unfold at_depth. induction ids; constructor; auto. Qed.

Lemma at_depth_fst d ids : map fst (at_depth d ids) = ids.
Proof. unfold at_depth. induction ids; cbn; congruence. Qed.

Lemma tag_snd d evs : Forall (fun q : event * nat => snd q = d) (tag d evs).
Proof. unfold tag. induction evs; constructor; auto. Qed.

Lemma tag_fst d evs : map fst (tag d evs) = evs.
Proof. unfold tag. induction evs; cbn; congruence. Qed.

Lemma tag_app d (a b : list event) : tag d (a ++ b) = tag d a ++ tag d b.
Proof. apply map_app. Qed.

Lemma tag_lookup d (evs : list event) (i : nat) ev (k : nat) :
  tag d evs !! i = Some (ev, k) -> evs !! i = Some ev /\ k = d.
Proof.
  unfold tag. rewrite list_lookup_fmap.
  destruct (evs !! i) as [ev'|]; cbn; [|discriminate].
  intros H. by inversion H.
Qed.

Lemma sorted_snoc_level {A : Type} (l new : list (A * nat)) (d : nat) :
  StronglySorted le (map snd l) ->
  Forall (fun p => (snd p <= d)%nat) l ->
  Forall (fun p => snd p = d) new ->
  StronglySorted le (map snd (l ++ new)).
Proof.
  intros Hs Hle Hd. rewrite map_app. apply StronglySorted_app_2; [|exact Hs|].
  - intros x1 x2 H1 H2.
    apply list_elem_of_fmap in H1 as (p1 & -> & H1).
    apply list_elem_of_fmap in H2 as (p2 & -> & H2).
    rewrite Forall_forall in Hle. specialize (Hle p1 H1).
    rewrite Forall_forall in Hd. rewrite (Hd p2 H2). exact Hle.
  - induction Hd as [|p l' Hp Hd' IH]; cbn; constructor; [exact IH|].
    rewrite Forall_forall. intros y Hy.
    apply list_elem_of_fmap in Hy as (p2 & -> & H2).
    rewrite Forall_forall in Hd'. rewrite Hp, (Hd' p2 H2). lia.
Qed.

(** Popping the head keeps the invariant. *)
Lemma level_inv_tail (c : string) (d : nat) (queue : list (string * nat))
    (log : list (event * nat)) :
  level_inv ((c, d) :: queue) log -> level_inv queue log.
Proof.
  intros (Hq & Hl & Hbq & Hbl). cbn in Hq. inversion Hq as [|? ? Hq' Hhd]; subst.
  split; [exact Hq'|]. split; [exact Hl|].
  destruct queue as [|[c1 d1] queue]; [exact I|].
  cbn in Hhd. inversion Hhd as [|? ? Hd1 _]; subst.
  inversion Hbq as [|? ? _ Hbq']; subst.
  split; (eapply Forall_impl; [eassumption|]); cbn; intros; lia.
Qed.

(** Expanding the head, of depth [d], puts entries of depth [d + 1] at the
    back of the queue and of the log: the invariant is kept. *)
Lemma level_inv_expand (c : string) (d : nat) (queue : list (string * nat))
    (log : list (event * nat)) (more : list (string * nat))
    (new : list (event * nat)) :
  level_inv ((c, d) :: queue) log ->
  Forall (fun p => snd p = S d) more ->
  Forall (fun q => snd q = S d) new ->
  level_inv (queue ++ more) (log ++ new).
Proof.
  intros Hinv Hmore Hnew.
  pose proof (level_inv_tail _ _ _ _ Hinv) as (Hq' & _ & _).
  destruct Hinv as (Hq & Hl & Hbq & Hbl).
  inversion Hbq as [|? ? _ Hbq']; subst.
  split; [by eapply sorted_snoc_level|]. split; [by eapply sorted_snoc_level|].
  assert (Hle : forall (A : Type) (l : list (A * nat)) (b : nat),
            (S d <= b)%nat -> Forall (fun p => snd p = S d) l ->
            Forall (fun p => (snd p <= b)%nat) l).
  { intros A l b Hb Hall. eapply Forall_impl; [exact Hall|]. cbn. intros; lia. }
  destruct queue as [|[c1 d1] queue]; cbn [app].
  - destruct more as [|[a da] more]; [exact I|].
    inversion Hmore as [|? ? Hda Hmore']; subst. cbn in Hda. subst da.
    split.
    + constructor; [cbn; lia|]. apply Hle; [lia | exact Hmore'].
    + apply Forall_app. split; [|apply Hle; [lia | exact Hnew]].
      eapply Forall_impl; [exact Hbl|]. cbn. intros; lia.
  - cbn in Hq. inversion Hq as [|? ? _ Hhd]; subst.
    inversion Hhd as [|? ? Hd1 _]; subst.
    split.
    + constructor; [cbn; lia|]. apply Forall_app.
      split; [|apply Hle; [lia | exact Hmore]].
      inversion Hbq' as [|? ? _ Hbq'']; subst.
      eapply Forall_impl; [exact Hbq''|]. cbn. intros; lia.
    + apply Forall_app. split; [|apply Hle; [lia | exact Hnew]].
      eapply Forall_impl; [exact Hbl|]. cbn. intros; lia.
Qed.

(** The scenario of the specification, without recursion: three calls of
    the mutator, and one listing. *)
Example scenario_not_recursive :
  let out := update_folder_and_contents Scripted.random Scripted.svc
               "2025-10-20T09:20:25.000Z" false false 10 10 "R"
               (start (Scripted.drive Scripted.scenario_tree)) in
  mutations (trace (snd out)) = ["R"; "folderA"; "file1"] /\
  list_calls (trace (snd out)) = [("R", None)].
Proof. vm_compute. repeat split. Qed.


(** Three pages chained by two tokens come back as one list. *)
Example lister_three_pages :
  let out := list_children 10 Scripted.svc "R" (start (Scripted.drive Scripted.paged)) in
  fst out = Ok [Scripted.file "a"; Scripted.file "b"; Scripted.file "c";
                Scripted.file "d"] /\
  list_calls (trace (snd out)) = [("R", None); ("R", Some "t1"); ("R", Some "t2")].
Proof. vm_compute. split; reflexivity. Qed.

(** ** Every event of a run comes from the mutator or from the lister *)

Section AllEvents.
Context {World : Type}.
Variable random_random : World -> spec_float * World.
Variable svc : service World.
Variables (new_time : string) (recursive dry_run : bool).
Variable P : event -> Prop.
Hypothesis P_update : forall (file_id : string) (st : state World),
  exists evs,
    trace (snd (update_one random_random svc new_time dry_run file_id st))
      = trace st ++ evs /\ Forall P evs.
Hypothesis P_list : forall p t a, P (EvList p t a).

Lemma for_children_all (children : list dict) :
  forall (queue : list string) (st : state World),
  exists evs,
    trace (snd (for_children random_random svc new_time recursive dry_run
                  children queue st)) = trace st ++ evs /\ Forall P evs.
Proof.
  induction children as [|c children IH]; intros queue st.
  - exists []. cbn. by rewrite app_nil_r.
  - cbn [for_children]. unfold bind, visit_child.
    destruct (c !! "id") as [cid|].
    2:{ exists []. cbn. by rewrite app_nil_r. }
    destruct (P_update cid st) as (evs1 & Htr1 & HP1).
    destruct (String.eqb (default "" (c !! "mimeType")) FOLDER_MIME), recursive;
      unfold bind, ret;
      destruct (update_one random_random svc new_time dry_run cid st)
        as [[resp|e|] st1]; cbn [fst snd] in *;
      try (exists evs1; by split).
    all: match goal with |- context [for_children _ _ _ _ _ _ ?q ?s] =>
           destruct (IH q s) as (evs2 & Htr2 & HP2) end.
    all: exists (evs1 ++ evs2); split; [by rewrite Htr2, Htr1, app_assoc|];
         by apply Forall_app.
Qed.

Lemma walk_all (fuel lfuel : nat) :
  forall (queue : list string) (visited : gset string) (st : state World),
  exists evs,
    trace (snd (walk random_random svc new_time recursive dry_run fuel lfuel
                  queue visited st)) = trace st ++ evs /\ Forall P evs.
Proof.
  induction fuel as [|fuel IH]; intros queue visited st.
  - destruct queue; exists []; cbn; by rewrite app_nil_r.
  - destruct queue as [|c queue]; [exists []; cbn; by rewrite app_nil_r|].
    cbn [walk]. unfold bind.
    destruct (decide (c ∈ visited)) as [Hv|Hv].
    { rewrite walk_step_visited by assumption. apply IH. }
    rewrite walk_step_unfold by assumption.
    destruct (list_children_events svc lfuel c st) as (evs1 & Htr1 & Hl1 & _).
    assert (HP1 : Forall P evs1).
    { eapply Forall_impl; [exact Hl1|]. intros ev (t & a & ->). apply P_list. }
    destruct (list_children lfuel svc c st) as [[children|e|] st1];
      cbn [fst snd] in *; try (exists evs1; by split).
    destruct (for_children_all children queue st1) as (evs2 & Htr2 & HP2).
    destruct (for_children random_random svc new_time recursive dry_run
                children queue st1) as [[queue'|e|] st2]; cbn [fst snd] in *.
    2,3: exists (evs1 ++ evs2); split; [by rewrite Htr2, Htr1, app_assoc|];
         by apply Forall_app.
    destruct (IH queue' (visited ∪ {[c]}) st2) as (evs3 & Htr3 & HP3).
    exists (evs1 ++ evs2 ++ evs3).
    split; [by rewrite Htr3, Htr2, Htr1, <- !app_assoc|].
    apply Forall_app. split; [exact HP1|]. apply Forall_app. by split.
Qed.

Lemma update_folder_and_contents_all (fuel lfuel : nat) (folder_id : string)
    (st : state World) :
  exists evs,
    trace (snd (update_folder_and_contents random_random svc new_time recursive
                  dry_run fuel lfuel folder_id st)) = trace st ++ evs /\
    Forall P evs.
Proof.
  unfold update_folder_and_contents, bind.
  destruct (P_update folder_id st) as (evs1 & Htr1 & HP1).
  destruct (update_one random_random svc new_time dry_run folder_id st)
    as [[resp|e|] st1]; cbn [fst snd] in *; try (exists evs1; by split).
  destruct (walk_all fuel lfuel [folder_id] ∅ st1) as (evs2 & Htr2 & HP2).
  exists (evs1 ++ evs2). split; [by rewrite Htr2, Htr1, app_assoc|].
  by apply Forall_app.
Qed.

End AllEvents.

Lemma quiet_events (evs : list event) :
  Forall (fun ev => is_quiet ev = true) evs ->
  network_updates evs = [] /\ sleeps evs = [] /\ draws evs = [].
Proof.
  induction 1 as [|ev evs Hev _ IH]; [done|].
  destruct IH as (H1 & H2 & H3).
  unfold network_updates, sleeps, draws in *.
  destruct ev; try discriminate; cbn; by rewrite ?H1, ?H2, ?H3.
Qed.

Lemma dry_run_quiet {World : Type} (random_random : World -> spec_float * World)
    (svc : service World) (new_time : string) (recursive : bool)
    (fuel lfuel : nat) (folder_id : string) (w : World) :
  let out := update_folder_and_contents random_random svc new_time recursive
               true fuel lfuel folder_id (start w) in
  network_updates (trace (snd out)) = [] /\
  sleeps (trace (snd out)) = [] /\
  draws (trace (snd out)) = [].
Proof.
  intros out. subst out.
  destruct (update_folder_and_contents_all random_random svc new_time recursive true
              (fun ev => is_quiet ev = true)) with (fuel := fuel) (lfuel := lfuel)
              (folder_id := folder_id) (st := start w) as (evs & Htr & Hq).
  - intros file_id st. eexists. split; [reflexivity|]. by repeat constructor.
  - reflexivity.
  - rewrite Htr. cbn [start trace app]. by apply quiet_events.
Qed.

(** C6.  With the dry-run flag the mutator returns [None] at once: it writes
    its log line and nothing else (no update call, no draw, no sleep), it
    leaves the world as it was, whatever the identifier, the body and
    [max_retries]; and a whole dry run makes no update call, draws nothing
    and never sleeps. *)
Theorem dry_run_skips {World : Type} (random_random : World -> spec_float * World)
    (svc : service World) :
  (forall (file_id : string) (body : dict) (fields : string) (max_retries : Z)
          (st : state World),
     retryable_update random_random svc file_id body fields true max_retries st
     = (Ok None, {| world := world st;
                    trace := trace st ++ [EvDryRunLog file_id body] |})) /\
  (forall (new_time : string) (recursive : bool) (fuel lfuel : nat)
          (folder_id : string) (w : World),
     let out := update_folder_and_contents random_random svc new_time recursive
                  true fuel lfuel folder_id (start w) in
     network_updates (trace (snd out)) = [] /\
     sleeps (trace (snd out)) = [] /\
     draws (trace (snd out)) = []).
Proof.
  split; [reflexivity|].
  intros new_time recursive fuel lfuel folder_id w. apply dry_run_quiet.
Qed.

(** ** A dry run beside a real run *)

Lemma listing_events_app (a b : list event) :
  listing_events (a ++ b) = listing_events a ++ listing_events b.
Proof. apply List.filter_app. Qed.

Lemma listing_events_none (evs : list event) :
  Forall (fun ev => is_list_event ev = false) evs -> listing_events evs = [].
Proof.
  induction 1 as [|ev evs Hev _ IH]; [reflexivity|].
  unfold listing_events in *. cbn. by rewrite Hev.
Qed.

Lemma listing_events_all (evs : list event) :
  Forall (fun ev => is_list_event ev = true) evs -> listing_events evs = evs.
Proof.
  induction 1 as [|ev evs Hev _ IH]; [reflexivity|].
  unfold listing_events in *. cbn. by rewrite Hev, IH.
Qed.

Section DryAndReal.
Context {World : Type}.
Variable random_random : World -> spec_float * World.
Variable svc : service World.
Variables (new_time : string) (recursive : bool).

(** [R w1 w2]: the two worlds list alike.  Updates and draws, made in the
    second world only, do not disturb this; list calls made in both answer
    the same and keep it. *)
Variable R : World -> World -> Prop.
Hypothesis R_update : forall w1 w2 file_id body fields,
  R w1 w2 -> R w1 (snd (files_update svc file_id body fields w2)).
Hypothesis R_random : forall w1 w2, R w1 w2 -> R w1 (snd (random_random w2)).
Hypothesis R_list : forall w1 w2 parent_id page_token,
  R w1 w2 ->
  fst (files_list svc parent_id page_token w1)
    = fst (files_list svc parent_id page_token w2) /\
  R (snd (files_list svc parent_id page_token w1))
    (snd (files_list svc parent_id page_token w2)).

Lemma attempts_related (file_id : string) (body : dict) (fields : string)
    (left : nat) :
  forall (attempt : Z) (w1 : World) (st2 : state World),
    R w1 (world st2) ->
    R w1 (world (snd (attempts random_random svc file_id body fields left
                        attempt st2))).
Proof.
  induction left as [|left IH]; intros attempt w1 st2 HR; [exact HR|].
  cbn [attempts]. unfold bind, call, emit, ret, raise. cbn.
  pose proof (R_update w1 (world st2) file_id body fields HR) as HR1.
  destruct (files_update svc file_id body fields (world st2)) as [out w2'].
  cbn [snd] in HR1.
  destruct out as [resp|[status|what]]; cbn; try exact HR1.
  destruct (transient status); cbn; [|exact HR1].
  pose proof (R_random w1 w2' HR1) as HR2.
  destruct (random_random w2') as [jitter w2'']. cbn [snd] in HR2. cbn.
  destruct (sleep_for attempt jitter); cbn; [|exact HR2].
  apply IH. exact HR2.
Qed.

Lemma update_one_related (file_id : string) (w1 : World) (st2 : state World) :
  R w1 (world st2) ->
  R w1 (world (snd (update_one random_random svc new_time false file_id st2))).
Proof. intros HR. unfold update_one, retryable_update. by apply attempts_related. Qed.

Lemma update_one_dry (file_id : string) (st1 : state World) :
  update_one random_random svc new_time true file_id st1
  = (Ok None, {| world := world st1;
                 trace := trace st1 ++ [EvDryRunLog file_id (body_of new_time)] |}).
Proof. reflexivity. Qed.

Lemma list_children_loop_related (parent_id : string) (fuel : nat) :
  forall (children : list dict) (page_token : option string)
         (st1 st2 : state World),
    R (world st1) (world st2) ->
    let o1 := list_children_loop svc parent_id fuel children page_token st1 in
    let o2 := list_children_loop svc parent_id fuel children page_token st2 in
    fst o1 = fst o2 /\ R (world (snd o1)) (world (snd o2)) /\
    exists evs,
      trace (snd o1) = trace st1 ++ evs /\ trace (snd o2) = trace st2 ++ evs /\
      Forall (fun ev => is_list_event ev = true) evs.
Proof.
  induction fuel as [|fuel IH]; intros children page_token st1 st2 HR o1 o2;
    subst o1 o2.
  - cbn. split; [reflexivity|]. split; [exact HR|]. exists [].
    by rewrite !app_nil_r.
  - cbn [list_children_loop]. unfold bind, call, emit, ret, raise. cbn.
    destruct (R_list (world st1) (world st2) parent_id page_token HR) as [Hans HR'].
    destruct (files_list svc parent_id page_token (world st1)) as [out1 w1'].
    destruct (files_list svc parent_id page_token (world st2)) as [out2 w2'].
    cbn [fst snd] in *. subst out2.
    destruct out1 as [response|e]; cbn.
    + destruct (truthy (nextPageToken response)).
      * match goal with |- context [list_children_loop _ _ fuel ?c ?t ?s1] =>
          match goal with |- context [R (world (snd (list_children_loop _ _ fuel c t s1)))
                                        (world (snd (list_children_loop _ _ fuel c t ?s2)))] =>
            destruct (IH c t s1 s2 HR') as (Hr & HR'' & evs & Ht1 & Ht2 & Hl) end end.
        cbn in Ht1, Ht2.
        split; [exact Hr|]. split; [exact HR''|].
        eexists (_ :: evs). rewrite Ht1, Ht2, <- !app_assoc.
        split; [reflexivity|]. split; [reflexivity|]. by constructor.
      * cbn. split; [reflexivity|]. split; [exact HR'|].
        eexists [_]. split; [reflexivity|]. split; [reflexivity|]. by repeat constructor.
    + split; [reflexivity|]. split; [exact HR'|].
      eexists [_]. split; [reflexivity|]. split; [reflexivity|]. by repeat constructor.
Qed.

Lemma visit_child_dry (queue : list string) (c : dict) (st : state World) :
  visit_child random_random svc new_time recursive true queue c st =
  match c !! "id" with
  | None => (Raise (KeyError "id"), st)
  | Some cid =>
      (Ok (queue ++ enqueued recursive [c]),
       {| world := world st;
          trace := trace st ++ [EvDryRunLog cid (body_of new_time)] |})
  end.
Proof.
  unfold visit_child, enqueued, child_ids, is_folder. cbn [List.filter].
  destruct (c !! "id") as [cid|] eqn:Hid; [|reflexivity].
  destruct (String.eqb (default "" (c !! "mimeType")) FOLDER_MIME), recursive;
    cbn; rewrite ?Hid, ?app_nil_r; reflexivity.
Qed.

Lemma for_children_dry_world (children : list dict) :
  forall (queue : list string) (st : state World),
    world (snd (for_children random_random svc new_time recursive true
                  children queue st)) = world st.
Proof.
  induction children as [|c children IH]; intros queue st; [reflexivity|].
  cbn [for_children]. unfold bind. rewrite visit_child_dry.
  destruct (c !! "id"); [|reflexivity]. by rewrite IH.
Qed.

Lemma for_children_related (children : list dict) :
  forall (queue : list string) (st1 st2 : state World),
    R (world st1) (world st2) ->
    let o1 := for_children random_random svc new_time recursive true
                children queue st1 in
    let o2 := for_children random_random svc new_time recursive false
                children queue st2 in
    R (world (snd o1)) (world (snd o2)) /\
    exists evs1 evs2,
      trace (snd o1) = trace st1 ++ evs1 /\ trace (snd o2) = trace st2 ++ evs2 /\
      Forall (fun ev => is_list_event ev = false) evs1 /\
      Forall (fun ev => is_list_event ev = false) evs2 /\
      mutations evs2 `prefix_of` mutations evs1 /\
      fst o2 <> Diverge /\
      forall queue',
        fst o2 = Ok queue' -> fst o1 = Ok queue' /\ mutations evs2 = mutations evs1.
Proof.
  induction children as [|c children IH]; intros queue st1 st2 HR o1 o2; subst o1 o2.
  - cbn. split; [exact HR|]. exists [], [].
    rewrite !app_nil_r. repeat (split; [done|]). done.
  - rewrite for_children_dry_world.
    cbn [for_children]. unfold bind. rewrite visit_child_dry.
    destruct (visit_child_events random_random svc new_time recursive false queue c st2)
      as (evs2a & Htr2a & Hnl2a & Hm2a & Hnd2a & Hok2a).
    assert (HR2a : R (world st1)
              (world (snd (visit_child random_random svc new_time recursive false
                             queue c st2)))).
    { unfold visit_child. destruct (c !! "id") as [cid|]; [|exact HR].
      destruct (String.eqb (default "" (c !! "mimeType")) FOLDER_MIME);
        unfold bind;
        pose proof (update_one_related cid (world st1) st2 HR) as HR';
        destruct (update_one random_random svc new_time false cid st2)
          as [[resp|e|] st2']; cbn [snd] in *; try exact HR';
        destruct recursive; exact HR'. }
    unfold child_ids in Hm2a. cbn [omap list_omap] in Hm2a.
    destruct (c !! "id") as [cid|] eqn:Hid.
    + destruct (visit_child random_random svc new_time recursive false queue c st2)
        as [[queue2|e|] st2a]; cbn [fst snd] in *; try congruence.
      * destruct (Hok2a queue2 eq_refl) as [_ ->].
        match goal with |- context [for_children _ _ _ _ true children ?q ?s1] =>
          destruct (IH q s1 st2a HR2a)
            as (HR' & evs1 & evs2 & Ht1 & Ht2 & Hn1 & Hn2 & Hpre & Hnd & Hok) end.
        rewrite for_children_dry_world in HR'. cbn [world trace] in *.
        split; [exact HR'|].
        exists (EvDryRunLog cid (body_of new_time) :: evs1), (evs2a ++ evs2).
        split; [by rewrite Ht1, <- app_assoc|].
        split; [by rewrite Ht2, Htr2a, app_assoc|].
        split; [by constructor|]. split; [by apply Forall_app|].
        rewrite mutations_app, Hm2a. cbn [app].
        rewrite mutations_cons. cbn [mutation_of].
        split; [by apply prefix_cons|]. split; [exact Hnd|].
        intros queue' Hq. destruct (Hok queue' Hq) as [-> ->]. done.
      * split; [exact HR2a|].
        match goal with |- context [for_children _ _ _ _ true children ?q ?s1] =>
          destruct (for_children_events random_random svc new_time recursive true
                      children q s1) as (evs1 & Ht1 & Hn1 & _) end.
        cbn [world trace] in *.
        exists (EvDryRunLog cid (body_of new_time) :: evs1), evs2a.
        split; [by rewrite Ht1, <- app_assoc|]. split; [exact Htr2a|].
        split; [by constructor|]. split; [exact Hnl2a|].
        rewrite Hm2a, mutations_cons. cbn [mutation_of].
        split; [apply prefix_cons, prefix_nil|]. split; [discriminate|]. discriminate.
    + destruct (visit_child random_random svc new_time recursive false queue c st2)
        as [[queue2|e|] st2a]; cbn [fst snd] in *; try congruence.
      * destruct (Hok2a queue2 eq_refl) as [[? Hsome] _]. discriminate.
      * split; [exact HR2a|]. exists [], evs2a. rewrite app_nil_r.
        split; [reflexivity|]. split; [exact Htr2a|]. split; [constructor|].
        split; [exact Hnl2a|]. rewrite Hm2a.
        split; [apply prefix_nil|]. split; [discriminate|]. discriminate.
Qed.

Lemma walk_extends (dry_run : bool) (fuel lfuel : nat) (queue : list string)
    (visited : gset string) (st : state World) :
  exists evs,
    trace (snd (walk random_random svc new_time recursive dry_run fuel lfuel
                  queue visited st)) = trace st ++ evs.
Proof.
  destruct (walk_all random_random svc new_time recursive dry_run (fun _ => True))
    with (fuel := fuel) (lfuel := lfuel) (queue := queue) (visited := visited)
         (st := st) as (evs & Htr & _).
  - intros file_id st'.
    destruct (update_one_events random_random svc new_time dry_run file_id st')
      as (evs & Htr & _).
    exists evs. split; [exact Htr|]. by apply Forall_forall.
  - done.
  - by exists evs.
Qed.

Lemma walk_related (fuel lfuel : nat) :
  forall (queue : list string) (visited : gset string) (st1 st2 : state World),
    R (world st1) (world st2) ->
    let o1 := walk random_random svc new_time recursive true fuel lfuel
                queue visited st1 in
    let o2 := walk random_random svc new_time recursive false fuel lfuel
                queue visited st2 in
    exists evs1 evs2,
      trace (snd o1) = trace st1 ++ evs1 /\ trace (snd o2) = trace st2 ++ evs2 /\
      listing_events evs2 `prefix_of` listing_events evs1 /\
      mutations evs2 `prefix_of` mutations evs1 /\
      (not_raised (fst o2) ->
       fst o1 = fst o2 /\ listing_events evs2 = listing_events evs1 /\
       mutations evs2 = mutations evs1).
Proof.
  induction fuel as [|fuel IH]; intros queue visited st1 st2 HR o1 o2; subst o1 o2.
  - destruct queue; cbn; exists [], []; rewrite !app_nil_r; done.
  - destruct queue as [|c queue]; [cbn; exists [], []; rewrite !app_nil_r; done|].
    cbn [walk]. unfold bind.
    destruct (decide (c ∈ visited)) as [Hv|Hv].
    { rewrite !walk_step_visited by assumption. cbn [fst snd]. by apply IH. }
    rewrite !walk_step_unfold by assumption.
    destruct (list_children_loop_related c lfuel [] None st1 st2 HR)
      as (Hres & HR1 & evsL & HtL1 & HtL2 & HlL).
    fold (list_children lfuel svc c st1) in *.
    fold (list_children lfuel svc c st2) in *.
    destruct (list_events evsL HlL) as (HmL & _).
    pose proof (listing_events_all evsL HlL) as HlistL.
    destruct (list_children lfuel svc c st1) as [r1 st1a].
    destruct (list_children lfuel svc c st2) as [r2 st2a].
    cbn [fst snd] in *. subst r2.
    destruct r1 as [children|e|].
    2,3: exists evsL, evsL; done.
    destruct (for_children_related children queue st1a st2a HR1)
      as (HR2 & evsF1 & evsF2 & HtF1 & HtF2 & HnF1 & HnF2 & Hpre & Hnd & Hok).
    pose proof (listing_events_none evsF1 HnF1) as HlF1.
    pose proof (listing_events_none evsF2 HnF2) as HlF2.
    destruct (for_children random_random svc new_time recursive false children
                queue st2a) as [[queue2|e|] st2b]; cbn [fst snd] in *;
      try congruence.
    + destruct (Hok queue2 eq_refl) as [Hdry Hmeq].
      destruct (for_children random_random svc new_time recursive true children
                  queue st1a) as [r1 st1b]. cbn [fst snd] in *. subst r1.
      cbv beta iota. cbn [fst snd].
      destruct (IH queue2 (visited ∪ {[c]}) st1b st2b HR2)
        as (evs1 & evs2 & Ht1 & Ht2 & HpreL & HpreM & Heq).
      exists (evsL ++ evsF1 ++ evs1), (evsL ++ evsF2 ++ evs2).
      split; [by rewrite Ht1, HtF1, HtL1, <- !app_assoc|].
      split; [by rewrite Ht2, HtF2, HtL2, <- !app_assoc|].
      rewrite !listing_events_app, !mutations_app, HlistL, HlF1, HlF2, HmL, Hmeq.
      cbn [app].
      split; [by apply prefix_app|]. split; [by apply prefix_app|].
      intros Hnr. destruct (Heq Hnr) as (-> & -> & ->). done.
    + (* the real run stops here; the dry run goes on *)
      assert (Hgoal : forall more,
        exists evs1 evs2 : list event,
          trace st1a ++ evsF1 ++ more = trace st1 ++ evs1 /\
          trace st2b = trace st2 ++ evs2 /\
          listing_events evs2 `prefix_of` listing_events evs1 /\
          mutations evs2 `prefix_of` mutations evs1).
      { intros more. exists (evsL ++ evsF1 ++ more), (evsL ++ evsF2).
        split; [by rewrite HtL1, <- !app_assoc|].
        split; [by rewrite HtF2, HtL2, <- !app_assoc|].
        rewrite !listing_events_app, !mutations_app, HlistL, HlF1, HlF2, HmL.
        cbn [app]. rewrite app_nil_r.
        split; [by apply prefix_app_r|]. by apply prefix_app_r. }
      destruct (for_children random_random svc new_time recursive true children
                  queue st1a) as [[queue1|e1|] st1b]; cbn [fst snd] in *.
      * destruct (walk_extends true fuel lfuel queue1 (visited ∪ {[c]}) st1b)
          as (more & Hmore).
        destruct (Hgoal more) as (evs1 & evs2 & H1 & H2 & H3 & H4).
        exists evs1, evs2. rewrite Hmore, HtF1, <- app_assoc.
        split; [exact H1|]. split; [exact H2|]. split; [exact H3|].
        split; [exact H4|]. intros [].
      * destruct (Hgoal []) as (evs1 & evs2 & H1 & H2 & H3 & H4).
        exists evs1, evs2. rewrite HtF1. rewrite app_nil_r in H1.
        split; [exact H1|]. split; [exact H2|]. split; [exact H3|].
        split; [exact H4|]. intros [].
      * destruct (Hgoal []) as (evs1 & evs2 & H1 & H2 & H3 & H4).
        exists evs1, evs2. rewrite HtF1. rewrite app_nil_r in H1.
        split; [exact H1|]. split; [exact H2|]. split; [exact H3|].
        split; [exact H4|]. intros [].
Qed.

End DryAndReal.

Lemma expansions_listing (tr : list event) :
  expansions (listing_events tr) = expansions tr.
Proof.
  unfold expansions, listing_events. induction tr as [|ev tr IH]; [reflexivity|].
  destruct ev; cbn; try exact IH. destruct page_token; cbn; by rewrite ?IH.
Qed.

Lemma list_calls_listing (tr : list event) :
  list_calls (listing_events tr) = list_calls tr.
Proof.
  unfold list_calls, listing_events. induction tr as [|ev tr IH]; [reflexivity|].
  destruct ev; cbn; by rewrite ?IH.
Qed.

Lemma prefix_omap {A B : Type} (f : A -> option B) (l1 l2 : list A) :
  l1 `prefix_of` l2 -> omap f l1 `prefix_of` omap f l2.
Proof. intros [k ->]. rewrite omap_app. by apply prefix_app_r. Qed.

Example dry_run_scenario :
  let w := Scripted.drive Scripted.scenario_tree in
  let dry := update_folder_and_contents Scripted.random Scripted.svc
               "2025-10-20T09:20:25.000Z" true true 10 10 "R" (start w) in
  list_calls (trace (snd dry)) = [("R", None); ("folderA", None)] /\
  mutations (trace (snd dry)) = ["R"; "folderA"; "file1"; "file2"] /\
  network_updates (trace (snd dry)) = [].
Proof. vm_compute. repeat split. Qed.

(** ** The validator *)

Lemma digit_cases (c : ascii) :
  is_digit c = true ->
  In c ["0"; "1"; "2"; "3"; "4"; "5"; "6"; "7"; "8"; "9"]%char.
Proof.
  destruct c as [[] [] [] [] [] [] [] []]; cbn; intros H; try discriminate; tauto.
Qed.

Lemma same_letter_Z (c : ascii) :
  same_letter "Z" c = true -> c = "Z"%char \/ c = "z"%char.
Proof.
  destruct c as [[] [] [] [] [] [] [] []]; cbn; intros H; try discriminate; tauto.
Qed.

Lemma match_classes_split (ks : list char_class) :
  forall (s m rest : string),
    match_classes ks s = Some (m, rest) -> s = (m ++ rest)%string.
Proof.
  induction ks as [|k ks IH]; intros s m rest H; cbn in H.
  - by inversion H.
  - destruct s as [|c s]; [discriminate|].
    destruct (in_class k c); [|discriminate].
    destruct (match_classes ks s) as [[m' rest']|] eqn:E; [|discriminate].
    inversion H; subst. change (String c s = String c (m' ++ rest)%string).
    f_equal. by apply IH.
Qed.

Lemma string_app_assoc (a b c : string) : ((a ++ b) ++ c = a ++ (b ++ c))%string.
Proof.
  induction a as [|x a IH]; [reflexivity|].
  change (String x ((a ++ b) ++ c) = String x (a ++ (b ++ c)))%string. by rewrite IH.
Qed.

(** A format that ends in a literal only matches up to a character that is
    this literal, in either case. *)
Lemma match_items_last_literal (c : ascii) (items : list format_item) :
  forall (s : string) (found : list (directive * string)) (rest : string),
    In (found, rest) (match_items (items ++ [Literal c]) s) ->
    exists pre c', s = (pre ++ String c' rest)%string /\ same_letter c c' = true.
Proof.
  induction items as [|[a|d] items IH]; intros s found rest Hin; cbn in Hin.
  - destruct s as [|c' s]; [done|].
    destruct (same_letter c c') eqn:E; [|done].
    destruct Hin as [Hin|[]]. inversion Hin; subst. by exists EmptyString, c'.
  - destruct s as [|a' s]; [done|].
    destruct (same_letter a a'); [|done].
    destruct (IH s found rest Hin) as (pre & c' & -> & Hc).
    by exists (String a' pre), c'.
  - apply in_flat_map in Hin as ([m r] & Hcand & Hin).
    apply in_map_iff in Hin as ([found' rest'] & Heq & Hin).
    cbn in Heq. inversion Heq; subst.
    destruct (IH r found' rest Hin) as (pre & c' & -> & Hc).
    apply list_elem_of_In, list_elem_of_omap in Hcand as (ks & _ & Hm).
    apply match_classes_split in Hm. subst s.
    exists (m ++ pre)%string, c'. by rewrite string_app_assoc.
Qed.

Lemma last_char_app (pre : string) (c : ascii) :
  last_char (pre ++ String c EmptyString) = Some c.
Proof.
  induction pre as [|a pre IH]; [reflexivity|].
  change (last_char (String a (pre ++ String c "")%string) = Some c).
  cbn [last_char]. destruct (pre ++ String c "")%string eqn:E; [|exact IH].
  destruct pre; discriminate.
Qed.

Lemma strptime_ends_in_Z (ts fmt : string) :
  In fmt FORMATS -> strptime ts fmt <> None ->
  last_char ts = Some "Z"%char \/ last_char ts = Some "z"%char.
Proof.
  intros Hfmt Hs.
  assert (Hpat : exists items, pattern fmt = Some (items ++ [Literal "Z"])).
  { destruct Hfmt as [<-|[<-|[]]]; eexists.
    - vm_compute. 
      instantiate (1 := [Directive DY; Literal "-"; Directive Dm; Literal "-";
                         Directive Dd; Literal "T"; Directive DH; Literal ":";
                         Directive DM; Literal ":"; Directive DS; Literal ".";
                         Directive Df]). reflexivity.
    - vm_compute.
      instantiate (1 := [Directive DY; Literal "-"; Directive Dm; Literal "-";
                         Directive Dd; Literal "T"; Directive DH; Literal ":";
                         Directive DM; Literal ":"; Directive DS]). reflexivity. }
  destruct Hpat as (items & Hpat). unfold strptime in Hs. rewrite Hpat in Hs.
  destruct (match_items (items ++ [Literal "Z"]) ts) as [|[found rest] l] eqn:E;
    [done|].
  destruct rest; [|done].
  destruct (match_items_last_literal "Z" items ts found EmptyString) as (pre & c' & -> & Hc).
  { rewrite E. by left. }
  rewrite last_char_app. destruct (same_letter_Z c' Hc) as [-> | ->]; auto.
Qed.
Lemma match_items_directive (d : directive) (items : list format_item) (s : string) :
  match_items (Directive d :: items) s =
  flat_map (fun found : string * string =>
              map (capture d (fst found)) (match_items items (snd found)))
           (omap (fun ks => match_classes ks s) (directive_regex d)).
Proof. reflexivity. Qed.

Lemma match_items_literal (c c' : ascii) (items : list format_item) (s : string) :
  match_items (Literal c :: items) (String c' s) =
  if same_letter c c' then match_items items s else [].
Proof. reflexivity. Qed.

Lemma match_year (a b c d : ascii) (items : list format_item) (s : string) :
  is_digit a = true -> is_digit b = true -> is_digit c = true -> is_digit d = true ->
  match_items (Directive DY :: items) (String a (String b (String c (String d s)))) =
  map (capture DY (String a (String b (String c (String d EmptyString)))))
      (match_items items s).
Proof.
  intros Ha Hb Hc Hd. rewrite match_items_directive.
  cbn [directive_regex omap list_omap match_classes in_class].
  rewrite Ha, Hb, Hc, Hd. cbn [flat_map fst snd]. by rewrite app_nil_r.
Qed.

Lemma match_two_digits (d : directive) (sep a b : ascii)
    (items : list format_item) (s : string) :
  In d [Dm; Dd; DH; DM; DS] -> In sep ["-"; "T"; ":"; "Z"; "."]%char ->
  is_digit a = true -> is_digit b = true ->
  match_items (Directive d :: Literal sep :: items)
    (String a (String b (String sep s))) =
  if two_digit_ok d (int_of (String a (String b EmptyString)))
  then map (capture d (String a (String b EmptyString))) (match_items items s)
  else [].
Proof.
  intros Hd Hsep Ha Hb.
  apply digit_cases in Ha, Hb. cbn [In] in *.
  repeat match goal with H : _ \/ _ |- _ => destruct H as [<-|H] end;
    try contradiction.
  all: rewrite match_items_directive;
       cbv -[match_items map capture app];
       rewrite ?match_items_literal;
       cbv -[match_items map capture app];
       cbn [map app]; rewrite ?app_nil_r; reflexivity.
Qed.
Lemma match_seconds_mismatch (sep sep' a b : ascii)
    (items : list format_item) (s : string) :
  In sep ["Z"; "."]%char -> In sep' ["Z"; "."]%char -> sep <> sep' ->
  is_digit a = true -> is_digit b = true ->
  match_items (Directive DS :: Literal sep :: items)
    (String a (String b (String sep' s))) = [].
Proof.
  intros Hsep Hsep' Hne Ha Hb.
  apply digit_cases in Ha, Hb. cbn [In] in *.
  repeat match goal with H : _ \/ _ |- _ => destruct H as [<-|H] end;
    try contradiction; try congruence.
  all: rewrite match_items_directive;
       cbv -[match_items map capture app];
       rewrite ?match_items_literal;
       cbv -[match_items map capture app];
       reflexivity.
Qed.

Lemma in_class_digit (c : ascii) : in_class (Between "0" "9") c = is_digit c.
Proof. reflexivity. Qed.

Lemma same_letter_Z_digit (c : ascii) : is_digit c = true -> same_letter "Z" c = false.
Proof.
  intros H. apply digit_cases in H. cbn [In] in H.
  repeat match goal with H : _ \/ _ |- _ => destruct H as [<-|H] end;
    try contradiction; reflexivity.
Qed.

Lemma match_fraction (f1 f2 f3 f4 f5 f6 : ascii) :
  is_digit f1 = true -> is_digit f2 = true -> is_digit f3 = true ->
  is_digit f4 = true -> is_digit f5 = true -> is_digit f6 = true ->
  match_items [Directive Df; Literal "Z"]
    (String f1 (String f2 (String f3 (String f4 (String f5 (String f6
       (String "Z" EmptyString))))))) =
  [([(Df, String f1 (String f2 (String f3 (String f4 (String f5
           (String f6 EmptyString))))))], EmptyString)].
Proof.
  intros H1 H2 H3 H4 H5 H6. rewrite match_items_directive.
  cbn [directive_regex repeat omap list_omap match_classes].
  repeat (progress (rewrite ?in_class_digit, ?H1, ?H2, ?H3, ?H4, ?H5, ?H6;
                    cbn [match_classes omap list_omap])).
  cbn [flat_map fst snd]. rewrite !match_items_literal.
  rewrite (same_letter_Z_digit f2 H2), (same_letter_Z_digit f3 H3),
    (same_letter_Z_digit f4 H4), (same_letter_Z_digit f5 H5),
    (same_letter_Z_digit f6 H6).
  reflexivity.
Qed.
Lemma pattern_fractional :
  pattern "%Y-%m-%dT%H:%M:%S.%fZ" =
  Some [Directive DY; Literal "-"; Directive Dm; Literal "-"; Directive Dd;
        Literal "T"; Directive DH; Literal ":"; Directive DM; Literal ":";
        Directive DS; Literal "."; Directive Df; Literal "Z"].
Proof. reflexivity. Qed.

Lemma pattern_whole :
  pattern "%Y-%m-%dT%H:%M:%SZ" =
  Some [Directive DY; Literal "-"; Directive Dm; Literal "-"; Directive Dd;
        Literal "T"; Directive DH; Literal ":"; Directive DM; Literal ":";
        Directive DS; Literal "Z"].
Proof. reflexivity. Qed.

Lemma days_in_month_le (year month : Z) : days_in_month year month <= 31.
Proof.
  unfold days_in_month. destruct ((month =? 2) && is_leap year); [lia|].
  generalize (Z.to_nat month). intros n.
  do 13 (destruct n as [|n]; [cbn; lia|]). destruct n; cbn; lia.
Qed.

Lemma valid_fields_two_digits (t : datetime) :
  valid_fields t = true ->
  two_digit_ok Dm (dt_month t) = true /\ two_digit_ok Dd (dt_day t) = true /\
  two_digit_ok DH (dt_hour t) = true /\ two_digit_ok DM (dt_minute t) = true /\
  two_digit_ok DS (dt_second t) = true.
Proof.
  unfold valid_fields, two_digit_ok. intros H.
  repeat match goal with H : _ && _ = true |- _ => apply andb_true_iff in H as [H ?] end.
  pose proof (days_in_month_le (dt_year t) (dt_month t)).
  repeat match goal with H : (_ <=? _) = true |- _ => apply Z.leb_le in H end.
  repeat split; try apply andb_true_iff; try split; apply Z.leb_le; lia.
Qed.

Lemma map_capture_if (d : directive) (text : string) (b : bool)
    (l : list (list (directive * string) * string)) :
  map (capture d text) (if b then l else []) = if b then map (capture d text) l else [].
Proof. by destruct b. Qed.

Ltac layout_step H ts c Hc :=
  destruct ts as [|c ts]; [discriminate H|];
  cbn [matches_layout] in H; apply andb_true_iff in H as [Hc H];
  match type of Hc with
  | (if placeholder ?p then _ else _) = true =>
      let b := eval vm_compute in (placeholder p) in
      change (placeholder p) with b in Hc; cbv iota in Hc
  end.

Ltac layout_digit H ts c Hc := layout_step H ts c Hc.

Ltac layout_char H ts :=
  let c := fresh "c" in
  let Hc := fresh "Hc" in
  layout_step H ts c Hc; apply Ascii.eqb_eq in Hc; subst c.

Lemma strptime_layout_whole (ts : string) :
  matches_layout LAYOUT_WHOLE ts = true ->
  strptime ts "%Y-%m-%dT%H:%M:%S.%fZ" = None /\
  strptime ts "%Y-%m-%dT%H:%M:%SZ" =
    if valid_fields (layout_fields ts) then Some (layout_fields ts) else None.
Proof.
  unfold LAYOUT_WHOLE. intros H.
  layout_digit H ts y1 Hy1. layout_digit H ts y2 Hy2.
  layout_digit H ts y3 Hy3. layout_digit H ts y4 Hy4. layout_char H ts.
  layout_digit H ts m1 Hm1. layout_digit H ts m2 Hm2. layout_char H ts.
  layout_digit H ts d1 Hd1. layout_digit H ts d2 Hd2. layout_char H ts.
  layout_digit H ts h1 Hh1. layout_digit H ts h2 Hh2. layout_char H ts.
  layout_digit H ts n1 Hn1. layout_digit H ts n2 Hn2. layout_char H ts.
  layout_digit H ts s1 Hs1. layout_digit H ts s2 Hs2. layout_char H ts.
  destruct ts; [clear H|discriminate H].
  unfold strptime. rewrite pattern_fractional, pattern_whole.
  rewrite !match_year by assumption.
  rewrite !match_items_literal. change (same_letter "-" "-") with true. cbv iota.
  rewrite !(match_two_digits Dm "-") by (try assumption; cbn; tauto).
  rewrite !(match_two_digits Dd "T") by (try assumption; cbn; tauto).
  rewrite !(match_two_digits DH ":") by (try assumption; cbn; tauto).
  rewrite !(match_two_digits DM ":") by (try assumption; cbn; tauto).
  rewrite (match_seconds_mismatch "." "Z") by (try assumption; cbn; tauto || congruence).
  rewrite (match_two_digits DS "Z") by (try assumption; cbn; tauto).
  set (F := layout_fields _).
  pose proof (valid_fields_two_digits F) as HV.
  change (dt_month F) with (int_of (String m1 (String m2 ""))) in HV.
  change (dt_day F) with (int_of (String d1 (String d2 ""))) in HV.
  change (dt_hour F) with (int_of (String h1 (String h2 ""))) in HV.
  change (dt_minute F) with (int_of (String n1 (String n2 ""))) in HV.
  change (dt_second F) with (int_of (String s1 (String s2 ""))) in HV.
  destruct (two_digit_ok Dm _), (two_digit_ok Dd _), (two_digit_ok DH _),
    (two_digit_ok DM _), (two_digit_ok DS _);
    cbn [map capture fst snd match_items]; split; try reflexivity.
  all: destruct (valid_fields F) eqn:E; [|reflexivity].
  all: destruct (HV eq_refl) as (? & ? & ? & ? & ?); discriminate.
Qed.
Lemma strptime_layout_fractional (ts : string) :
  matches_layout LAYOUT_FRACTIONAL ts = true ->
  strptime ts "%Y-%m-%dT%H:%M:%S.%fZ" =
    (if valid_fields (layout_fields ts) then Some (layout_fields ts) else None) /\
  strptime ts "%Y-%m-%dT%H:%M:%SZ" = None.
Proof.
  unfold LAYOUT_FRACTIONAL. intros H.
  layout_digit H ts y1 Hy1. layout_digit H ts y2 Hy2.
  layout_digit H ts y3 Hy3. layout_digit H ts y4 Hy4. layout_char H ts.
  layout_digit H ts m1 Hm1. layout_digit H ts m2 Hm2. layout_char H ts.
  layout_digit H ts d1 Hd1. layout_digit H ts d2 Hd2. layout_char H ts.
  layout_digit H ts h1 Hh1. layout_digit H ts h2 Hh2. layout_char H ts.
  layout_digit H ts n1 Hn1. layout_digit H ts n2 Hn2. layout_char H ts.
  layout_digit H ts s1 Hs1. layout_digit H ts s2 Hs2. layout_char H ts.
  layout_digit H ts f1 Hf1. layout_digit H ts f2 Hf2. layout_digit H ts f3 Hf3.
  layout_digit H ts f4 Hf4. layout_digit H ts f5 Hf5. layout_digit H ts f6 Hf6.
  layout_char H ts.
  destruct ts; [clear H|discriminate H].
  unfold strptime. rewrite pattern_fractional, pattern_whole.
  rewrite !match_year by assumption.
  rewrite !match_items_literal. change (same_letter "-" "-") with true. cbv iota.
  rewrite !(match_two_digits Dm "-") by (try assumption; cbn; tauto).
  rewrite !(match_two_digits Dd "T") by (try assumption; cbn; tauto).
  rewrite !(match_two_digits DH ":") by (try assumption; cbn; tauto).
  rewrite !(match_two_digits DM ":") by (try assumption; cbn; tauto).
  rewrite (match_seconds_mismatch "Z" ".") by (try assumption; cbn; tauto || congruence).
  rewrite (match_two_digits DS ".") by (try assumption; cbn; tauto).
  rewrite match_fraction by assumption.
  set (F := layout_fields _).
  pose proof (valid_fields_two_digits F) as HV.
  change (dt_month F) with (int_of (String m1 (String m2 ""))) in HV.
  change (dt_day F) with (int_of (String d1 (String d2 ""))) in HV.
  change (dt_hour F) with (int_of (String h1 (String h2 ""))) in HV.
  change (dt_minute F) with (int_of (String n1 (String n2 ""))) in HV.
  change (dt_second F) with (int_of (String s1 (String s2 ""))) in HV.
  destruct (two_digit_ok Dm _), (two_digit_ok Dd _), (two_digit_ok DH _),
    (two_digit_ok DM _), (two_digit_ok DS _);
    cbn [map capture fst snd match_items]; split; try reflexivity.
  all: destruct (valid_fields F) eqn:E; [|reflexivity].
  all: destruct (HV eq_refl) as (? & ? & ? & ? & ?); discriminate.
Qed.

Lemma last_char_offset (s : string) :
  last_char (s ++ "+05:00") = Some "0"%char.
Proof.
  induction s as [|a s IH]; [reflexivity|].
  change (last_char (String a (s ++ "+05:00")%string) = Some "0"%char).
  cbn [last_char]. destruct (s ++ "+05:00")%string eqn:E; [|exact IH].
  destruct s; discriminate.
Qed.

Lemma validate_iff (ts : string) :
  validate_rfc3339 ts = true <->
  exists fmt, In fmt FORMATS /\ strptime ts fmt <> None.
Proof.
  unfold validate_rfc3339, FORMATS. cbn [try_formats In]. split.
  - destruct (strptime ts "%Y-%m-%dT%H:%M:%S.%fZ") eqn:E1.
    + intros _. eexists. split; [left; reflexivity|]. by rewrite E1.
    + destruct (strptime ts "%Y-%m-%dT%H:%M:%SZ") eqn:E2; [|discriminate].
      intros _. eexists. split; [right; left; reflexivity|]. by rewrite E2.
  - intros (fmt & [<-|[<-|[]]] & Hs).
    + by destruct (strptime ts "%Y-%m-%dT%H:%M:%S.%fZ").
    + destruct (strptime ts "%Y-%m-%dT%H:%M:%S.%fZ"); [reflexivity|].
      by destruct (strptime ts "%Y-%m-%dT%H:%M:%SZ").
Qed.

(** C7, as amended.  The validator is a total function to [bool].  It returns
    true exactly when [strptime] parses the string under one of its two
    formats.  On a string of either layout of the specification, read
    literally, it returns true exactly when the fields are a valid date and
    time.  Every string it accepts ends in [Z] or [z], so that a string
    ending in an offset such as [+05:00] is rejected. *)
Theorem validator_accepts :
  (forall ts, validate_rfc3339 ts = true <->
     exists fmt, In fmt FORMATS /\ strptime ts fmt <> None) /\
  (forall ts,
     matches_layout LAYOUT_FRACTIONAL ts = true \/
     matches_layout LAYOUT_WHOLE ts = true ->
     validate_rfc3339 ts = valid_fields (layout_fields ts)) /\
  (forall ts, validate_rfc3339 ts = true ->
     last_char ts = Some "Z"%char \/ last_char ts = Some "z"%char) /\
  (forall prefix, validate_rfc3339 (prefix ++ "+05:00") = false).
Proof.
  assert (Hend : forall ts, validate_rfc3339 ts = true ->
            last_char ts = Some "Z"%char \/ last_char ts = Some "z"%char).
  { intros ts H. apply validate_iff in H as (fmt & Hfmt & Hs).
    eapply strptime_ends_in_Z; eassumption. }
  split; [exact validate_iff|]. split; [|split; [exact Hend|]].
  - intros ts [H|H]; unfold validate_rfc3339, FORMATS; cbn [try_formats].
    + destruct (strptime_layout_fractional ts H) as [-> ->].
      by destruct (valid_fields (layout_fields ts)).
    + destruct (strptime_layout_whole ts H) as [-> ->].
      by destruct (valid_fields (layout_fields ts)).
  - intros prefix. destruct (validate_rfc3339 (prefix ++ "+05:00")) eqn:E; [|reflexivity].
    apply Hend in E. rewrite last_char_offset in E. by destruct E.
Qed.

(** C7 as stated fails in both directions: a string with one-digit fields is
    of neither layout and is accepted; the 30th of February is of the
    whole-seconds layout and is rejected. *)
Lemma validator_is_not_the_layouts :
  (validate_rfc3339 "2025-1-5T9:2:5Z" = true /\
   matches_layout LAYOUT_FRACTIONAL "2025-1-5T9:2:5Z" = false /\
   matches_layout LAYOUT_WHOLE "2025-1-5T9:2:5Z" = false) /\
  (validate_rfc3339 "2025-02-30T00:00:00Z" = false /\
   matches_layout LAYOUT_WHOLE "2025-02-30T00:00:00Z" = true).
Proof. vm_compute. repeat split. Qed.

(** What else the validator takes or refuses. *)
Example validator_examples :
  validate_rfc3339 "2025-10-20T09:20:25.000Z" = true /\
  validate_rfc3339 "2025-10-20T09:20:25Z" = true /\
  validate_rfc3339 "2025-10-20T09:20:25.123456Z" = true /\
  validate_rfc3339 "2025-10-20t09:20:25z" = true /\
  validate_rfc3339 "2025-10- 5T09:20:25Z" = true /\
  validate_rfc3339 "2025-10-20T09:20:25+05:00" = false /\
  validate_rfc3339 "2025-10-20T09:20:25.1234567Z" = false /\
  validate_rfc3339 "2025-10-20T09:20:60Z" = false /\
  validate_rfc3339 "0000-10-20T09:20:25Z" = false /\
  validate_rfc3339 "" = false.
Proof. vm_compute. repeat split. Qed.

Lemma retry_run_sends (new_time file_id : string) left attempt evs r :
  retry_run file_id (body_of new_time) FIELDS left attempt evs r ->
  0 <= attempt -> attempt + Z.of_nat left <= DEFAULT_RETRIES ->
  Forall (sends new_time) evs.
Proof.
  induction 1; intros Hlo Hhi.
  - constructor.
  - repeat constructor; lia.
  - repeat constructor; lia.
  - constructor; [cbn; repeat split; lia|].
    constructor; [exact I|]. constructor; [exact I|].
    apply IHretry_run; lia.
  - repeat constructor; lia.
Qed.

Lemma update_one_sends {World : Type} (random_random : World -> spec_float * World)
    (svc : service World) (new_time : string) (dry_run : bool)
    (file_id : string) (st : state World) :
  exists evs,
    trace (snd (update_one random_random svc new_time dry_run file_id st))
      = trace st ++ evs /\ Forall (sends new_time) evs.
Proof.
  unfold update_one, retryable_update. destruct dry_run.
  - eexists. split; [reflexivity|]. repeat constructor.
  - destruct (attempts_run random_random svc file_id (body_of new_time) FIELDS
                (Z.to_nat DEFAULT_RETRIES) 0 st) as (evs & Htr & Hrun).
    exists evs. split; [exact Htr|].
    eapply retry_run_sends; [exact Hrun | lia | reflexivity].
Qed.

(** X1.  Whatever the service answers, every update call of a run sends the
    body [{'modifiedTime': new_time}] with the fields
    ['id, name, modifiedTime'], as one of the attempts 0 to 4 for its object;
    a dry run logs that same body. *)
Theorem updates_carry_new_time {World : Type}
    (random_random : World -> spec_float * World) (svc : service World)
    (new_time : string) (recursive dry_run : bool) (fuel lfuel : nat)
    (folder_id : string) (w : World) :
  let out := update_folder_and_contents random_random svc new_time recursive
               dry_run fuel lfuel folder_id (start w) in
  (forall file_id body fields attempt answer,
     EvUpdate file_id body fields attempt answer ∈ trace (snd out) ->
     body = {[ "modifiedTime" := new_time ]} /\
     fields = "id, name, modifiedTime" /\ 0 <= attempt < 5) /\
  (forall file_id body,
     EvDryRunLog file_id body ∈ trace (snd out) ->
     body = {[ "modifiedTime" := new_time ]}).
Proof.
  intros out. subst out.
  destruct (update_folder_and_contents_all random_random svc new_time recursive
              dry_run (sends new_time)
              (update_one_sends random_random svc new_time dry_run)
              (fun _ _ _ => I) fuel lfuel folder_id (start w)) as (evs & Htr & Hall).
  rewrite Htr. cbn [start trace app].
  rewrite Forall_forall in Hall.
  split.
  - intros file_id body fields attempt answer Hin. exact (Hall _ Hin).
  - intros file_id body Hin. exact (Hall _ Hin).
Qed.

Lemma listed_app (a b : list event) : listed (a ++ b) = listed a ++ listed b.
Proof. unfold listed. by rewrite map_app, concat_app. Qed.

Lemma listed_none (evs : list event) :
  Forall (fun ev => is_list_event ev = false) evs -> listed evs = [].
Proof.
  induction 1 as [|ev evs Hev _ IH]; [reflexivity|].
  unfold listed in *. cbn. rewrite IH. by destruct ev.
Qed.

Lemma child_ids_app (a b : list dict) : child_ids (a ++ b) = child_ids a ++ child_ids b.
Proof. apply omap_app. Qed.

Lemma paging_listed parent_id fuel page_token children evs r :
  paging parent_id fuel page_token children evs r ->
  forall all, r = Ok all -> all = children ++ listed evs.
Proof.
  induction 1; intros all Hr; try discriminate.
  - inversion Hr. unfold listed. cbn. by rewrite app_nil_r.
  - rewrite (IHpaging all Hr). unfold listed. cbn. by rewrite <- app_assoc.
Qed.

Section Listed.
Context {World : Type}.
Variable random_random : World -> spec_float * World.
Variable svc : service World.
Variables (new_time : string) (recursive dry_run : bool).

(** One turn of the loop on a container that was not visited, told by what
    the service listed. *)
Lemma walk_step_listed (lfuel : nat) (current_folder : string)
    (queue : list string) (visited : gset string) (st : state World) :
  current_folder ∉ visited ->
  let out := walk_step random_random svc new_time recursive dry_run lfuel
               current_folder queue visited st in
  exists evs,
    trace (snd out) = trace st ++ evs /\
    mutations evs `prefix_of` child_ids (listed evs) /\
    expansions evs = match lfuel with O => [] | S _ => [current_folder] end /\
    forall queue' visited',
      fst out = Ok (queue', visited') ->
      visited' = visited ∪ {[ current_folder ]} /\
      mutations evs = child_ids (listed evs) /\
      Forall (fun c : dict => is_Some (c !! "id")) (listed evs) /\
      queue' = queue ++ enqueued recursive (listed evs).
Proof.
  intros Hv out. subst out.
  destruct (walk_step_fresh random_random svc new_time recursive dry_run lfuel
              current_folder queue visited st Hv)
    as (evs1 & evs2 & Htr & Hl & Hev1 & Hx1 & Hev2 & Hres).
  destruct (list_children_loop_paging svc current_folder lfuel [] None st)
    as (evs1' & Hl' & Hpag).
  fold (list_children lfuel svc current_folder) in Hl', Hpag.
  rewrite Hl in Hl'. apply app_inv_head in Hl'. subst evs1'.
  destruct (list_events evs1 (list_events_of _ _ Hev1)) as (Hm1 & _).
  destruct (not_list_events evs2 Hev2) as (_ & Hx2 & _).
  exists (evs1 ++ evs2). split; [exact Htr|].
  rewrite mutations_app, Hm1, listed_app, (listed_none evs2 Hev2), app_nil_r,
    expansions_app, Hx2, app_nil_r. cbn [app].
  destruct (fst (list_children lfuel svc current_folder st)) as [children|e|] eqn:Hr.
  - pose proof (paging_listed _ _ _ _ _ _ Hpag children eq_refl) as Hc.
    cbn [app] in Hc. subst children.
    destruct Hres as (Hpre & _ & Hok).
    split; [exact Hpre|]. split; [exact Hx1|]. exact Hok.
  - destruct Hres as [-> Hout]. split; [apply prefix_nil|]. split; [exact Hx1|].
    intros queue' visited' Hq. congruence.
  - destruct Hres as [-> Hout]. split; [apply prefix_nil|]. split; [exact Hx1|].
    intros queue' visited' Hq. congruence.
Qed.

Lemma walk_listed (fuel lfuel : nat) :
  forall (queue : list string) (visited : gset string) (st : state World),
  let out := walk random_random svc new_time recursive dry_run fuel lfuel
               queue visited st in
  exists evs,
    trace (snd out) = trace st ++ evs /\
    mutations evs `prefix_of` child_ids (listed evs) /\
    forall final,
      fst out = Ok final ->
      mutations evs = child_ids (listed evs) /\
      Forall (fun c : dict => is_Some (c !! "id")) (listed evs).
Proof.
  induction fuel as [|fuel IH]; intros queue visited st out; subst out.
  - destruct queue as [|c queue]; cbn.
    + exists []. rewrite app_nil_r. split; [reflexivity|]. split; [done|].
      intros final _. split; [reflexivity | constructor].
    + exists []. rewrite app_nil_r. split; [reflexivity|]. split; [done|]. discriminate.
  - destruct queue as [|c queue].
    { exists []. cbn. rewrite app_nil_r. split; [reflexivity|]. split; [done|].
      intros final _. split; [reflexivity | constructor]. }
    cbn [walk]. unfold bind.
    destruct (decide (c ∈ visited)) as [Hin|Hnin].
    + rewrite walk_step_visited by assumption. cbn [fst snd]. apply IH.
    + destruct (walk_step_listed lfuel c queue visited st Hnin)
        as (evs & Htr & Hpre & _ & Hok).
      destruct (walk_step random_random svc new_time recursive dry_run lfuel c
                  queue visited st) as [[[queue' visited']|e|] st1];
        cbn [fst snd] in *.
      * destruct (Hok queue' visited' eq_refl) as (_ & Hm & Hids & _).
        destruct (IH queue' visited' st1) as (evs' & Htr' & Hpre' & Hok').
        exists (evs ++ evs'). rewrite Htr', Htr, <- app_assoc.
        split; [reflexivity|].
        rewrite mutations_app, listed_app, child_ids_app, Hm.
        split; [by apply prefix_app|].
        intros final Hf. destruct (Hok' final Hf) as [Hm' Hids'].
        split; [by rewrite Hm'|]. by apply Forall_app.
      * exists evs. split; [exact Htr|]. split; [exact Hpre|]. discriminate.
      * exists evs. split; [exact Htr|]. split; [exact Hpre|]. discriminate.
Qed.

End Listed.

(** X2.  The objects a run hands to the mutator are the root and then the
    objects the service listed, in the order it listed them: of any run they
    are a first part of that sequence, and a run that returns has handed
    over every object any list call answered, each of which had an [id]. *)
Theorem mutated_as_listed {World : Type}
    (random_random : World -> spec_float * World) (svc : service World)
    (new_time : string) (recursive dry_run : bool) (fuel lfuel : nat)
    (folder_id : string) (w : World) :
  let out := update_folder_and_contents random_random svc new_time recursive
               dry_run fuel lfuel folder_id (start w) in
  let tr := trace (snd out) in
  mutations tr `prefix_of` folder_id :: child_ids (listed tr) /\
  (forall final, fst out = Ok final ->
     mutations tr = folder_id :: child_ids (listed tr) /\
     Forall (fun c : dict => is_Some (c !! "id")) (listed tr)).
Proof.
  intros out tr. subst tr out.
  unfold update_folder_and_contents, bind.
  destruct (update_one_events random_random svc new_time dry_run folder_id (start w))
    as (evs0 & Htr0 & Hm0 & Hnl0 & _).
  cbn [start trace app] in Htr0.
  pose proof (listed_none evs0 Hnl0) as Hl0.
  destruct (update_one random_random svc new_time dry_run folder_id (start w))
    as [[resp|e|] st1]; cbn [fst snd] in *.
  - destruct (walk_listed random_random svc new_time recursive dry_run fuel lfuel
                [folder_id] ∅ st1) as (evs & Htr & Hpre & Hok).
    rewrite Htr, Htr0, mutations_app, listed_app, Hm0, Hl0. cbn [app].
    split; [by apply prefix_cons|].
    intros final Hf. destruct (Hok final Hf) as [-> Hids]. done.
  - rewrite Htr0, Hm0, Hl0. cbn. split; [done | discriminate].
  - rewrite Htr0, Hm0, Hl0. cbn. split; [done | discriminate].
Qed.

Lemma retry_run_raises file_id body fields left attempt evs r :
  retry_run file_id body fields left attempt evs r ->
  forall e, r = Raise e -> forall key, e <> KeyError key.
Proof.
  induction 1; intros e' Hr key; try discriminate; try (by eapply IHretry_run).
  - inversion Hr. discriminate.
  - inversion Hr. destruct e as [status|what]; discriminate.
  - inversion Hr. discriminate.
Qed.

Section MissingId.
Context {World : Type}.
Variable random_random : World -> spec_float * World.
Variable svc : service World.
Variables (new_time : string) (recursive dry_run : bool).

Lemma update_one_raises (file_id : string) (st : state World) (e : exn) :
  fst (update_one random_random svc new_time dry_run file_id st) = Raise e ->
  forall key, e <> KeyError key.
Proof.
  unfold update_one, retryable_update. destruct dry_run; [discriminate|].
  destruct (attempts_run random_random svc file_id (body_of new_time) FIELDS
              (Z.to_nat DEFAULT_RETRIES) 0 st) as (evs & _ & Hrun).
  intros Hr. eapply retry_run_raises; eassumption.
Qed.

Lemma visit_child_raises (queue : list string) (c : dict) (st : state World)
    (e : exn) :
  is_Some (c !! "id") ->
  fst (visit_child random_random svc new_time recursive dry_run queue c st)
    = Raise e ->
  forall key, e <> KeyError key.
Proof.
  intros [cid Hid]. unfold visit_child. rewrite Hid. unfold bind.
  destruct (String.eqb _ FOLDER_MIME);
    destruct (update_one random_random svc new_time dry_run cid st)
      as [[resp|e'|] st1] eqn:Hu; cbn [fst];
    try (destruct recursive; discriminate); try discriminate.
  all: intros Hr; inversion Hr; subst e'.
  all: apply (update_one_raises cid st); by rewrite Hu.
Qed.

Lemma for_children_missing_id (pre : list dict) (c : dict) (post : list dict) :
  c !! "id" = None ->
  Forall (fun p : dict => is_Some (p !! "id")) pre ->
  forall (queue : list string) (st : state World),
  let out := for_children random_random svc new_time recursive dry_run
               (pre ++ c :: post) queue st in
  exists e evs,
    fst out = Raise e /\
    trace (snd out) = trace st ++ evs /\
    mutations evs `prefix_of` child_ids pre /\
    (e = KeyError "id" /\ mutations evs = child_ids pre \/
     forall key, e <> KeyError key).
Proof.
  intros Hc Hpre. induction Hpre as [|p pre Hp _ IH]; intros queue st out; subst out.
  - cbn [app for_children]. unfold bind, visit_child. rewrite Hc. cbn.
    exists (KeyError "id"), []. rewrite app_nil_r.
    split; [reflexivity|]. split; [reflexivity|]. split; [done|]. by left.
  - change ((p :: pre) ++ c :: post) with (p :: (pre ++ c :: post)).
    cbn [for_children]. unfold bind.
    destruct (visit_child_events random_random svc new_time recursive dry_run
                queue p st) as (evs0 & Htr0 & _ & Hm0 & Hnd & _).
    pose proof (visit_child_raises queue p st) as Hr.
    destruct (visit_child random_random svc new_time recursive dry_run queue p st)
      as [[queue'|e|] st1]; cbn [fst snd] in *.
    + destruct (IH queue' st1) as (e & evs & He & Htr & Hm & Hwhy).
      exists e, (evs0 ++ evs). split; [exact He|].
      split; [by rewrite Htr, Htr0, <- app_assoc|].
      rewrite mutations_app, Hm0.
      change (child_ids (p :: pre)) with (child_ids ([p] ++ pre)).
      rewrite child_ids_app.
      split; [by apply prefix_app|].
      destruct Hwhy as [[-> ->]|Hk]; [by left | by right].
    + exists e, evs0. split; [reflexivity|]. split; [exact Htr0|].
      rewrite Hm0. change (child_ids (p :: pre)) with (child_ids ([p] ++ pre)).
      rewrite child_ids_app.
      split; [by apply prefix_app_r|]. right. by apply Hr.
    + congruence.
Qed.

End MissingId.

Lemma for_children_dry_missing_id {World : Type}
    (random_random : World -> spec_float * World) (svc : service World)
    (new_time : string) (recursive : bool) (pre : list dict) (c : dict)
    (post : list dict) :
  c !! "id" = None ->
  Forall (fun p : dict => is_Some (p !! "id")) pre ->
  forall (queue : list string) (st : state World),
    fst (for_children random_random svc new_time recursive true
           (pre ++ c :: post) queue st) = Raise (KeyError "id").
Proof.
  intros Hc Hpre. induction Hpre as [|p pre [cid Hp] _ IH]; intros queue st.
  - cbn [app for_children]. unfold bind. rewrite visit_child_dry, Hc. reflexivity.
  - change ((p :: pre) ++ c :: post) with (p :: (pre ++ c :: post)).
    cbn [for_children]. unfold bind. rewrite visit_child_dry, Hp. apply IH.
Qed.

(** X3.  A listed object without an [id] stops the loop over the children:
    the objects before it are handed to the mutator, it and the objects
    after it are not, and the loop raises.  What is raised is
    [KeyError('id')], with all the objects before it handed over, unless an
    update of one of them failed first; in a dry run it is always
    [KeyError('id')]. *)
Theorem missing_id_is_KeyError {World : Type}
    (random_random : World -> spec_float * World) (svc : service World)
    (new_time : string) (recursive dry_run : bool)
    (pre : list dict) (c : dict) (post : list dict)
    (queue : list string) (st : state World) :
  c !! "id" = None ->
  Forall (fun p : dict => is_Some (p !! "id")) pre ->
  let out := for_children random_random svc new_time recursive dry_run
               (pre ++ c :: post) queue st in
  exists e evs,
    fst out = Raise e /\
    trace (snd out) = trace st ++ evs /\
    mutations evs `prefix_of` child_ids pre /\
    (e = KeyError "id" /\ mutations evs = child_ids pre \/
     forall key, e <> KeyError key) /\
    (dry_run = true -> e = KeyError "id").
Proof.
  intros Hc Hpre out. subst out.
  destruct (for_children_missing_id random_random svc new_time recursive dry_run
              pre c post Hc Hpre queue st) as (e & evs & He & Htr & Hm & Hwhy).
  exists e, evs. split; [exact He|]. split; [exact Htr|]. split; [exact Hm|].
  split; [exact Hwhy|].
  intros ->.
  rewrite (for_children_dry_missing_id random_random svc new_time recursive
             pre c post Hc Hpre queue st) in He.
  by inversion He.
Qed.

Lemma missing_id_is_KeyError_witness :
  exists e evs,
    fst (for_children Scripted.random Scripted.svc "2025-10-20T09:20:25Z" true false
           ([Scripted.file "a"] ++ {[ "name" := "nameless" ]} :: [Scripted.file "b"])
           [] (start (Scripted.drive Scripted.no_files))) = Raise e /\
    e = KeyError "id" /\
    mutations evs = ["a"].
Proof.
  destruct (missing_id_is_KeyError Scripted.random Scripted.svc
              "2025-10-20T09:20:25Z" true false
              [Scripted.file "a"] {[ "name" := "nameless" ]} [Scripted.file "b"]
              [] (start (Scripted.drive Scripted.no_files)))
    as (e & evs & He & Htr & Hm & Hwhy & _).
  - reflexivity.
  - repeat constructor. by eexists.
  - exists e, evs. split; [exact He|].
    assert (Hk : e = KeyError "id").
    { vm_compute in He. by inversion He. }
    split; [exact Hk|].
    destruct Hwhy as [[_ Hall]|Hno]; [exact Hall | by destruct (Hno "id")].
Defined.

#[local] Set Warnings "-clear-no-such-hyp".

Lemma enqueued_app recursive (a b : list dict) :
  enqueued recursive (a ++ b) = enqueued recursive a ++ enqueued recursive b.
Proof.
  unfold enqueued. destruct recursive; [|reflexivity].
  by rewrite List.filter_app, child_ids_app.
Qed.

Lemma enqueued_nil recursive : enqueued recursive [] = [].
Proof. by destruct recursive. Qed.

Lemma elem_of_enqueued recursive (l : list dict) (x : string) :
  x ∈ enqueued recursive l <->
  recursive = true /\ x ∈ child_ids (List.filter is_folder l).
Proof.
  unfold enqueued. destruct recursive.
  - split; [by intros H | by intros [_ H]].
  - split; [by intros H%elem_of_nil | by intros [H _]].
Qed.

Section Folders.
Context {World : Type}.
Variable random_random : World -> spec_float * World.
Variable svc : service World.
Variables (new_time : string) (recursive dry_run : bool).

Lemma walk_step_no_fuel (current_folder : string) (queue : list string)
    (visited : gset string) (st : state World) :
  current_folder ∉ visited ->
  walk_step random_random svc new_time recursive dry_run 0 current_folder
    queue visited st = (Diverge, st).
Proof.
  intros Hv. by rewrite walk_step_unfold.
Qed.

Lemma walk_folders (fuel lfuel : nat) :
  forall (queue : list string) (visited : gset string) (st : state World),
  let out := walk random_random svc new_time recursive dry_run fuel lfuel
               queue visited st in
  exists evs,
    trace (snd out) = trace st ++ evs /\
    (forall x, x ∈ expansions evs ->
       x ∈ queue \/ x ∈ enqueued recursive (listed evs)) /\
    forall final,
      fst out = Ok final ->
      (forall x, x ∈ final <-> x ∈ visited \/ x ∈ expansions evs) /\
      (forall x, x ∈ final <->
         x ∈ visited \/ x ∈ queue \/ x ∈ enqueued recursive (listed evs)).
Proof.
  induction fuel as [|fuel IH]; intros queue visited st out; subst out.
  - destruct queue as [|c queue]; cbn.
    + exists []. rewrite app_nil_r. split; [reflexivity|].
      split; [by intros x H%elem_of_nil|].
      intros final Hf. cbn in Hf. inversion Hf; subst final.
      split; intros x; cbn; rewrite ?enqueued_nil; set_solver.
    + exists []. rewrite app_nil_r. split; [reflexivity|].
      split; [by intros x H%elem_of_nil | discriminate].
  - destruct queue as [|c queue].
    { exists []. cbn. rewrite app_nil_r. split; [reflexivity|].
      split; [by intros x H%elem_of_nil|].
      intros final Hf. cbn in Hf. inversion Hf; subst final.
      split; intros x; cbn; rewrite ?enqueued_nil; set_solver. }
    cbn [walk]. unfold bind.
    destruct (decide (c ∈ visited)) as [Hin|Hnin].
    + rewrite walk_step_visited by assumption. cbn [fst snd].
      destruct (IH queue visited st) as (evs & Htr & Hsound & Hok).
      exists evs. split; [exact Htr|].
      split.
      * intros x Hx. destruct (Hsound x Hx); [left; set_solver | by right].
      * intros final Hf. destruct (Hok final Hf) as [H1 H2].
        split; [exact H1|]. intros x. rewrite H2. set_solver.
    + destruct (walk_step_listed random_random svc new_time recursive dry_run
                  lfuel c queue visited st Hnin) as (evs1 & Htr1 & _ & Hx1 & Hok1).
      pose proof (walk_step_no_fuel c queue visited st Hnin) as Hzero.
      destruct (walk_step random_random svc new_time recursive dry_run lfuel c
                  queue visited st) as [[[queue' visited']|e|] st1] eqn:Hstep;
        cbn [fst snd] in *.
      * destruct (Hok1 queue' visited' eq_refl) as (-> & _ & _ & ->).
        assert (Hc : expansions evs1 = [c]).
        { destruct lfuel; [|exact Hx1]. rewrite Hzero in Hstep. discriminate. }
        destruct (IH (queue ++ enqueued recursive (listed evs1))
                    (visited ∪ {[ c ]}) st1) as (evs2 & Htr2 & Hsound & Hok).
        exists (evs1 ++ evs2). rewrite Htr2, Htr1, <- app_assoc.
        split; [reflexivity|].
        rewrite expansions_app, listed_app, enqueued_app, Hc.
        split.
        -- intros x Hx. apply elem_of_app in Hx as [Hx|Hx]; [left; set_solver|].
           destruct (Hsound x Hx) as [Hq|He]; [|right; set_solver].
           apply elem_of_app in Hq as [Hq|Hq]; [left; set_solver | right; set_solver].
        -- intros final Hf. destruct (Hok final Hf) as [H1 H2].
           split; intros x; [rewrite H1 | rewrite H2]; set_solver.
      * exists evs1. split; [exact Htr1|]. split; [|discriminate].
        intros x Hx. left. destruct lfuel; rewrite Hx1 in Hx; set_solver.
      * exists evs1. split; [exact Htr1|]. split; [|discriminate].
        intros x Hx. left. destruct lfuel; rewrite Hx1 in Hx; set_solver.
Qed.

End Folders.

(** X4.  Only the root and, in a recursive run, listed objects whose
    [mimeType] is the folder type are ever expanded: an object of another
    type, or without [mimeType], is never listed from.  A run that returns
    has expanded exactly these: its visited set is the set of the containers
    it expanded, which is the root together with, when recursive, every
    listed folder. *)
Theorem expands_root_and_folders {World : Type}
    (random_random : World -> spec_float * World) (svc : service World)
    (new_time : string) (recursive dry_run : bool) (fuel lfuel : nat)
    (folder_id : string) (w : World) :
  let out := update_folder_and_contents random_random svc new_time recursive
               dry_run fuel lfuel folder_id (start w) in
  let tr := trace (snd out) in
  (forall x, x ∈ expansions tr ->
     x = folder_id \/ (recursive = true /\ x ∈ listed_folders tr)) /\
  (forall final, fst out = Ok final ->
     (forall x, x ∈ final <-> x ∈ expansions tr) /\
     (forall x, x ∈ final <->
        x = folder_id \/ (recursive = true /\ x ∈ listed_folders tr))).
Proof.
  intros out tr. subst tr out.
  unfold update_folder_and_contents, bind, listed_folders.
  destruct (update_one_events random_random svc new_time dry_run folder_id (start w))
    as (evs0 & Htr0 & _ & Hnl0 & _).
  cbn [start trace app] in Htr0.
  pose proof (listed_none evs0 Hnl0) as Hl0.
  destruct (not_list_events evs0 Hnl0) as (_ & Hx0 & _).
  destruct (update_one random_random svc new_time dry_run folder_id (start w))
    as [[resp|e|] st1]; cbn [fst snd] in *.
  - destruct (walk_folders random_random svc new_time recursive dry_run fuel lfuel
                [folder_id] ∅ st1) as (evs & Htr & Hsound & Hok).
    rewrite Htr, Htr0, expansions_app, listed_app, Hx0, Hl0. cbn [app].
    split.
    + intros x Hx. destruct (Hsound x Hx) as [Hq|He]; [left; set_solver|].
      right. by apply elem_of_enqueued.
    + intros final Hf. destruct (Hok final Hf) as [H1 H2].
      split; intros x; [rewrite H1 | rewrite H2, elem_of_enqueued]; set_solver.
  - rewrite Htr0, Hx0. split; [by intros x H%elem_of_nil | discriminate].
  - rewrite Htr0, Hx0. split; [by intros x H%elem_of_nil | discriminate].
Qed.

#[local] Set Warnings "-clear-no-such-hyp".

Section Terminates.
Context {World : Type}.
Variable random_random : World -> spec_float * World.
Variable svc : service World.
Variables (new_time : string) (recursive dry_run : bool).
Variable Inv : World -> Prop.
Variable folders : gset string.
Variables (most lfuel : nat).
Hypothesis Inv_update : forall w file_id body fields,
  Inv w -> Inv (snd (files_update svc file_id body fields w)).
Hypothesis Inv_random : forall w, Inv w -> Inv (snd (random_random w)).
Hypothesis Inv_list : forall (parent_id : string) (st : state World),
  Inv (world st) ->
  let out := list_children lfuel svc parent_id st in
  fst out <> Diverge /\ Inv (world (snd out)) /\
  forall children, fst out = Ok children ->
    (length (enqueued recursive children) <= most)%nat /\
    forall x, x ∈ enqueued recursive children -> x ∈ folders.

Lemma update_one_inv (file_id : string) (st : state World) :
  Inv (world st) ->
  Inv (world (snd (update_one random_random svc new_time dry_run file_id st))).
Proof.
  intros Hinv. unfold update_one, retryable_update. destruct dry_run; [exact Hinv|].
  apply (attempts_related random_random svc (fun _ w => Inv w)
           (fun _ w2 file_id body fields H => Inv_update w2 file_id body fields H)
           (fun _ w2 H => Inv_random w2 H)
           file_id (body_of new_time) FIELDS (Z.to_nat DEFAULT_RETRIES) 0
           (world st) st Hinv).
Qed.

Lemma for_children_inv (children : list dict) :
  forall (queue : list string) (st : state World),
    Inv (world st) ->
    Inv (world (snd (for_children random_random svc new_time recursive dry_run
                       children queue st))).
Proof.
  induction children as [|c children IH]; intros queue st Hinv; [exact Hinv|].
  cbn [for_children]. unfold bind.
  assert (Hv : Inv (world (snd (visit_child random_random svc new_time recursive
                                  dry_run queue c st)))).
  { unfold visit_child. destruct (c !! "id") as [cid|]; [|exact Hinv].
    unfold bind. pose proof (update_one_inv cid st Hinv) as Hu.
    destruct (String.eqb _ FOLDER_MIME);
      destruct (update_one random_random svc new_time dry_run cid st)
        as [[resp|e|] st1]; try exact Hu; destruct recursive; exact Hu. }
  destruct (visit_child random_random svc new_time recursive dry_run queue c st)
    as [[queue'|e|] st1]; cbn [fst snd] in *; try exact Hv.
  by apply IH.
Qed.

Lemma size_fresh (visited : gset string) (c : string) :
  c ∈ folders -> c ∉ visited ->
  size (folders ∖ visited) = S (size (folders ∖ (visited ∪ {[ c ]}))).
Proof.
  intros Hc Hv.
  replace (folders ∖ visited) with ({[ c ]} ∪ folders ∖ (visited ∪ {[ c ]})).
  - rewrite size_union by set_solver. by rewrite size_singleton.
  - apply leibniz_equiv. intros x. destruct (decide (x = c)); set_solver.
Qed.

Lemma walk_ends (fuel : nat) :
  forall (queue : list string) (visited : gset string) (st : state World),
    Inv (world st) ->
    (forall x, x ∈ queue -> x ∈ folders) ->
    (length queue + most * size (folders ∖ visited) <= fuel)%nat ->
    fst (walk random_random svc new_time recursive dry_run fuel lfuel
           queue visited st) <> Diverge.
Proof.
  induction fuel as [|fuel IH]; intros queue visited st Hinv Hq Hfuel.
  - destruct queue as [|c queue]; [discriminate|]. cbn in Hfuel. lia.
  - destruct queue as [|c queue]; [discriminate|].
    cbn [walk]. unfold bind. cbn [length] in Hfuel.
    destruct (decide (c ∈ visited)) as [Hin|Hnin].
    + rewrite walk_step_visited by assumption. cbn [fst snd].
      apply IH; [exact Hinv | set_solver | lia].
    + rewrite walk_step_unfold by assumption.
      destruct (Inv_list c st Hinv) as (Hnd & Hinv1 & Hbound).
      destruct (list_children lfuel svc c st) as [[children|e|] st1];
        cbn [fst snd] in *; [|discriminate|congruence].
      destruct (Hbound children eq_refl) as [Hlen Hin].
      pose proof (for_children_inv children queue st1 Hinv1) as Hinv2.
      destruct (for_children_events random_random svc new_time recursive dry_run
                  children queue st1) as (evs & _ & _ & _ & Hnd2 & Hok).
      destruct (for_children random_random svc new_time recursive dry_run
                  children queue st1) as [[queue'|e|] st2];
        cbn [fst snd] in *; [|discriminate|congruence].
      destruct (Hok queue' eq_refl) as (_ & _ & ->).
      apply IH; [exact Hinv2| |].
      * intros x Hx. apply elem_of_app in Hx as [Hx|Hx]; [set_solver | by apply Hin].
      * rewrite length_app.
        rewrite (size_fresh visited c) in Hfuel by set_solver. nia.
Qed.

End Terminates.

(** X5.  The loop comes to an end when there are finitely many folders.  Let
    [Inv] hold of the worlds the run goes through, and from such a world let
    the listing of any container end within [lfuel] pages and put on the
    queue at most [most] ids, all of them in the finite set [folders], which
    holds the root.  Then [1 + most * size folders] turns of the loop are
    enough: the run returns or raises, also when folders are listed under
    each other in a cycle. *)
Theorem traversal_terminates {World : Type}
    (random_random : World -> spec_float * World) (svc : service World)
    (new_time : string) (recursive dry_run : bool)
    (Inv : World -> Prop) (folders : gset string) (most fuel lfuel : nat)
    (folder_id : string) (w : World) :
  (forall w file_id body fields,
     Inv w -> Inv (snd (files_update svc file_id body fields w))) ->
  (forall w, Inv w -> Inv (snd (random_random w))) ->
  (forall (parent_id : string) (st : state World),
     Inv (world st) ->
     let out := list_children lfuel svc parent_id st in
     fst out <> Diverge /\ Inv (world (snd out)) /\
     forall children, fst out = Ok children ->
       (length (enqueued recursive children) <= most)%nat /\
       forall x, x ∈ enqueued recursive children -> x ∈ folders) ->
  Inv w ->
  folder_id ∈ folders ->
  (1 + most * size folders <= fuel)%nat ->
  fst (update_folder_and_contents random_random svc new_time recursive dry_run
         fuel lfuel folder_id (start w)) <> Diverge.
Proof.
  intros Hu Hr Hl Hw Hroot Hfuel.
  unfold update_folder_and_contents, bind.
  pose proof (update_one_inv random_random svc new_time dry_run Inv Hu Hr
                folder_id (start w) Hw) as Hinv.
  destruct (update_one_events random_random svc new_time dry_run folder_id (start w))
    as (_ & _ & _ & _ & Hnd).
  destruct (update_one random_random svc new_time dry_run folder_id (start w))
    as [[resp|e|] st1]; cbn [fst snd] in *; [|discriminate|congruence].
  apply (walk_ends random_random svc new_time recursive dry_run Inv folders most
           lfuel Hu Hr Hl); [exact Hinv | set_solver |].
  cbn [length]. replace (folders ∖ ∅) with folders by set_solver. lia.
Qed.

Lemma traversal_terminates_witness :
  fst (update_folder_and_contents Scripted.random Scripted.svc
         "2025-10-20T09:20:25Z" true false 3 1 "R"
         (start (Scripted.drive Scripted.cycle))) <> Diverge.
Proof.
  apply (traversal_terminates Scripted.random Scripted.svc "2025-10-20T09:20:25Z"
           true false (fun w => Scripted.listing w = Scripted.cycle)
           {[ "R"; "A" ]} 1 3 1 "R" (Scripted.drive Scripted.cycle)).
  - intros w file_id body fields H. cbn. unfold Scripted.do_update.
    destruct (Scripted.updates w); exact H.
  - intros w H. unfold Scripted.random. destruct (Scripted.randoms w); exact H.
  - intros parent_id st H. unfold list_children. cbn [list_children_loop].
    unfold bind, call, emit, ret, raise. cbn. unfold Scripted.do_list. rewrite H.
    unfold Scripted.cycle.
    destruct (String.eqb parent_id "R"); [|destruct (String.eqb parent_id "A")];
      cbn; (split; [discriminate|]); (split; [exact H|]);
      intros children Hc; inversion Hc; subst children;
      (split; [vm_compute; lia|]); vm_compute; set_solver.
  - reflexivity.
  - set_solver.
  - vm_compute. lia.
Defined.

Lemma fails_last_raised {A B : Type} (evs : list event) (r : result A) (r' : result B) :
  raised r = raised r' -> fails_last evs r -> fails_last evs r'.
Proof.
  intros Hr [Hc|(evs' & ev & e & -> & Hc & Hf & He)]; [by left|].
  right. exists evs', ev, e. by rewrite <- Hr.
Qed.

Lemma fails_last_cons {A : Type} (ev : event) (evs : list event) (r : result A) :
  failure_of ev = None -> fails_last evs r -> fails_last (ev :: evs) r.
Proof.
  intros Hev [Hc|(evs' & ev' & e & -> & Hc & Hf & He)].
  - left. by constructor.
  - right. exists (ev :: evs'), ev', e. split; [reflexivity|].
    split; [by constructor | done].
Qed.

Lemma fails_last_app {A : Type} (evs1 evs2 : list event) (r : result A) :
  clean evs1 -> fails_last evs2 r -> fails_last (evs1 ++ evs2) r.
Proof.
  induction 1 as [|ev evs1 Hev _ IH]; intros H; [exact H|].
  cbn [app]. apply fails_last_cons; [exact Hev | by apply IH].
Qed.

Lemma fails_last_Ok {A : Type} (evs : list event) (a : A) :
  fails_last evs (Ok a) -> clean evs.
Proof. intros [Hc|(evs' & ev & e & _ & _ & _ & He)]; [exact Hc | discriminate]. Qed.

Lemma retry_run_fails_last file_id body fields left attempt evs r :
  retry_run file_id body fields left attempt evs r -> fails_last evs r.
Proof.
  induction 1.
  - left. constructor.
  - left. repeat constructor.
  - right. exists [], (EvUpdate file_id body fields attempt (Fails e)), e.
    split; [reflexivity|]. split; [constructor|]. split; [|reflexivity].
    cbn [failure_of]. by rewrite H.
  - apply fails_last_cons; [cbn; by rewrite H|].
    apply fails_last_cons; [reflexivity|].
    apply fails_last_cons; [reflexivity|]. exact IHretry_run.
  - left. constructor; [cbn; by rewrite H|]. repeat constructor.
Qed.

Lemma paging_fails_last parent_id fuel page_token children evs r :
  paging parent_id fuel page_token children evs r -> fails_last evs r.
Proof.
  induction 1.
  - left. constructor.
  - right. exists [], (EvList parent_id page_token (Fails e)), e.
    split; [reflexivity|]. split; [constructor|]. split; reflexivity.
  - left. repeat constructor.
  - apply fails_last_cons; [reflexivity | exact IHpaging].
Qed.

Section FailsLast.
Context {World : Type}.

Lemma stops_ret {A : Type} (a : A) : stops_at_failure (ret a : M World A).
Proof. intros st. exists []. cbn. rewrite app_nil_r. split; [reflexivity|]. left. constructor. Qed.

Lemma stops_raise {A : Type} (e : exn) : stops_at_failure (raise e : M World A).
Proof. intros st. exists []. cbn. rewrite app_nil_r. split; [reflexivity|]. left. constructor. Qed.

Lemma stops_diverge {A : Type} : stops_at_failure (diverge : M World A).
Proof. intros st. exists []. cbn. rewrite app_nil_r. split; [reflexivity|]. left. constructor. Qed.

Lemma stops_bind {A B : Type} (m : M World A) (k : A -> M World B) :
  stops_at_failure m -> (forall a, stops_at_failure (k a)) ->
  stops_at_failure (bind m k).
Proof.
  intros Hm Hk st. unfold bind.
  destruct (Hm st) as (evs1 & Htr1 & H1).
  destruct (m st) as [[a|e|] st1]; cbn [fst snd] in *.
  - destruct (Hk a st1) as (evs2 & Htr2 & H2).
    exists (evs1 ++ evs2). split; [by rewrite Htr2, Htr1, <- app_assoc|].
    apply fails_last_app; [by eapply fails_last_Ok | exact H2].
  - exists evs1. split; [exact Htr1|]. by eapply fails_last_raised; [|exact H1].
  - exists evs1. split; [exact Htr1|]. by eapply fails_last_raised; [|exact H1].
Qed.

Variable random_random : World -> spec_float * World.
Variable svc : service World.
Variables (new_time : string) (recursive dry_run : bool).

Lemma stops_update_one (file_id : string) :
  stops_at_failure (update_one random_random svc new_time dry_run file_id).
Proof.
  intros st. unfold update_one, retryable_update. destruct dry_run.
  - eexists. split; [reflexivity|]. left. repeat constructor.
  - destruct (attempts_run random_random svc file_id (body_of new_time) FIELDS
                (Z.to_nat DEFAULT_RETRIES) 0 st) as (evs & Htr & Hrun).
    exists evs. split; [exact Htr|]. by eapply retry_run_fails_last.
Qed.

Lemma stops_list_children (lfuel : nat) (parent_id : string) :
  stops_at_failure (list_children lfuel svc parent_id).
Proof.
  intros st.
  destruct (list_children_loop_paging svc parent_id lfuel [] None st)
    as (evs & Htr & Hpag).
  exists evs. split; [exact Htr|]. by eapply paging_fails_last.
Qed.

Lemma stops_for_children (children : list dict) :
  forall queue,
    stops_at_failure (for_children random_random svc new_time recursive dry_run
                        children queue).
Proof.
  induction children as [|c children IH]; intros queue; [apply stops_ret|].
  cbn [for_children]. apply stops_bind; [|exact IH].
  unfold visit_child. destruct (c !! "id") as [cid|]; [|apply stops_raise].
  destruct (String.eqb _ FOLDER_MIME);
    (apply stops_bind; [apply stops_update_one|]); intros _;
    try destruct recursive; apply stops_ret.
Qed.

Lemma stops_walk (fuel lfuel : nat) :
  forall queue visited,
    stops_at_failure (walk random_random svc new_time recursive dry_run fuel lfuel
                        queue visited).
Proof.
  induction fuel as [|fuel IH]; intros queue visited.
  - destruct queue; [apply stops_ret | apply stops_diverge].
  - destruct queue as [|c queue]; [apply stops_ret|].
    cbn [walk]. apply stops_bind; [|intros qv; apply IH].
    unfold walk_step. destruct (decide (c ∈ visited)); [apply stops_ret|].
    apply stops_bind; [apply stops_list_children|]. intros children.
    destruct children; [apply stops_ret|].
    apply stops_bind; [apply stops_for_children|]. intros q. apply stops_ret.
Qed.

Lemma stops_update_folder_and_contents (fuel lfuel : nat) (folder_id : string) :
  stops_at_failure (update_folder_and_contents random_random svc new_time
                      recursive dry_run fuel lfuel folder_id).
Proof.
  unfold update_folder_and_contents.
  apply stops_bind; [apply stops_update_one | intros _; apply stops_walk].
Qed.

End FailsLast.

Lemma fails_last_found {A : Type} (pre post : list event) (ev : event)
    (e : service_error) (r : result A) :
  fails_last (pre ++ ev :: post) r -> failure_of ev = Some e ->
  post = [] /\ r = Raise (exn_of e).
Proof.
  intros [Hc|(evs' & ev' & e' & Heq & Hc & Hf & He)] Hev.
  - apply Forall_app in Hc as [_ Hc]. inversion Hc; subst. congruence.
  - destruct post as [|z post _] using rev_ind.
    + apply app_inj_tail in Heq as [-> ->].
      split; [reflexivity|]. destruct r; try discriminate.
      cbn in He. congruence.
    + rewrite app_comm_cons, app_assoc in Heq.
      apply app_inj_tail in Heq as [<- _].
      apply Forall_app in Hc as [_ Hc]. inversion Hc; subst. congruence.
Qed.

(** X6.  A run stops at the first failure that is not retried, and makes
    no call after it: an update that fails with anything but the status 429,
    500 or 503, or a list call that fails, is the last event of the trace,
    and its error is what the run raises. *)
Theorem no_call_after_failure {World : Type}
    (random_random : World -> spec_float * World) (svc : service World)
    (new_time : string) (recursive dry_run : bool) (fuel lfuel : nat)
    (folder_id : string) (w : World) :
  let out := update_folder_and_contents random_random svc new_time recursive
               dry_run fuel lfuel folder_id (start w) in
  (forall pre post file_id body fields attempt e,
     trace (snd out)
       = pre ++ EvUpdate file_id body fields attempt (Fails e) :: post ->
     transient_answer (Fails e) = false ->
     post = [] /\ fst out = Raise (exn_of e)) /\
  (forall pre post parent_id page_token e,
     trace (snd out) = pre ++ EvList parent_id page_token (Fails e) :: post ->
     post = [] /\ fst out = Raise (exn_of e)).
Proof.
  intros out. subst out.
  destruct (stops_update_folder_and_contents random_random svc new_time recursive
              dry_run fuel lfuel folder_id (start w)) as (evs & Htr & Hlast).
  cbn [start trace app] in Htr. rewrite Htr.
  split.
  - intros pre post file_id body fields attempt e -> Ht.
    eapply fails_last_found; [exact Hlast|]. cbn [failure_of]. by rewrite Ht.
  - intros pre post parent_id page_token e ->.
    eapply fails_last_found; [exact Hlast | reflexivity].
Qed.

(** A run in which the update of the second child is refused with 403. *)
Example refused_update_ends_run :
  let out := update_folder_and_contents Scripted.random Scripted.svc
               "2025-10-20T09:20:25Z" true false 10 10 "R"
               (start {| Scripted.updates :=
                           [Returns ∅; Returns ∅; Scripted.http 403];
                         Scripted.randoms := [];
                         Scripted.listing := Scripted.scenario_tree |}) in
  fst out = Raise (HttpError (Some 403)) /\
  mutations (trace (snd out)) = ["R"; "folderA"; "file1"] /\
  expansions (trace (snd out)) = ["R"].
Proof. vm_compute. repeat split. Qed.

Lemma total_sleep_cons (ev : event) (evs : list event) :
  total_sleep (ev :: evs) =
  match sleep_of ev with
  | Some s => (SF2Q s + total_sleep evs)%Q
  | None => total_sleep evs
  end.
Proof. unfold total_sleep. rewrite sleeps_cons. by destruct (sleep_of ev). Qed.

Lemma retry_run_total file_id body fields left attempt evs r :
  retry_run file_id body fields left attempt evs r ->
  0 <= attempt ->
  Forall unit_float (draws evs) ->
  let k := Z.of_nat (length (sleeps evs)) in
  k <= Z.of_nat left /\
  (inject_Z (2 ^ attempt * (2 ^ k - 1)) <= total_sleep evs)%Q /\
  (total_sleep evs <= inject_Z (2 ^ attempt * (2 ^ k - 1) + k))%Q.
Proof.
  induction 1 as [| | | left attempt status jitter seconds evs r Ht Hs Hrun IH |];
    intros Hlo Hdraws k; subst k.
  1-3, 5: cbn; rewrite Z.mul_0_r; split; [lia|]; split; apply Qle_refl.
  rewrite !draws_cons in Hdraws. cbn [draw_of] in Hdraws.
  apply Forall_cons in Hdraws as [Hj Hdraws].
  destruct (IH ltac:(lia) Hdraws) as (Hk & Hlow & Hhigh).
  rewrite !sleeps_cons, !total_sleep_cons. cbn [sleep_of length].
  set (k := Z.of_nat (length (sleeps evs))) in *.
  pose proof (sleep_for_range attempt jitter seconds Hlo Hs) as Hmax.
  destruct (sleep_for_bounds attempt jitter ltac:(lia) Hj)
    as (s' & Hs' & _ & Hslow & Hshigh).
  rewrite Hs in Hs'. inversion Hs'; subst s'. clear Hs'.
  unfold backoff_base in Hslow, Hshigh. rewrite Z.mul_1_l in Hslow, Hshigh.
  rewrite Nat2Z.inj_succ. fold k.
  assert (Hk0 : 0 <= k) by (subst k; lia).
  rewrite (Z.pow_succ_r 2 k) by assumption.
  rewrite (Z.pow_add_r 2 attempt 1) in Hlow, Hhigh by lia.
  change (2 ^ 1) with 2 in Hlow, Hhigh.
  split; [lia|]. split.
  - replace (2 ^ attempt * (2 * 2 ^ k - 1))
      with (2 ^ attempt + 2 ^ attempt * 2 * (2 ^ k - 1)) by ring.
    rewrite inject_Z_plus. by apply Qplus_le_compat.
  - replace (2 ^ attempt * (2 * 2 ^ k - 1) + Z.succ k)
      with ((2 ^ attempt + 1) + (2 ^ attempt * 2 * (2 ^ k - 1) + k)) by ring.
    rewrite inject_Z_plus. by apply Qplus_le_compat.
Qed.

(** X7.  How long one call of the mutator can wait.  When the draws of
    [random.random()] are in [[0, 1)], the [k] sleeps of a call add up to at
    least [2^k - 1] and at most [2^k - 1 + k] seconds, and [k] is at most
    [max_retries]: with the 5 attempts the program allows, an object is
    given up after at most 36 seconds of sleep. *)
Theorem backoff_total {World : Type} (random_random : World -> spec_float * World)
    (svc : service World) (file_id : string) (body : dict) (fields : string)
    (max_retries : Z) (st : state World) (evs : list event) :
  trace (snd (retryable_update random_random svc file_id body fields false
                max_retries st)) = trace st ++ evs ->
  Forall unit_float (draws evs) ->
  let k := Z.of_nat (length (sleeps evs)) in
  k <= Z.max 0 max_retries /\
  (inject_Z (2 ^ k - 1) <= total_sleep evs)%Q /\
  (total_sleep evs <= inject_Z (2 ^ k - 1 + k))%Q /\
  (max_retries = DEFAULT_RETRIES -> (total_sleep evs <= inject_Z 36)%Q).
Proof.
  intros Htr Hdraws k. unfold retryable_update in Htr.
  destruct (attempts_run random_random svc file_id body fields
              (Z.to_nat max_retries) 0 st) as (evs' & Htr' & Hrun).
  rewrite Htr in Htr'. apply app_inv_head in Htr'. subst evs'.
  destruct (retry_run_total _ _ _ _ _ _ _ Hrun ltac:(lia) Hdraws)
    as (Hk & Hlow & Hhigh).
  fold k in Hk, Hlow, Hhigh.
  rewrite Z.pow_0_r, Z.mul_1_l in Hlow, Hhigh.
  split; [lia|]. split; [exact Hlow|]. split; [exact Hhigh|].
  intros ->. eapply Qle_trans; [exact Hhigh|].
  rewrite <- Zle_Qle. unfold DEFAULT_RETRIES in Hk.
  assert (Hcases : k = 0 \/ k = 1 \/ k = 2 \/ k = 3 \/ k = 4 \/ k = 5) by lia.
  destruct Hcases as [->|[->|[->|[->|[->| ->]]]]]; vm_compute; discriminate.
Qed.

Lemma backoff_total_witness :
  let evs :=
    [EvUpdate "f" (body_of "t") FIELDS 0 (Scripted.http 429);
     EvRandom Scripted.half; EvSleep (S754_finite false 6755399441055744 (-52));
     EvUpdate "f" (body_of "t") FIELDS 1 (Scripted.http 503);
     EvRandom Scripted.below_one; EvSleep (S754_finite false 6755399441055744 (-51));
     EvUpdate "f" (body_of "t") FIELDS 2 (Returns ∅)] in
  (inject_Z (2 ^ 2 - 1) <= total_sleep evs)%Q /\
  (total_sleep evs <= inject_Z (2 ^ 2 - 1 + 2))%Q.
Proof.
  intros evs.
  destruct (backoff_total Scripted.random Scripted.svc "f" (body_of "t") FIELDS 5
              (start (Scripted.answering
                        [Scripted.http 429; Scripted.http 503]
                        [Scripted.half; Scripted.below_one])) evs)
    as (_ & Hlow & Hhigh & _).
  - reflexivity.
  - repeat constructor; vm_compute; congruence.
  - split; [exact Hlow | exact Hhigh].
Defined.

Section MainFacts.
Context {World Creds : Type}.
Variable env : Env.t World Creds.

Lemma build_service_trace (credentials_path : string) (st : state World) :
  trace (snd (build_service env credentials_path st)) = trace st.
Proof.
  unfold build_service. destruct (String.eqb credentials_path ""); [reflexivity|].
  destruct (Env.os_path_isfile env credentials_path (world st)) as [[] w1];
    cbn [negb]; [|reflexivity].
  destruct (Env.from_service_account_file env credentials_path SCOPES w1)
    as [[creds|e] w2]; [|reflexivity].
  by destruct (Env.build env "drive" "v3" creds w2) as [[service|e] w3].
Qed.

Lemma credentials_path_of_trace (args : Namespace.t) (st : state World) :
  trace (snd (credentials_path_of env args st)) = trace st.
Proof.
  unfold credentials_path_of. destruct (truthy (Namespace.credentials args));
    [reflexivity|].
  by destruct (Env.os_getenv env "GOOGLE_APPLICATION_CREDENTIALS" (world st)).
Qed.

(** [main] either leaves before the traversal, with the trace as it was, or
    is the traversal for the arguments of the command line, which were
    found valid, on the service that was built. *)
Lemma main_shape (fuel lfuel : nat) (st : state World) :
  let out := main env fuel lfuel st in
  (trace (snd out) = trace st /\ fst out <> POk tt /\ fst out <> PDiverge /\
   forall e, fst out = PRaise e -> is_Exception env e = false) \/
  exists args w0 cred_path st1 service st2,
    Env.parse_args env (world st) = (inl args, w0) /\
    validate_rfc3339 (Namespace.modified_time args) = true /\
    credentials_path_of env args (moved st w0) = (Some cred_path, st1) /\
    cred_path <> "" /\
    build_service env cred_path st1 = (POk service, st2) /\
    trace st2 = trace st /\
    out = run_traversal env service args fuel lfuel st2.
Proof.
  intros out. subst out. unfold main.
  destruct (Env.parse_args env (world st)) as [[args|code] w0].
  2:{ left. cbn. split; [reflexivity|]. split; [discriminate|].
      split; [discriminate|]. by intros e [= <-]. }
  destruct (validate_rfc3339 (Namespace.modified_time args)) eqn:Hv; cbn [negb].
  2:{ left. cbn. split; [reflexivity|]. split; [discriminate|].
      split; [discriminate|]. by intros e [= <-]. }
  pose proof (credentials_path_of_trace args (moved st w0)) as Htr1.
  destruct (credentials_path_of env args (moved st w0)) as [cred_path st1] eqn:Hc.
  cbn [snd moved trace] in Htr1.
  destruct (truthy cred_path) eqn:Ht; cbn [negb].
  2:{ left. cbn [fst snd]. split; [exact Htr1|]. split; [discriminate|].
      split; [discriminate|]. by intros e [= <-]. }
  destruct cred_path as [p|]; [|discriminate].
  change (default "" (Some p)) with p.
  pose proof (build_service_trace p st1) as Htr2.
  destruct (build_service env p st1) as [[service|e|] st2] eqn:Hb; cbn [snd] in Htr2.
  - right. exists args, w0, p, st1, service, st2.
    split; [reflexivity|]. split; [exact Hv|]. split; [exact Hc|].
    split; [intros ->; discriminate|]. split; [exact Hb|].
    split; [congruence | reflexivity].
  - left. destruct (is_Exception env e) eqn:He; cbn [fst snd].
    + split; [congruence|]. split; [discriminate|]. split; [discriminate|].
      by intros e' [= <-].
    + split; [congruence|]. split; [discriminate|]. split; [discriminate|].
      by intros e' [= <-].
  - exfalso. unfold build_service in Hb.
    destruct (String.eqb p ""); [discriminate|].
    destruct (Env.os_path_isfile env p (world st1)) as [[] w1];
      cbn [negb] in Hb; [|discriminate].
    destruct (Env.from_service_account_file env p SCOPES w1)
      as [[creds|e] w2]; [|discriminate].
    by destruct (Env.build env "drive" "v3" creds w2) as [[service|e] w3].
Qed.

End MainFacts.
Section MainRuns.
Context {World Creds : Type}.
Variable env : Env.t World Creds.

Lemma build_service_raises (credentials_path : string) (st : state World)
    (e : py_exn) :
  fst (build_service env credentials_path st) = PRaise e ->
  forall code, e <> SystemExit code.
Proof.
  unfold build_service. destruct (String.eqb credentials_path "").
  { intros [= <-]. discriminate. }
  destruct (Env.os_path_isfile env credentials_path (world st)) as [[] w1];
    cbn [negb]; [|intros [= <-]; discriminate].
  destruct (Env.from_service_account_file env credentials_path SCOPES w1)
    as [[creds|e1] w2]; [|intros [= <-]; discriminate].
  destruct (Env.build env "drive" "v3" creds w2) as [[service|e2] w3];
    [discriminate | intros [= <-]; discriminate].
Qed.

Lemma run_traversal_snd (service : service World) (args : Namespace.t)
    (fuel lfuel : nat) (st : state World) :
  snd (run_traversal env service args fuel lfuel st) =
  snd (update_folder_and_contents (Env.random_random env) service
         (Namespace.modified_time args) (Namespace.recursive args)
         (Namespace.dry_run args) fuel lfuel (Namespace.folder_id args) st).
Proof.
  unfold run_traversal.
  destruct (update_folder_and_contents _ _ _ _ _ _ _ _ _) as [[final|e|] st'];
    try reflexivity.
  destruct e; try reflexivity; cbn [is_Exception];
    by destruct (Env.derives_from_Exception env what).
Qed.

Lemma run_traversal_fst (service : service World) (args : Namespace.t)
    (fuel lfuel : nat) (st : state World) :
  let run := update_folder_and_contents (Env.random_random env) service
               (Namespace.modified_time args) (Namespace.recursive args)
               (Namespace.dry_run args) fuel lfuel (Namespace.folder_id args) st in
  match fst (run_traversal env service args fuel lfuel st) with
  | POk _ => exists final, fst run = Ok final
  | PRaise (SystemExit code) =>
      code = 1 /\ exists e, fst run = Raise e /\ is_Exception env (Other e) = true
  | PRaise (Other e) => fst run = Raise e /\ is_Exception env (Other e) = false
  | PRaise _ => False
  | PDiverge => fst run = Diverge
  end.
Proof.
  intros run. subst run. unfold run_traversal.
  destruct (update_folder_and_contents _ _ _ _ _ _ _ _ _) as [[final|e|] st'];
    cbn [fst]; [by eexists| |reflexivity].
  destruct e; cbn [fst is_Exception]; try (split; [reflexivity|by eexists]).
  destruct (Env.derives_from_Exception env what) eqn:Hd; cbn [fst].
  - split; [reflexivity|]. eexists. split; [reflexivity|]. exact Hd.
  - split; [reflexivity | exact Hd].
Qed.

End MainRuns.

Lemma elem_of_network_updates (tr : list event) file_id body fields attempt answer :
  EvUpdate file_id body fields attempt answer ∈ tr -> network_updates tr <> [].
Proof.
  intros Hin Hnil.
  assert (H : file_id ∈ network_updates tr).
  { unfold network_updates. apply list_elem_of_omap. eexists. split; [exact Hin|].
    reflexivity. }
  rewrite Hnil in H. by apply elem_of_nil in H.
Qed.

Lemma state_start {World : Type} (st : state World) :
  trace st = [] -> st = start (world st).
Proof. destruct st as [w tr]. cbn. by intros ->. Qed.

(** X8.  Whatever [main] does to the service, it does for a time stamp that
    the validator accepted: an event is written only after the command line
    was parsed and [modified_time] found valid; an update call is made only
    without [--dry-run], and its body is [{'modifiedTime': modified_time}],
    its fields ['id, name, modifiedTime']. *)
Theorem main_sends_validated_time {World Creds : Type} (env : Env.t World Creds)
    (fuel lfuel : nat) (w : World) :
  let out := main env fuel lfuel (start w) in
  forall ev, ev ∈ trace (snd out) ->
    exists args w0,
      Env.parse_args env w = (inl args, w0) /\
      validate_rfc3339 (Namespace.modified_time args) = true /\
      forall file_id body fields attempt answer,
        ev = EvUpdate file_id body fields attempt answer ->
        Namespace.dry_run args = false /\
        body = {[ "modifiedTime" := Namespace.modified_time args ]} /\
        fields = "id, name, modifiedTime" /\ 0 <= attempt < 5.
Proof.
  intros out ev Hev. subst out.
  destruct (main_shape env fuel lfuel (start w))
    as [(Htr & _)|(args & w0 & p & st1 & service & st2 & Hparse & Hv & _ & _ & _
                   & Htr2 & Hout)].
  { rewrite Htr in Hev. by apply elem_of_nil in Hev. }
  exists args, w0. split; [exact Hparse|]. split; [exact Hv|].
  rewrite Hout, run_traversal_snd in Hev.
  cbn [start trace] in Htr2.
  intros file_id body fields attempt answer ->.
  split.
  - destruct (Namespace.dry_run args) eqn:Hdry; [|reflexivity]. exfalso.
    rewrite (state_start st2 Htr2) in Hev.
    destruct (dry_run_quiet (Env.random_random env) service
                (Namespace.modified_time args) (Namespace.recursive args)
                fuel lfuel (Namespace.folder_id args) (world st2)) as (Hnone & _).
    by eapply elem_of_network_updates.
  - destruct (update_folder_and_contents_all (Env.random_random env) service
                (Namespace.modified_time args) (Namespace.recursive args)
                (Namespace.dry_run args) (sends (Namespace.modified_time args))
                (update_one_sends (Env.random_random env) service
                   (Namespace.modified_time args) (Namespace.dry_run args))
                (fun _ _ _ => I) fuel lfuel (Namespace.folder_id args) st2)
      as (evs & Htr & Hall).
    rewrite Htr, Htr2 in Hev. cbn [app] in Hev.
    rewrite Forall_forall in Hall. exact (Hall _ Hev).
Qed.

Lemma main_sends_validated_time_witness :
  let args := ScriptedMain.args (Some "key.json") true false "R"
                "2025-10-20T09:20:25.000Z" in
  let env := ScriptedMain.env args None ["key.json"] in
  exists a w0,
    Env.parse_args env (Scripted.drive Scripted.scenario_tree) = (inl a, w0) /\
    validate_rfc3339 (Namespace.modified_time a) = true.
Proof.
  intros args env.
  destruct (main_sends_validated_time env 10 10
              (Scripted.drive Scripted.scenario_tree)
              (EvUpdate "R" (body_of "2025-10-20T09:20:25.000Z") FIELDS 0 (Returns ∅)))
    as (a & w0 & Hparse & Hvalid & _).
  - vm_compute. constructor.
  - exists a, w0. split; [exact Hparse | exact Hvalid].
Defined.

(** X9.  How [main] ends once the command line is parsed.  It lets no
    exception that derives from [Exception] out; the exit codes it chooses
    are 1 and 2; it leaves with 2 exactly when the time stamp is not valid or
    no credentials path is given, and then nothing was written to the trace
    (with a time stamp that is not valid the world is the one [parse_args]
    left: neither the environment nor the file system was looked at); it
    leaves with 1 when building the service or the traversal raised an
    [Exception]; and it returns only when the traversal returned. *)
Theorem main_exit_codes {World Creds : Type} (env : Env.t World Creds)
    (fuel lfuel : nat) (st : state World) (args : Namespace.t) (w0 : World) :
  Env.parse_args env (world st) = (inl args, w0) ->
  let out := main env fuel lfuel st in
  let cred_path := fst (credentials_path_of env args (moved st w0)) in
  (forall e, fst out = PRaise e -> is_Exception env e = false) /\
  (forall code, fst out = PRaise (SystemExit code) -> code = 1 \/ code = 2) /\
  (fst out = PRaise (SystemExit 2) <->
     validate_rfc3339 (Namespace.modified_time args) = false \/
     truthy cred_path = false) /\
  (fst out = PRaise (SystemExit 2) -> trace (snd out) = trace st) /\
  (validate_rfc3339 (Namespace.modified_time args) = false ->
     snd out = moved st w0) /\
  (fst out = POk tt ->
     exists service st2 final,
       trace st2 = trace st /\
       update_folder_and_contents (Env.random_random env) service
         (Namespace.modified_time args) (Namespace.recursive args)
         (Namespace.dry_run args) fuel lfuel (Namespace.folder_id args) st2
       = (Ok final, snd out)).
Proof.
  intros Hparse out cred_path. subst out cred_path. unfold main. rewrite Hparse.
  destruct (validate_rfc3339 (Namespace.modified_time args)) eqn:Hv; cbn [negb].
  2:{ cbn [fst snd]. split; [by intros e [= <-]|]. split; [intros code [= <-]; by right|].
      split; [split; [by left | reflexivity]|]. split; [reflexivity|].
      split; [reflexivity | discriminate]. }
  pose proof (credentials_path_of_trace env args (moved st w0)) as Htr1.
  destruct (credentials_path_of env args (moved st w0)) as [cred_path st1] eqn:Hc.
  cbn [fst snd moved trace] in Htr1 |- *.
  destruct (truthy cred_path) eqn:Ht; cbn [negb].
  2:{ cbn [fst snd]. split; [by intros e [= <-]|]. split; [intros code [= <-]; by right|].
      split; [split; [by right | reflexivity]|]. split; [by intros _|].
      split; [discriminate | discriminate]. }
  destruct cred_path as [p|]; [|discriminate].
  change (default "" (Some p)) with p.
  pose proof (build_service_trace env p st1) as Htr2.
  pose proof (build_service_raises env p st1) as Hnoexit.
  destruct (build_service env p st1) as [[service|e|] st2] eqn:Hb;
    cbn [fst snd] in Htr2, Hnoexit.
  - pose proof (run_traversal_fst env service args fuel lfuel st2) as Hrun.
    pose proof (run_traversal_snd env service args fuel lfuel st2) as Hsnd.
    cbn zeta in Hrun.
    destruct (run_traversal env service args fuel lfuel st2) as [r st3];
      cbn [fst snd] in *.
    destruct (update_folder_and_contents _ _ _ _ _ _ _ _ _) as [r' st3'] eqn:Hrun';
      cbn [fst snd] in *. subst st3'.
    split.
    { intros e ->. destruct e as [e| | |code]; try contradiction; [by destruct Hrun|].
      reflexivity. }
    split; [intros code ->; left; by destruct Hrun|].
    split.
    { split; [intros ->; by destruct Hrun | intros [?|?]; discriminate]. }
    split; [intros ->; by destruct Hrun|].
    split; [discriminate|].
    intros ->. destruct Hrun as [final ->].
    exists service, st2, final. split; [congruence | exact Hrun'].
  - destruct (is_Exception env e) eqn:He; cbn [fst snd].
    + split; [by intros e' [= <-]|]. split; [intros code [= <-]; by left|].
      split; [split; [discriminate | intros [?|?]; discriminate]|].
      split; [discriminate|]. split; [discriminate | discriminate].
    + split; [by intros e' [= <-]|].
      split; [intros code [= ->]; by destruct (Hnoexit _ eq_refl code)|].
      split; [split; [intros [= ->]; by destruct (Hnoexit _ eq_refl 2)
                     | intros [?|?]; discriminate]|].
      split; [intros [= ->]; by destruct (Hnoexit _ eq_refl 2)|].
      split; [discriminate | discriminate].
  - cbn [fst snd]. split; [discriminate|]. split; [discriminate|].
    split; [split; [discriminate | intros [?|?]; discriminate]|].
    split; [discriminate|]. split; [discriminate | discriminate].
Qed.
Lemma main_exit_codes_witness :
  let args := ScriptedMain.args None true false "R" "2025-10-20T09:20:25.000Z" in
  let env := ScriptedMain.env args (Some "key.json") [] in
  let out := main env 10 10 (start (Scripted.drive Scripted.scenario_tree)) in
  fst out = PRaise (SystemExit 1) /\
  (forall code, fst out = PRaise (SystemExit code) -> code = 1 \/ code = 2).
Proof.
  intros args env out. split; [vm_compute; reflexivity|].
  destruct (main_exit_codes env 10 10 (start (Scripted.drive Scripted.scenario_tree))
              args (Scripted.drive Scripted.scenario_tree) eq_refl)
    as (_ & Hcodes & _).
  exact Hcodes.
Defined.

(** X10.  [build_service] checks before it loads: with an empty path it
    raises [ValueError] and looks at nothing; with a path that is not a file
    it raises [FileNotFoundError], naming the path, and loads no
    credentials; a service is returned only for a path that is a file, whose
    credentials loaded (for the Drive scope) and for which [build] returned
    that service.  It writes nothing to the trace, and what it raises is
    never a [SystemExit]. *)
Theorem build_service_checks {World Creds : Type} (env : Env.t World Creds)
    (credentials_path : string) (st : state World) :
  let out := build_service env credentials_path st in
  let checked := Env.os_path_isfile env credentials_path (world st) in
  trace (snd out) = trace st /\
  (credentials_path = "" ->
   exists msg, out = (PRaise (ValueError msg), st)) /\
  (credentials_path <> "" -> fst checked = false ->
   out = (PRaise (FileNotFoundError
                    ("Credentials file not found: " ++ credentials_path)),
          moved st (snd checked))) /\
  (forall service, fst out = POk service ->
     credentials_path <> "" /\ fst checked = true /\
     exists creds w2,
       Env.from_service_account_file env credentials_path
         ["https://www.googleapis.com/auth/drive"] (snd checked)
       = (Returns creds, w2) /\
       Env.build env "drive" "v3" creds w2 = (Returns service, world (snd out))) /\
  (forall e, fst out = PRaise e -> forall code, e <> SystemExit code).
Proof.
  intros out checked. subst out checked.
  split; [apply build_service_trace|].
  split; [|split; [|split; [|apply build_service_raises]]].
  - intros ->. eexists. reflexivity.
  - intros Hne Hno. unfold build_service.
    apply String.eqb_neq in Hne. rewrite Hne.
    destruct (Env.os_path_isfile env credentials_path (world st)) as [is_file w1].
    cbn [fst snd] in *. subst is_file. reflexivity.
  - intros service. unfold build_service.
    destruct (String.eqb credentials_path "") eqn:He; [discriminate|].
    apply String.eqb_neq in He.
    destruct (Env.os_path_isfile env credentials_path (world st)) as [[] w1];
      cbn [negb fst snd]; [|discriminate].
    destruct (Env.from_service_account_file env credentials_path SCOPES w1)
      as [[creds|e] w2] eqn:Hl; [|discriminate].
    destruct (Env.build env "drive" "v3" creds w2) as [[service'|e] w3] eqn:Hb;
      [|discriminate].
    cbn [fst snd moved world]. intros [= <-].
    split; [exact He|]. split; [reflexivity|].
    exists creds, w2. split; [exact Hl | exact Hb].
Qed.

(** X11.  A path given with [--credentials] wins: when the option is given
    and not empty, [main] does not depend on what the variable
    [GOOGLE_APPLICATION_CREDENTIALS] holds, nor on whether it is set. *)
Theorem explicit_credentials_win {World Creds : Type} (env : Env.t World Creds)
    (getenv : string -> World -> option string * World)
    (fuel lfuel : nat) (st : state World) (args : Namespace.t) (w0 : World) :
  Env.parse_args env (world st) = (inl args, w0) ->
  truthy (Namespace.credentials args) = true ->
  main (with_getenv env getenv) fuel lfuel st = main env fuel lfuel st.
Proof.
  intros Hparse Hc. unfold main.
  change (Env.parse_args (with_getenv env getenv)) with (Env.parse_args env).
  rewrite Hparse. unfold credentials_path_of. rewrite Hc. reflexivity.
Qed.

Lemma explicit_credentials_win_witness :
  let args := ScriptedMain.args (Some "key.json") true false "R"
                "2025-10-20T09:20:25.000Z" in
  main (with_getenv (ScriptedMain.env args None ["key.json"])
          (fun _ w => (Some "other.json", w)))
       10 10 (start (Scripted.drive Scripted.scenario_tree))
  = main (ScriptedMain.env args None ["key.json"])
       10 10 (start (Scripted.drive Scripted.scenario_tree)) /\
  fst (main (ScriptedMain.env args None ["key.json"])
         10 10 (start (Scripted.drive Scripted.scenario_tree))) = POk tt.
Proof.
  intros args. split; [|vm_compute; reflexivity].
  apply (explicit_credentials_win (ScriptedMain.env args None ["key.json"])
           (fun _ w => (Some "other.json", w)) 10 10
           (start (Scripted.drive Scripted.scenario_tree)) args
           (Scripted.drive Scripted.scenario_tree)); reflexivity.
Defined.

(** Runs of [main]: the scenario of the usage line, a time stamp with an
    offset, and no credentials at all. *)
Example main_scenarios :
  let ok := ScriptedMain.args (Some "key.json") true false "R"
              "2025-10-20T09:20:25.000Z" in
  let offset := ScriptedMain.args (Some "key.json") true false "R"
                  "2025-10-20T09:20:25+05:00" in
  let nothing := ScriptedMain.args None true false "R" "2025-10-20T09:20:25Z" in
  let w := Scripted.drive Scripted.scenario_tree in
  fst (main (ScriptedMain.env ok None ["key.json"]) 10 10 (start w)) = POk tt /\
  mutations (trace (snd (main (ScriptedMain.env ok None ["key.json"]) 10 10 (start w))))
    = ["R"; "folderA"; "file1"; "file2"] /\
  main (ScriptedMain.env offset None ["key.json"]) 10 10 (start w)
    = (PRaise (SystemExit 2), start w) /\
  main (ScriptedMain.env nothing None ["key.json"]) 10 10 (start w)
    = (PRaise (SystemExit 2), start w) /\
  main (ScriptedMain.env nothing (Some "") ["key.json"]) 10 10 (start w)
    = (PRaise (SystemExit 2), start w) /\
  fst (main (ScriptedMain.env nothing (Some "key.json") ["key.json"]) 10 10
         (start w)) = POk tt.
Proof.
  cbv zeta. do 5 (split; [vm_compute; reflexivity|]). vm_compute. reflexivity.
Qed.

Section Adds.
Context {World : Type}.
Variable Q : list event -> Prop.
Hypothesis Q_nil : Q [].
Hypothesis Q_app : forall a b, Q a -> Q b -> Q (a ++ b).

Lemma adds_ret {A : Type} (a : A) : adds Q (ret a : M World A).
Proof. intros st. exists []. cbn. by rewrite app_nil_r. Qed.

Lemma adds_raise {A : Type} (e : exn) : adds Q (raise e : M World A).
Proof. intros st. exists []. cbn. by rewrite app_nil_r. Qed.

Lemma adds_diverge {A : Type} : adds Q (diverge : M World A).
Proof. intros st. exists []. cbn. by rewrite app_nil_r. Qed.

Lemma adds_bind {A B : Type} (m : M World A) (k : A -> M World B) :
  adds Q m -> (forall a, adds Q (k a)) -> adds Q (bind m k).
Proof.
  intros Hm Hk st. unfold bind.
  destruct (Hm st) as (evs1 & Htr1 & H1).
  destruct (m st) as [[a|e|] st1]; cbn [fst snd] in *; [|by exists evs1..].
  destruct (Hk a st1) as (evs2 & Htr2 & H2).
  exists (evs1 ++ evs2). split; [by rewrite Htr2, Htr1, <- app_assoc|].
  by apply Q_app.
Qed.

Variable random_random : World -> spec_float * World.
Variable svc : service World.
Variables (new_time : string) (recursive dry_run : bool).
Hypothesis Q_update : forall file_id,
  adds Q (update_one random_random svc new_time dry_run file_id).
Hypothesis Q_list : forall lfuel parent_id,
  adds Q (list_children lfuel svc parent_id).

Lemma adds_for_children (children : list dict) :
  forall queue,
    adds Q (for_children random_random svc new_time recursive dry_run children queue).
Proof.
  induction children as [|c children IH]; intros queue; [apply adds_ret|].
  cbn [for_children]. apply adds_bind; [|exact IH].
  unfold visit_child. destruct (c !! "id") as [cid|]; [|apply adds_raise].
  destruct (String.eqb _ FOLDER_MIME);
    (apply adds_bind; [apply Q_update|]); intros _;
    try destruct recursive; apply adds_ret.
Qed.

Lemma adds_walk (fuel lfuel : nat) :
  forall queue visited,
    adds Q (walk random_random svc new_time recursive dry_run fuel lfuel
              queue visited).
Proof.
  induction fuel as [|fuel IH]; intros queue visited.
  - destruct queue; [apply adds_ret | apply adds_diverge].
  - destruct queue as [|c queue]; [apply adds_ret|].
    cbn [walk]. apply adds_bind; [|intros qv; apply IH].
    unfold walk_step. destruct (decide (c ∈ visited)); [apply adds_ret|].
    apply adds_bind; [apply Q_list|]. intros children.
    destruct children; [apply adds_ret|].
    apply adds_bind; [apply adds_for_children|]. intros q. apply adds_ret.
Qed.

Lemma adds_update_folder_and_contents (fuel lfuel : nat) (folder_id : string) :
  adds Q (update_folder_and_contents random_random svc new_time recursive dry_run
            fuel lfuel folder_id).
Proof.
  unfold update_folder_and_contents.
  apply adds_bind; [apply Q_update | intros _; apply adds_walk].
Qed.

End Adds.

Lemma network_updates_app (a b : list event) :
  network_updates (a ++ b) = network_updates a ++ network_updates b.
Proof. apply omap_app. Qed.

Lemma sleeps_app (a b : list event) : sleeps (a ++ b) = sleeps a ++ sleeps b.
Proof. apply omap_app. Qed.

Lemma draws_app (a b : list event) : draws (a ++ b) = draws a ++ draws b.
Proof. apply omap_app. Qed.

Lemma total_sleep_app (a b : list event) :
  (total_sleep (a ++ b) == total_sleep a + total_sleep b)%Q.
Proof.
  unfold total_sleep. rewrite sleeps_app, map_app.
  induction (map SF2Q (sleeps a)) as [|x l IH]; cbn.
  - by rewrite Qplus_0_l.
  - rewrite IH. by rewrite Qplus_assoc.
Qed.

Lemma within_budget_app (a b : list event) :
  within_budget a -> within_budget b -> within_budget (a ++ b).
Proof.
  unfold within_budget. rewrite network_updates_app, mutations_app, !length_app. lia.
Qed.

Lemma within_time_app (a b : list event) :
  within_time a -> within_time b -> within_time (a ++ b).
Proof.
  unfold within_time. intros Ha Hb Hd.
  rewrite draws_app in Hd. apply Forall_app in Hd as [Hda Hdb].
  rewrite total_sleep_app, mutations_app, length_app, Nat2Z.inj_add,
    Z.mul_add_distr_l, inject_Z_plus.
  apply Qplus_le_compat; auto.
Qed.

Lemma retry_run_calls file_id body fields left attempt evs r :
  retry_run file_id body fields left attempt evs r ->
  (length (network_updates evs) <= left)%nat.
Proof.
  induction 1; unfold network_updates in *; simpl in *; try lia.
  apply le_n_S. exact IHretry_run.
Qed.

Lemma pow2_within (k : Z) : 0 <= k <= 5 -> 2 ^ k - 1 + k <= 36.
Proof.
  intros Hk.
  assert (Hcases : k = 0 \/ k = 1 \/ k = 2 \/ k = 3 \/ k = 4 \/ k = 5) by lia.
  destruct Hcases as [->|[->|[->|[->|[->| ->]]]]]; vm_compute; discriminate.
Qed.

Section Budget.
Context {World : Type}.
Variable random_random : World -> spec_float * World.
Variable svc : service World.
Variables (new_time : string) (dry_run : bool).

Lemma update_one_within (file_id : string) :
  adds (fun evs => within_budget evs /\ within_time evs)
    (update_one random_random svc new_time dry_run file_id).
Proof.
  intros st. unfold update_one, retryable_update. destruct dry_run.
  - eexists. split; [reflexivity|]. split.
    + unfold within_budget. cbn. lia.
    + intros _. cbn. discriminate.
  - destruct (attempts_run random_random svc file_id (body_of new_time) FIELDS
                (Z.to_nat DEFAULT_RETRIES) 0 st) as (evs & Htr & Hrun).
    exists evs. split; [exact Htr|].
    change (Z.to_nat DEFAULT_RETRIES) with 5%nat in *.
    pose proof (retry_run_mutations_first _ _ _ _ _ _ Hrun) as Hm.
    split.
    + unfold within_budget. rewrite Hm.
      change (Z.to_nat DEFAULT_RETRIES * length [file_id])%nat with 5%nat.
      exact (retry_run_calls _ _ _ _ _ _ _ Hrun).
    + intros Hd. rewrite Hm.
      destruct (retry_run_total _ _ _ _ _ _ _ Hrun ltac:(lia) Hd)
        as (Hk & _ & Hhigh).
      rewrite Z.pow_0_r, Z.mul_1_l in Hhigh.
      eapply Qle_trans; [exact Hhigh|]. rewrite <- Zle_Qle.
      cbn [length]. change (36 * Z.of_nat 1) with 36.
      apply pow2_within. lia.
Qed.

Lemma list_children_within (lfuel : nat) (parent_id : string) :
  adds (fun evs => within_budget evs /\ within_time evs)
    (list_children lfuel svc parent_id).
Proof.
  intros st.
  destruct (list_children_events svc lfuel parent_id st) as (evs & Htr & Hev & _).
  exists evs. split; [exact Htr|].
  destruct (list_events evs (list_events_of _ _ Hev)) as (Hm & Hn & Hs & _).
  split.
  - unfold within_budget. rewrite Hn, Hm. cbn. lia.
  - intros _. unfold total_sleep. rewrite Hs, Hm. cbn. discriminate.
Qed.

End Budget.

(** X12.  What a run can cost.  For [n] objects handed to the mutator it
    makes at most [5 * n] update calls; and when the draws of
    [random.random()] are in [[0, 1)], it sleeps at most [36 * n] seconds in
    all. *)
Theorem run_within_budget {World : Type}
    (random_random : World -> spec_float * World) (svc : service World)
    (new_time : string) (recursive dry_run : bool) (fuel lfuel : nat)
    (folder_id : string) (w : World) :
  let out := update_folder_and_contents random_random svc new_time recursive
               dry_run fuel lfuel folder_id (start w) in
  let tr := trace (snd out) in
  (length (network_updates tr) <= 5 * length (mutations tr))%nat /\
  (Forall unit_float (draws tr) ->
   (total_sleep tr <= inject_Z (36 * Z.of_nat (length (mutations tr))))%Q).
Proof.
  intros out tr. subst tr out.
  destruct (adds_update_folder_and_contents
              (fun evs => within_budget evs /\ within_time evs)
              (conj (le_n 0) (fun _ => Qle_refl 0))
              (fun a b Ha Hb =>
                 conj (within_budget_app a b (proj1 Ha) (proj1 Hb))
                      (within_time_app a b (proj2 Ha) (proj2 Hb)))
              random_random svc new_time recursive dry_run
              (update_one_within random_random svc new_time dry_run)
              (list_children_within svc)
              fuel lfuel folder_id (start w)) as (evs & Htr & Hb & Ht).
  cbn [start trace app] in Htr. rewrite Htr. split; [exact Hb | exact Ht].
Qed.
#[local] Set Warnings "-clear-no-such-hyp".

(** ** The first turn of the loop *)

Section ListsHead.
Context {World : Type}.
Variable random_random : World -> spec_float * World.
Variable svc : service World.
Variables (new_time : string) (recursive dry_run : bool).

(** With fuel for a turn, the loop starts by paging through the head of the
    queue, if it was not visited. *)
Lemma walk_lists_head (fuel lfuel : nat) (c : string) (queue : list string)
    (visited : gset string) (st : state World) :
  c ∉ visited ->
  exists evs1 rest r,
    trace (snd (walk random_random svc new_time recursive dry_run (S fuel) lfuel
                  (c :: queue) visited st)) = trace st ++ evs1 ++ rest /\
    trace (snd (list_children lfuel svc c st)) = trace st ++ evs1 /\
    paging c lfuel None [] evs1 r.
Proof.
  intros Hv. cbn [walk]. unfold bind.
  destruct (walk_step_fresh random_random svc new_time recursive dry_run lfuel c
              queue visited st Hv)
    as (evs1 & evs2 & Htr & Htrl & _).
  destruct (list_children_loop_paging svc c lfuel [] None st)
    as (evs1' & Hl' & Hpag).
  fold (list_children lfuel svc c) in Hl', Hpag.
  rewrite Htrl in Hl'. apply app_inv_head in Hl'. subst evs1'.
  exists evs1.
  destruct (walk_step random_random svc new_time recursive dry_run lfuel c
              queue visited st) as [[[queue' visited']|e|] st1]; cbn [fst snd] in *.
  - destruct (walk_extends random_random svc new_time recursive dry_run fuel lfuel
                queue' visited' st1) as (evs3 & Htr3).
    exists (evs2 ++ evs3), (fst (list_children lfuel svc c st)).
    split; [by rewrite Htr3, Htr, <- !app_assoc | by split].
  - by exists evs2, (fst (list_children lfuel svc c st)).
  - by exists evs2, (fst (list_children lfuel svc c st)).
Qed.

(** The first call of the lister asks the service for the first page. *)
Lemma list_children_first (lfuel : nat) (parent_id : string) (st : state World) :
  exists rest,
    trace (snd (list_children (S lfuel) svc parent_id st))
    = trace st ++ EvList parent_id None
                    (fst (files_list svc parent_id None (world st))) :: rest.
Proof.
  unfold list_children. cbn [list_children_loop]. unfold bind, call, emit, ret, raise.
  cbn.
  destruct (files_list svc parent_id None (world st)) as [out w] eqn:Hl.
  destruct out as [response | e]; cbn.
  - destruct (truthy (nextPageToken response)) eqn:Ht.
    + match goal with |- context [list_children_loop _ _ lfuel ?c ?t ?s] =>
        destruct (list_children_loop_paging svc parent_id lfuel c t s)
          as (evs & Htr & _) end.
      cbn in Htr. exists evs. rewrite Htr, <- app_assoc. reflexivity.
    + by exists [].
  - by exists [].
Qed.
End ListsHead.
#[local] Set Warnings "-clear-no-such-hyp".

(** ** Breadth first *)

Lemma listed_lookup (evs : list event) (x : string) :
  x ∈ child_ids (listed evs) ->
  exists (j : nat) p t response,
    evs !! j = Some (EvList p t (Returns response)) /\
    x ∈ child_ids (page_files response).
Proof.
  induction evs as [|ev evs IH]; [by intros H%elem_of_nil|].
  change (listed (ev :: evs)) with (listed_of ev ++ listed evs).
  rewrite child_ids_app, elem_of_app. intros [Hx|Hx].
  - destruct ev as [| | | |p t [response|e]]; try by apply elem_of_nil in Hx.
    by exists 0%nat, p, t, response.
  - destruct (IH Hx) as (j & p & t & response & Hj & Hin).
    by exists (S j), p, t, response.
Qed.

Lemma mutations_lookup (evs : list event) (x : string) :
  x ∈ mutations evs <-> exists ev, ev ∈ evs /\ mutation_of ev = Some x.
Proof. unfold mutations. by rewrite list_elem_of_omap. Qed.

Lemma tag_lookup_Some d (evs : list event) (i : nat) ev :
  evs !! i = Some ev -> tag d evs !! i = Some (ev, d).
Proof. intros H. unfold tag. by rewrite list_lookup_fmap, H. Qed.

(** The events of one turn on a container of depth [d], appended at depth
    [d + 1], keep the meaning of the depths. *)
Lemma turn_depths (log : list (event * nat)) (c : string) (d : nat)
    (evs1 evs2 : list event) :
  (exists ev, (ev, d) ∈ log /\ mutation_of ev = Some c) ->
  Forall (fun ev => exists t a, ev = EvList c t a) evs1 ->
  Forall (fun ev => is_list_event ev = false) evs2 ->
  (forall x, x ∈ mutations evs2 -> x ∈ child_ids (listed evs1)) ->
  lists_below log -> handed_as_listed log ->
  lists_below (log ++ tag (S d) (evs1 ++ evs2)) /\
  handed_as_listed (log ++ tag (S d) (evs1 ++ evs2)).
Proof.
  intros (ev0 & Hin0 & Hm0) Hl1 Hnl2 Hsub Hlb Hhl. split.
  - intros i p t a k Hi. apply lookup_app_Some in Hi as [Hi|[Hge Hi]].
    + destruct (Hlb _ _ _ _ _ Hi) as (j & ev & k' & Hj & Hlj & Hm & Hk).
      exists j, ev, k'. split; [exact Hj|]. split; [|done].
      by apply lookup_app_l_Some.
    + apply tag_lookup in Hi as [Hi ->].
      apply lookup_app_Some in Hi as [Hi|[_ Hi]].
      * rewrite Forall_lookup in Hl1. destruct (Hl1 _ _ Hi) as (t' & a' & Heq).
        inversion Heq; subst.
        apply list_elem_of_lookup in Hin0 as [j Hj].
        exists j, ev0, d. pose proof (lookup_lt_Some _ _ _ Hj).
        split; [lia|]. split; [by apply lookup_app_l_Some | done].
      * rewrite Forall_lookup in Hnl2. specialize (Hnl2 _ _ Hi). discriminate.
  - intros i ev k x Hi Hm. apply lookup_app_Some in Hi as [Hi|[Hge Hi]].
    + destruct (Hhl _ _ _ _ Hi Hm) as (j & p & t & response & Hj & Hlj & Hx).
      exists j, p, t, response. split; [exact Hj|]. split; [|done].
      by apply lookup_app_l_Some.
    + apply tag_lookup in Hi as [Hi Hk]. inversion Hk; subst k.
      apply lookup_app_Some in Hi as [Hi|[Hge1 Hi]].
      * rewrite Forall_lookup in Hl1. destruct (Hl1 _ _ Hi) as (t' & a' & ->).
        discriminate.
      * assert (Hx : x ∈ mutations evs2).
        { apply mutations_lookup. exists ev. split; [|exact Hm].
          by eapply list_elem_of_lookup_2. }
        destruct (listed_lookup _ _ (Hsub x Hx)) as (j & p & t & response & Hj & Hin).
        exists (length log + j)%nat, p, t, response.
        pose proof (lookup_lt_Some _ _ _ Hj).
        split; [lia|]. split; [|exact Hin].
        rewrite lookup_app_r by lia.
        replace (length log + j - length log)%nat with j by lia.
        apply tag_lookup_Some. by apply lookup_app_l_Some.
Qed.

Lemma added_app {World : Type} (st st' : state World) (evs : list event) :
  trace st' = trace st ++ evs -> added st st' = evs.
Proof. intros H. unfold added. rewrite H. apply drop_app_length. Qed.

Lemma enqueued_child_ids recursive (children : list dict) (x : string) :
  x ∈ enqueued recursive children -> x ∈ child_ids children.
Proof.
  intros [_ H]%elem_of_enqueued. unfold child_ids in *.
  apply list_elem_of_omap in H as (c & Hc & Hid).
  apply list_elem_of_omap. exists c. split; [|exact Hid].
  apply list_elem_of_In, List.filter_In in Hc as [Hc _]. by apply list_elem_of_In.
Qed.

Section DepthWalk.
Context {World : Type}.
Variable random_random : World -> spec_float * World.
Variable svc : service World.
Variables (new_time : string) (recursive dry_run : bool).

(** One turn on a container that was not visited: its list calls, then the
    updates of what these answered. *)
Lemma walk_step_turn (lfuel : nat) (c : string) (queue : list string)
    (visited : gset string) (st : state World) :
  c ∉ visited ->
  let out := walk_step random_random svc new_time recursive dry_run lfuel c
               queue visited st in
  exists evs1 evs2,
    trace (snd out) = trace st ++ evs1 ++ evs2 /\
    Forall (fun ev => exists t a, ev = EvList c t a) evs1 /\
    Forall (fun ev => is_list_event ev = false) evs2 /\
    (forall x, x ∈ mutations evs2 -> x ∈ child_ids (listed evs1)) /\
    forall queue' visited',
      fst out = Ok (queue', visited') ->
      mutations evs2 = child_ids (listed evs1) /\
      queue' = queue ++ enqueued recursive (listed evs1).
Proof.
  intros Hv out. subst out.
  destruct (walk_step_fresh random_random svc new_time recursive dry_run lfuel
              c queue visited st Hv)
    as (evs1 & evs2 & Htr & Hl & Hev1 & _ & Hev2 & Hres).
  destruct (list_children_loop_paging svc c lfuel [] None st)
    as (evs1' & Hl' & Hpag).
  fold (list_children lfuel svc c) in Hl', Hpag.
  rewrite Hl in Hl'. apply app_inv_head in Hl'. subst evs1'.
  exists evs1, evs2. split; [exact Htr|]. split; [exact Hev1|]. split; [exact Hev2|].
  destruct (fst (list_children lfuel svc c st)) as [children|e|] eqn:Hr.
  - pose proof (paging_listed _ _ _ _ _ _ Hpag children eq_refl) as Hc.
    cbn [app] in Hc. subst children.
    destruct Hres as (Hpre & _ & Hok). split.
    + intros x Hx. destruct Hpre as [k ->]. set_solver.
    + intros queue' visited' Hq.
      destruct (Hok queue' visited' Hq) as (_ & Hm & _ & Hq'). done.
  - destruct Hres as [-> Hout]. split; [by intros x H%elem_of_nil|].
    intros queue' visited' Hq. congruence.
  - destruct Hres as [-> Hout]. split; [by intros x H%elem_of_nil|].
    intros queue' visited' Hq. congruence.
Qed.

Lemma walk_depth_spec (fuel lfuel : nat) :
  forall (queue : list (string * nat)) (visited : gset string)
         (log : list (event * nat)) (st : state World),
  level_inv queue log -> queue_handed queue log ->
  lists_below log -> handed_as_listed log ->
  let out := walk_depth random_random svc new_time recursive dry_run fuel lfuel
               queue visited log st in
  walk random_random svc new_time recursive dry_run fuel lfuel (map fst queue)
    visited st = (fst (fst out), snd out) /\
  exists new,
    snd (fst out) = log ++ new /\
    trace (snd out) = trace st ++ map fst new /\
    Forall (fun q => (1 <= snd q)%nat) new /\
    StronglySorted le (map snd (log ++ new)) /\
    lists_below (log ++ new) /\ handed_as_listed (log ++ new).
Proof.
  induction fuel as [|fuel IH]; intros queue visited log st Hinv Hqh Hlb Hhl out;
    subst out.
  - destruct queue as [|[c d] queue]; cbn.
    all: split; [reflexivity|]; exists []; rewrite !app_nil_r.
    all: destruct Hinv as (_ & Hl & _); done.
  - destruct queue as [|[c d] queue].
    { cbn. split; [reflexivity|]. exists []. rewrite !app_nil_r.
      destruct Hinv as (_ & Hl & _). done. }
    cbn [walk walk_depth map fst]. unfold bind.
    destruct (decide (c ∈ visited)) as [Hv|Hv].
    { rewrite walk_step_visited by assumption. cbn [fst snd].
      unfold added. rewrite drop_all.
      rewrite (drop_ge (map fst queue)) by (by rewrite length_map).
      cbn [tag at_depth map]. rewrite !app_nil_r.
      apply IH; [by eapply level_inv_tail | | done | done].
      intros p d' Hp. apply Hqh. by right. }
    destruct (walk_step_turn lfuel c (map fst queue) visited st Hv)
      as (evs1 & evs2 & Htr & Hl1 & Hnl2 & Hsub & Hok).
    assert (Hhead : exists ev, (ev, d) ∈ log /\ mutation_of ev = Some c).
    { apply Hqh. by left. }
    destruct (turn_depths log c d evs1 evs2 Hhead Hl1 Hnl2 Hsub Hlb Hhl)
      as [Hlb' Hhl'].
    assert (Hs' : StronglySorted le (map snd (log ++ tag (S d) (evs1 ++ evs2)))).
    { destruct Hinv as (_ & Hl & _ & Hbl).
      eapply sorted_snoc_level; [exact Hl | exact Hbl | apply tag_snd]. }
    assert (Hge : Forall (fun q : event * nat => (1 <= snd q)%nat)
                    (tag (S d) (evs1 ++ evs2))).
    { eapply Forall_impl; [apply tag_snd|]. cbn. intros; lia. }
    rewrite (added_app _ _ _ Htr).
    destruct (walk_step random_random svc new_time recursive dry_run lfuel c
                (map fst queue) visited st) as [[[queue' visited']|e|] st1];
      cbn [fst snd] in *.
    + destruct (Hok queue' visited' eq_refl) as (Hm2 & ->).
      replace (drop (length queue) (map fst queue ++ enqueued recursive (listed evs1)))
        with (enqueued recursive (listed evs1))
        by (by rewrite <- (length_map fst queue), drop_app_length).
      set (more := at_depth (S d) (enqueued recursive (listed evs1))).
      set (block := tag (S d) (evs1 ++ evs2)) in *.
      assert (Hinv' : level_inv (queue ++ more) (log ++ block)).
      { eapply level_inv_expand; [exact Hinv | apply at_depth_snd | apply tag_snd]. }
      assert (Hqh' : queue_handed (queue ++ more) (log ++ block)).
      { intros p d' Hp. apply elem_of_app in Hp as [Hp|Hp].
        - destruct (Hqh p d') as (ev & Hev & Hm); [by right|].
          exists ev. split; [|exact Hm]. apply elem_of_app. by left.
        - subst more. unfold at_depth in Hp.
          apply list_elem_of_fmap in Hp as (x & Heq & Hx). inversion Heq; subst p d'.
          apply enqueued_child_ids in Hx. rewrite <- Hm2 in Hx.
          apply mutations_lookup in Hx as (ev & Hev & Hm).
          exists ev. split; [|exact Hm]. apply elem_of_app. right.
          subst block. unfold tag. apply list_elem_of_fmap. exists ev.
          split; [reflexivity|]. apply elem_of_app. by right. }
      destruct (IH (queue ++ more) visited' (log ++ block) st1 Hinv' Hqh' Hlb' Hhl')
        as (Herase & new3 & Hlog3 & Htr3 & Hge3 & Hs3 & Hlb3 & Hhl3).
      split.
      { rewrite <- Herase. f_equal.
        subst more. by rewrite map_app, at_depth_fst. }
      exists (block ++ new3).
      split; [by rewrite Hlog3, <- app_assoc|].
      split.
      { rewrite Htr3, Htr, map_app. subst block. rewrite tag_fst.
        by rewrite <- !app_assoc. }
      split; [by apply Forall_app|].
      rewrite app_assoc. done.
    + split; [reflexivity|]. exists (tag (S d) (evs1 ++ evs2)).
      split; [reflexivity|]. split; [by rewrite tag_fst|]. done.
    + split; [reflexivity|]. exists (tag (S d) (evs1 ++ evs2)).
      split; [reflexivity|]. split; [by rewrite tag_fst|]. done.
Qed.
End DepthWalk.

(** C2, as amended.  In every run, recursive or not, dry or not.  The run
    starts with the update of the root, whatever the flags: its events come
    first, before any list call, they hand the root to the mutator once, and
    they are the events of depth 0; every later event is of depth 1 or more,
    so nothing else is handed over at depth 0; and when this update returned
    and there is fuel for a turn, the next event is the list call for the
    first page of the root, at depth 1.  The root is handed over again,
    deeper, when a listing answers it.  Depths are those of
    [update_folder_and_contents_depth], which is the same run with the same
    trace: a list call at depth [k] is on a container that was handed to the
    mutator at depth [k - 1], and an object handed over at depth [k + 1] was
    answered by an earlier list call at that depth.  The depths never
    decrease along the trace: every hand-over at depth [d] comes before every
    list call that discovers, and every hand-over of, a deeper object
    (breadth first).  And the objects are handed over in the order of the
    answers of the list calls: they are the root and then a first part of
    what was listed, all of it when the run returns. *)
Theorem breadth_first_order {World : Type}
    (random_random : World -> spec_float * World) (svc : service World)
    (new_time : string) (recursive dry_run : bool) (fuel lfuel : nat)
    (folder_id : string) (w : World) :
  let out := update_folder_and_contents random_random svc new_time recursive
               dry_run fuel lfuel folder_id (start w) in
  let outd := update_folder_and_contents_depth random_random svc new_time
                recursive dry_run fuel lfuel folder_id (start w) in
  let log := snd (fst outd) in
  let tr := trace (snd out) in
  let root := trace (snd (update_one random_random svc new_time dry_run
                            folder_id (start w))) in
  out = (fst (fst outd), snd outd) /\
  map fst log = tr /\
  (exists rest,
     log = tag 0 root ++ rest /\
     mutations root = [folder_id] /\
     Forall (fun ev => is_list_event ev = false) root /\
     Forall (fun q => (1 <= snd q)%nat) rest /\
     ((1 <= fuel)%nat -> (1 <= lfuel)%nat ->
      forall resp,
        fst (update_one random_random svc new_time dry_run folder_id (start w))
          = Ok resp ->
        exists a rest', rest = (EvList folder_id None a, 1%nat) :: rest')) /\
  StronglySorted le (map snd log) /\
  lists_below log /\
  handed_as_listed log /\
  mutations tr `prefix_of` folder_id :: child_ids (listed tr) /\
  (forall final, fst out = Ok final ->
     mutations tr = folder_id :: child_ids (listed tr)).
Proof.
  intros out outd log tr root. subst out outd log tr root.
  unfold update_folder_and_contents, update_folder_and_contents_depth, bind.
  destruct (update_one_events random_random svc new_time dry_run folder_id (start w))
    as (evs0 & Htr0 & Hm0 & Hnl0 & _).
  rewrite (added_app _ _ _ Htr0).
  change (trace (start w)) with (@nil event) in Htr0. rewrite app_nil_l in Htr0.
  pose proof (listed_none evs0 Hnl0) as Hl0.
  rewrite Htr0.
  assert (Hs0 : StronglySorted le (map snd (tag 0 evs0))).
  { apply (sorted_snoc_level [] (tag 0 evs0) 0);
      [constructor | constructor | apply tag_snd]. }
  assert (Hlb0 : lists_below (tag 0 evs0)).
  { intros i p t a k Hi. apply tag_lookup in Hi as [Hi _].
    rewrite Forall_lookup in Hnl0. specialize (Hnl0 _ _ Hi). discriminate. }
  assert (Hhl0 : handed_as_listed (tag 0 evs0)).
  { intros i ev k x Hi _. apply tag_lookup in Hi as [_ Hk]. discriminate. }
  destruct (update_one random_random svc new_time dry_run folder_id (start w))
    as [[resp|e|] st1]; cbn [fst snd] in *.
  - assert (Hinv : level_inv [(folder_id, O)] (tag 0 evs0)).
    { split; [repeat constructor|]. split; [exact Hs0|].
      split; [repeat constructor|].
      eapply Forall_impl; [apply tag_snd|]. cbn. intros; lia. }
    assert (Hqh : queue_handed [(folder_id, O)] (tag 0 evs0)).
    { intros p d Hp. apply list_elem_of_singleton in Hp. inversion Hp; subst p d.
      assert (Hx : folder_id ∈ mutations evs0) by (rewrite Hm0; set_solver).
      apply mutations_lookup in Hx as (ev & Hev & Hm).
      exists ev. split; [|exact Hm]. unfold tag. apply list_elem_of_fmap. by exists ev. }
    destruct (walk_depth_spec random_random svc new_time recursive dry_run
                fuel lfuel [(folder_id, O)] ∅ (tag 0 evs0) st1 Hinv Hqh Hlb0 Hhl0)
      as (Herase & new & Hlog & Htr & Hge & Hs & Hlb & Hhl).
    cbn [map fst] in Herase.
    destruct (walk_listed random_random svc new_time recursive dry_run fuel lfuel
                [folder_id] ∅ st1) as (evs & Htr' & Hpre & Hok).
    rewrite Herase in *. cbn [fst snd] in *.
    split; [reflexivity|].
    split; [by rewrite Hlog, map_app, tag_fst, Htr, Htr0|].
    split.
    { exists new. split; [exact Hlog|]. split; [done|]. split; [done|].
      split; [exact Hge|].
      intros Hf Hlf resp' _.
      destruct fuel as [|fuel]; [lia|]. destruct lfuel as [|lfuel]; [lia|].
      destruct (walk_lists_head random_random svc new_time recursive dry_run
                  fuel (S lfuel) folder_id [] ∅ st1 ltac:(set_solver))
        as (evs1 & more & r & Hw & Hl & _).
      destruct (list_children_first svc lfuel folder_id st1) as (more1 & Hfirst).
      rewrite Hl in Hfirst. apply app_inv_head in Hfirst. subst evs1.
      rewrite Herase in Hw. cbn [snd] in Hw.
      rewrite Hw in Htr. apply app_inv_head in Htr.
      destruct new as [|[ev k] new']; [discriminate|].
      cbn in Htr. inversion Htr as [[Hev Hrest]].
      assert (Hi : (tag 0 evs0 ++ (ev, k) :: new') !! length (tag 0 evs0)
                   = Some (EvList folder_id None
                             (fst (files_list svc folder_id None (world st1))), k)).
      { rewrite lookup_app_r by lia. rewrite Nat.sub_diag. cbn. congruence. }
      destruct (Hlb _ _ _ _ _ Hi) as (j & ev' & k' & Hj & Hlj & _ & ->).
      rewrite lookup_app_l in Hlj by exact Hj.
      apply tag_lookup in Hlj as [_ ->]. eexists _, new'. f_equal. }
    rewrite Hlog. split; [exact Hs|]. split; [exact Hlb|]. split; [exact Hhl|].
    rewrite Htr', Htr0, mutations_app, listed_app, Hm0, Hl0. cbn [app].
    split; [by apply prefix_cons|].
    intros final Hf. destruct (Hok final Hf) as [-> _]. done.
  - split; [reflexivity|]. cbn [map fst snd].
    split; [by rewrite tag_fst|].
    split; [exists []; rewrite app_nil_r; repeat split; try done; constructor|].
    split; [exact Hs0|]. split; [exact Hlb0|]. split; [exact Hhl0|].
    rewrite Htr0, Hm0, Hl0. split; [done | discriminate].
  - split; [reflexivity|]. cbn [map fst snd].
    split; [by rewrite tag_fst|].
    split; [exists []; rewrite app_nil_r; repeat split; try done; constructor|].
    split; [exact Hs0|]. split; [exact Hlb0|]. split; [exact Hhl0|].
    rewrite Htr0, Hm0, Hl0. split; [done | discriminate].
Qed.

(** C2 as stated fails: when the root is listed under its own folder [A],
    a recursive run that returns has handed the root to the mutator twice,
    the second time after [A], with two update calls for it. *)
Lemma root_mutated_again_in_cycle :
  let out := update_folder_and_contents Scripted.random Scripted.svc
               "2025-10-20T09:20:25.000Z" true false 10 10 "R"
               (start (Scripted.drive Scripted.cycle)) in
  let outd := update_folder_and_contents_depth Scripted.random Scripted.svc
                "2025-10-20T09:20:25.000Z" true false 10 10 "R"
                (start (Scripted.drive Scripted.cycle)) in
  not_raised (fst out) /\ ended (fst out) /\
  mutations (trace (snd out)) = ["R"; "A"; "R"] /\
  network_updates (trace (snd out)) = ["R"; "A"; "R"] /\
  expansions (trace (snd out)) = ["R"; "A"] /\
  handed_at (snd (fst outd)) = [("R", 0); ("A", 1); ("R", 2)]%nat /\
  length (List.filter (String.eqb "R") (mutations (trace (snd out)))) <> 1%nat.
Proof.
  cbn zeta.
  do 2 (split; [vm_compute; exact I|]).
  do 4 (split; [vm_compute; reflexivity|]).
  vm_compute. discriminate.
Qed.

(** The scenario of the specification: four calls of the mutator, for [R],
    [folderA], [file1] and then [file2], and the listing of [folderA] only
    after the three objects above it. *)
Example scenario_recursive :
  let outd := update_folder_and_contents_depth Scripted.random Scripted.svc
                "2025-10-20T09:20:25.000Z" true false 10 10 "R"
                (start (Scripted.drive Scripted.scenario_tree)) in
  handed_at (snd (fst outd))
    = [("R", 0); ("folderA", 1); ("file1", 1); ("file2", 2)]%nat /\
  listed_at (snd (fst outd)) = [("R", 1); ("folderA", 2)]%nat /\
  map snd (snd (fst outd)) = [0; 1; 1; 1; 2; 2]%nat /\
  mutations (trace (snd outd)) = ["R"; "folderA"; "file1"; "file2"] /\
  network_updates (trace (snd outd)) = ["R"; "folderA"; "file1"; "file2"].
Proof. cbn zeta. do 4 (split; [vm_compute; reflexivity|]). vm_compute. reflexivity. Qed.
#[local] Set Warnings "-clear-no-such-hyp".


#[local] Set Warnings "-clear-no-such-hyp".

(** C9.  First the dry run by itself: it makes no update call, and with fuel
    for a turn of the loop it starts by paging through the root, as the
    lister does; the containers it lists from are the root and, when
    recursive, listed folders, and when it returns it has listed from the
    root and from every folder that was listed.  Then the dry run beside a
    real run: take two worlds that list alike, and let neither updates nor
    random draws change what is listed.  Then the list calls of the real run,
    with their answers, are the first list calls of the dry run: the same
    containers are expanded in the same order, and the same objects are
    handed to the mutator; and unless the real run stops on an exception the
    two runs end alike and make exactly the same list calls. *)
Theorem dry_run_lists_like_real {World : Type}
    (random_random : World -> spec_float * World) (svc : service World)
    (new_time : string) (recursive : bool) (fuel lfuel : nat) (folder_id : string)
    (R : World -> World -> Prop) (w1 w2 : World) :
  let dry := update_folder_and_contents random_random svc new_time recursive
               true fuel lfuel folder_id (start w1) in
  let real := update_folder_and_contents random_random svc new_time recursive
                false fuel lfuel folder_id (start w2) in
  network_updates (trace (snd dry)) = [] /\
  ((1 <= fuel)%nat ->
     exists evs1 rest r,
       listing_events (trace (snd dry)) = evs1 ++ rest /\
       paging folder_id lfuel None [] evs1 r) /\
  ((1 <= fuel)%nat -> (1 <= lfuel)%nat ->
     exists a rest,
       listing_events (trace (snd dry)) = EvList folder_id None a :: rest /\
       a = fst (files_list svc folder_id None w1)) /\
  (forall x, x ∈ expansions (trace (snd dry)) ->
     x = folder_id \/ (recursive = true /\ x ∈ listed_folders (trace (snd dry)))) /\
  (forall final, fst dry = Ok final ->
     forall x, x ∈ expansions (trace (snd dry)) <->
       x = folder_id \/ (recursive = true /\ x ∈ listed_folders (trace (snd dry)))) /\
  ((forall w1 w2 file_id body fields,
      R w1 w2 -> R w1 (snd (files_update svc file_id body fields w2))) ->
   (forall w1 w2, R w1 w2 -> R w1 (snd (random_random w2))) ->
   (forall w1 w2 parent_id page_token,
      R w1 w2 ->
      fst (files_list svc parent_id page_token w1)
        = fst (files_list svc parent_id page_token w2) /\
      R (snd (files_list svc parent_id page_token w1))
        (snd (files_list svc parent_id page_token w2))) ->
   R w1 w2 ->
   listing_events (trace (snd real)) `prefix_of` listing_events (trace (snd dry)) /\
   list_calls (trace (snd real)) `prefix_of` list_calls (trace (snd dry)) /\
   expansions (trace (snd real)) `prefix_of` expansions (trace (snd dry)) /\
   mutations (trace (snd real)) `prefix_of` mutations (trace (snd dry)) /\
   (not_raised (fst real) ->
    fst dry = fst real /\
    listing_events (trace (snd real)) = listing_events (trace (snd dry)) /\
    mutations (trace (snd real)) = mutations (trace (snd dry)))).
Proof.
  intros dry real.
  split; [apply dry_run_quiet|].
  assert (Hdry : dry = walk random_random svc new_time recursive true fuel lfuel
                         [folder_id] ∅
                         {| world := w1;
                            trace := [EvDryRunLog folder_id (body_of new_time)] |}).
  { subst dry. unfold update_folder_and_contents, bind. by rewrite update_one_dry. }
  set (st1 := {| world := w1;
                 trace := [EvDryRunLog folder_id (body_of new_time)] |}) in Hdry.
  assert (Hhead : (1 <= fuel)%nat ->
            exists evs1 rest r,
              trace (snd dry) = trace st1 ++ evs1 ++ rest /\
              trace (snd (list_children lfuel svc folder_id st1)) = trace st1 ++ evs1 /\
              paging folder_id lfuel None [] evs1 r).
  { intros Hf. destruct fuel as [|fuel]; [lia|]. rewrite Hdry.
    apply walk_lists_head. set_solver. }
  split.
  { intros Hf. destruct (Hhead Hf) as (evs1 & rest & r & Htr & _ & Hpag).
    exists evs1, (listing_events rest), r. split; [|exact Hpag].
    rewrite Htr, !listing_events_app.
    rewrite (listing_events_all evs1
               (list_events_of _ _ (paging_list_events _ _ _ _ _ _ Hpag))).
    reflexivity. }
  split.
  { intros Hf Hlf. destruct (Hhead Hf) as (evs1 & rest & r & Htr & Htrl & Hpag).
    destruct lfuel as [|lfuel]; [lia|].
    destruct (list_children_first svc lfuel folder_id st1) as (more & Hfirst).
    rewrite Htrl in Hfirst. apply app_inv_head in Hfirst. subst evs1.
    exists (fst (files_list svc folder_id None w1)), (listing_events (more ++ rest)).
    split; [|reflexivity].
    rewrite Htr. reflexivity. }
  assert (Hfolders :
    (forall x, x ∈ expansions (trace (snd dry)) ->
       x = folder_id \/ (recursive = true /\ x ∈ listed_folders (trace (snd dry)))) /\
    (forall final, fst dry = Ok final ->
       forall x, x ∈ expansions (trace (snd dry)) <->
         x = folder_id \/ (recursive = true /\ x ∈ listed_folders (trace (snd dry))))).
  { rewrite Hdry. unfold listed_folders.
    destruct (walk_folders random_random svc new_time recursive true fuel lfuel
                [folder_id] ∅ st1) as (evs & Htr & Hsound & Hok).
    rewrite Htr. change (trace st1 ++ evs) with (EvDryRunLog folder_id (body_of new_time) :: evs).
    change (expansions (EvDryRunLog folder_id (body_of new_time) :: evs))
      with (expansions evs).
    change (listed (EvDryRunLog folder_id (body_of new_time) :: evs))
      with (listed evs).
    split.
    - intros x Hx. destruct (Hsound x Hx) as [Hq|He]; [left; set_solver|].
      right. by apply elem_of_enqueued.
    - intros final Hf x. destruct (Hok final Hf) as [H1 H2].
      rewrite <- elem_of_enqueued. specialize (H1 x). specialize (H2 x).
      set_solver. }
  destruct Hfolders as [Hf1 Hf2].
  split; [exact Hf1|]. split; [exact Hf2|].
  clear Hdry Hhead Hf1 Hf2 st1.
  intros R_update R_random R_list HR.
  assert (Hmain :
    listing_events (trace (snd real)) `prefix_of` listing_events (trace (snd dry)) /\
    mutations (trace (snd real)) `prefix_of` mutations (trace (snd dry)) /\
    (not_raised (fst real) ->
     fst dry = fst real /\
     listing_events (trace (snd real)) = listing_events (trace (snd dry)) /\
     mutations (trace (snd real)) = mutations (trace (snd dry)))).
  { subst dry real. unfold update_folder_and_contents, bind.
    rewrite update_one_dry.
    destruct (update_one_events random_random svc new_time false folder_id (start w2))
      as (evs0 & Htr0 & Hm0 & Hnl0 & Hnd0).
    pose proof (update_one_related random_random svc new_time R R_update R_random
                  folder_id w1 (start w2) HR) as HR0.
    pose proof (listing_events_none evs0 Hnl0) as Hl0.
    change (trace (start w2)) with (@nil event) in Htr0. rewrite app_nil_l in Htr0.
    match goal with |- context [walk _ _ _ _ true _ _ _ _ ?s] => set (st1 := s) end.
    assert (Hl1 : listing_events (trace st1) = []) by reflexivity.
    assert (Hm1 : mutations (trace st1) = [folder_id]) by reflexivity.
    destruct (walk_extends random_random svc new_time recursive true fuel lfuel
                [folder_id] ∅ st1) as (more & Hmore).
    destruct (update_one random_random svc new_time false folder_id (start w2))
      as [[resp|e|] st2]; cbn [fst snd] in *; try congruence.
    - destruct (walk_related random_random svc new_time recursive R R_update R_random
                  R_list fuel lfuel [folder_id] ∅ st1 st2 HR0)
        as (evs1 & evs2 & Ht1 & Ht2 & HpL & HpM & Heq).
      rewrite Ht1, Ht2, Htr0.
      rewrite !listing_events_app, !mutations_app, Hl0, Hm0, Hl1, Hm1. cbn [app].
      split; [exact HpL|]. split; [by apply prefix_cons|].
      intros Hnr. destruct (Heq Hnr) as (-> & -> & ->). done.
    - rewrite Hmore, Htr0, Hl0, Hm0.
      rewrite !listing_events_app, !mutations_app, Hl1, Hm1. cbn [app].
      split; [apply prefix_nil|]. split; [apply prefix_cons, prefix_nil|].
      intros []. }
  destruct Hmain as (HL & HM & Heq).
  split; [exact HL|].
  split; [rewrite <- (list_calls_listing (trace (snd real))),
                  <- (list_calls_listing (trace (snd dry))); by apply prefix_omap|].
  split; [rewrite <- (expansions_listing (trace (snd real))),
                  <- (expansions_listing (trace (snd dry))); by apply prefix_omap|].
  split; [exact HM | exact Heq].
Qed.

Lemma dry_run_lists_like_real_witness :
  let w := Scripted.drive Scripted.scenario_tree in
  let dry := update_folder_and_contents Scripted.random Scripted.svc
               "2025-10-20T09:20:25.000Z" true true 10 10 "R" (start w) in
  let real := update_folder_and_contents Scripted.random Scripted.svc
                "2025-10-20T09:20:25.000Z" true false 10 10 "R" (start w) in
  (1 <= 10)%nat /\
  Scripted.listing w = Scripted.listing w /\
  (exists a rest,
     listing_events (trace (snd dry)) = EvList "R" None a :: rest /\
     a = fst (files_list Scripted.svc "R" None w)) /\
  list_calls (trace (snd real)) `prefix_of` list_calls (trace (snd dry)).
Proof.
  intros w dry real.
  destruct (dry_run_lists_like_real Scripted.random Scripted.svc
              "2025-10-20T09:20:25.000Z" true 10 10 "R"
              (fun a b => Scripted.listing a = Scripted.listing b) w w)
    as (_ & _ & Hfirst & _ & _ & Hreal).
  split; [lia|]. split; [reflexivity|].
  split; [apply Hfirst; lia|].
  apply Hreal.
  - intros a b file_id body fields H. cbn. unfold Scripted.do_update.
    destruct (Scripted.updates b); exact H.
  - intros a b H. unfold Scripted.random. destruct (Scripted.randoms b); exact H.
  - intros a b parent_id page_token H. cbn. unfold Scripted.do_list. cbn.
    split; [by rewrite H | exact H].
  - reflexivity.
Defined.
